(** * afterlife-vault: the countdown worker and the token worker

    A shallow embedding of the two workers of the repository:
    - [Worker] follows [src/index.ts] (the "Inactive Email Manager":
      invitations signed with HMAC, and the [SleepWorkflow] that notifies
      the owner, sleeps and releases the vault content);
    - [Vault] follows the earlier worker (the "Afterlife Vault": trigger
      tokens signed as JWTs, issued by [createToken] and checked in the
      [email] handler).

    [JS] holds the part of the JavaScript semantics both rely on.

    Numbers.  A JavaScript number is modelled by [JS.number]: NaN, the two
    infinities, or a rational, which stands for a binary64 value.  Every
    result of [+], [*], [/] and of reading a decimal literal is rounded to
    the nearest binary64 value, ties to even, with overflow to an infinity
    and gradual underflow ([JS.round64]).  The comparisons, [||],
    [Math.max], [Math.floor] and [isNaN] follow ECMAScript.  The sign of
    zero is not modelled.

    Strings.  A JavaScript string is modelled by [string]; each character
    stands for one code unit in the range U+0000..U+00FF. *)

From Stdlib Require Import ZArith QArith Qround Qpower List String Ascii Bool.
From Stdlib Require Import Lia Lqa.
From Stdlib Require Import DecimalString.
Import ListNotations.

Local Open Scope string_scope.

(* ===================================================================== *)
(** ** JavaScript numbers and strings *)
(* ===================================================================== *)

Module JS.

(** *** Numbers *)

Inductive number : Type :=
| NaN
| PosInf
| NegInf
| Fin (q : Q).

Definition num (z : Z) : number := Fin (inject_Z z).

Definition isNaN (x : number) : bool :=
  match x with NaN => true | _ => false end.

(** [ToBoolean] on a number: only 0 and NaN are falsy. *)
Definition truthy (x : number) : bool :=
  match x with
  | NaN => false
  | Fin q => negb (Qeq_bool q 0)
  | PosInf | NegInf => true
  end.

(** [x || d] on numbers. *)
Definition or_else (x d : number) : number :=
  if truthy x then x else d.

(** [x > y]; every comparison with NaN is false. *)
Definition gt (x y : number) : bool :=
  match x, y with
  | NaN, _ | _, NaN => false
  | PosInf, PosInf => false
  | PosInf, _ => true
  | _, PosInf => false
  | NegInf, _ => false
  | Fin _, NegInf => true
  | Fin a, Fin b => negb (Qle_bool a b)
  end.

(** [x < y] and [x <= y]. *)
Definition lt (x y : number) : bool := gt y x.

Definition le (x y : number) : bool :=
  match x, y with
  | NaN, _ | _, NaN => false
  | NegInf, _ => true
  | _, PosInf => true
  | PosInf, _ => false
  | Fin _, NegInf => false
  | Fin a, Fin b => Qle_bool a b
  end.

(** *** binary64 *)

Definition pow2 (e : Z) : Q := 2 ^ e.

(** The binary exponent of a positive rational: [2^e <= q < 2^(e+1)]. *)
Definition ilog2 (q : Q) : Z :=
  let e0 := (Z.log2 (Qnum q) - Z.log2 (Zpos (Qden q)))%Z in
  if Qle_bool (pow2 e0) q then e0 else (e0 - 1)%Z.

(** The nearest integer, ties to even. *)
Definition rne (x : Q) : Z :=
  let f := Qfloor x in
  match Qcompare (x - inject_Z f) (1 # 2) with
  | Lt => f
  | Gt => (f + 1)%Z
  | Eq => if Z.even f then f else (f + 1)%Z
  end.

(** The exponent of the unit in the last place of a positive rational: 53
    significant bits, and no exponent below that of the subnormal
    numbers. *)
Definition ulp (q : Q) : Z := Z.max (ilog2 q - 52) (-1074).

(** The nearest multiple of the unit in the last place. *)
Definition nearest (q : Q) : Q :=
  inject_Z (rne (q / pow2 (ulp q))) * pow2 (ulp q).

(** The binary64 value of a rational: round to nearest, ties to even; what
    rounds to [2^1024] or beyond is an infinity. *)
Definition round64 (q : Q) : number :=
  match Qcompare q 0 with
  | Eq => Fin 0
  | Gt => if Qle_bool (pow2 1024) (nearest q) then PosInf
          else Fin (Qred (nearest q))
  | Lt => if Qle_bool (pow2 1024) (nearest (- q)) then NegInf
          else Fin (Qred (- nearest (- q)))
  end.

(** A number that is a binary64 value: rounding leaves it alone. *)
Definition is_double (x : number) : Prop :=
  match x with
  | Fin q => round64 q = Fin q
  | _ => True
  end.

(** *** Arithmetic *)

(** [x + y]: the sum of opposite infinities is NaN. *)
Definition add (x y : number) : number :=
  match x, y with
  | NaN, _ | _, NaN => NaN
  | PosInf, NegInf | NegInf, PosInf => NaN
  | PosInf, _ | _, PosInf => PosInf
  | NegInf, _ | _, NegInf => NegInf
  | Fin a, Fin b => round64 (a + b)
  end.

Definition sign_mul (neg : bool) : number :=
  if neg then NegInf else PosInf.

Definition is_neg (q : Q) : bool := negb (Qle_bool 0 q).

(** [x * y]: an infinity times zero is NaN. *)
Definition mul (x y : number) : number :=
  match x, y with
  | NaN, _ | _, NaN => NaN
  | Fin a, Fin b => round64 (a * b)
  | Fin a, PosInf | PosInf, Fin a =>
      if Qeq_bool a 0 then NaN else sign_mul (is_neg a)
  | Fin a, NegInf | NegInf, Fin a =>
      if Qeq_bool a 0 then NaN else sign_mul (negb (is_neg a))
  | PosInf, PosInf | NegInf, NegInf => PosInf
  | PosInf, NegInf | NegInf, PosInf => NegInf
  end.

(** [x / y] for a finite non-zero divisor, the only form the workers use. *)
Definition div (x : number) (d : Q) : number :=
  match x with
  | Fin a => round64 (a / d)
  | NaN => NaN
  | PosInf => sign_mul (is_neg d)
  | NegInf => sign_mul (negb (is_neg d))
  end.

(** [Math.max(x, y)]: NaN as soon as one argument is NaN. *)
Definition max (x y : number) : number :=
  match x, y with
  | NaN, _ | _, NaN => NaN
  | _, _ => if gt y x then y else x
  end.

(** [Math.floor(x)]. *)
Definition floor (x : number) : number :=
  match x with
  | Fin q => Fin (inject_Z (Qfloor q))
  | _ => x
  end.

(** *** Characters *)

Definition code (c : ascii) : nat := nat_of_ascii c.

Definition between (lo hi : nat) (c : ascii) : bool :=
  (lo <=? code c)%nat && (code c <=? hi)%nat.

Definition is_digit (c : ascii) : bool := between 48 57 c.
Definition is_lower (c : ascii) : bool := between 97 122 c.
Definition is_upper (c : ascii) : bool := between 65 90 c.

(** [\w]: letters, digits and the underscore. *)
Definition is_word (c : ascii) : bool :=
  is_digit c || is_lower c || is_upper c || (code c =? 95)%nat.

(** White space as [parseFloat] and [parseInt] skip it (TAB, LF, VT, FF, CR,
    SP and NBSP are the white-space code units below U+0100). *)
Definition is_space (c : ascii) : bool :=
  between 9 13 c || (code c =? 32)%nat || (code c =? 160)%nat.

Definition digit_val (c : ascii) : Z := Z.of_nat (code c) - 48.

(** *** Lists of characters *)

Fixpoint chars (s : string) : list ascii :=
  match s with
  | EmptyString => []
  | String c s' => c :: chars s'
  end.

Fixpoint text (l : list ascii) : string :=
  match l with
  | [] => EmptyString
  | c :: l' => String c (text l')
  end.

(** The longest prefix whose characters satisfy [p], and the rest. *)
Fixpoint span (p : ascii -> bool) (l : list ascii) : list ascii * list ascii :=
  match l with
  | [] => ([], [])
  | c :: l' =>
      if p c then let (a, b) := span p l' in (c :: a, b) else ([], l)
  end.

Fixpoint drop_while (p : ascii -> bool) (l : list ascii) : list ascii :=
  match l with
  | [] => []
  | c :: l' => if p c then drop_while p l' else l
  end.

Fixpoint starts_with (p l : list ascii) : option (list ascii) :=
  match p, l with
  | [], _ => Some l
  | _ :: _, [] => None
  | a :: p', b :: l' => if Ascii.eqb a b then starts_with p' l' else None
  end.

(** The value of a run of decimal digits. *)
Definition decimal (ds : list ascii) : Z :=
  fold_left (fun acc c => 10 * acc + digit_val c)%Z ds 0%Z.

(** *** parseFloat *)

(** The optional exponent part [e[+-]digits] of a decimal literal; an [e]
    that no digit follows is not part of the literal. *)
Definition exponent (l : list ascii) : Z :=
  match l with
  | c :: l' =>
      if (Ascii.eqb c "e" || Ascii.eqb c "E")%bool then
        let (neg, l'') :=
          match l' with
          | s :: r =>
              if Ascii.eqb s "-" then (true, r)
              else if Ascii.eqb s "+" then (false, r)
              else (false, l')
          | [] => (false, l')
          end in
        match fst (span is_digit l'') with
        | [] => 0%Z
        | ds => if neg then (- decimal ds)%Z else decimal ds
        end
      else 0%Z
  | [] => 0%Z
  end.

Definition pow10 (e : Z) : Q :=
  if (0 <=? e)%Z then inject_Z (10 ^ e) else 1 / inject_Z (10 ^ (- e)).

(** The unsigned part of a [StrDecimalLiteral]: [Infinity], or digits with
    an optional fraction and exponent; NaN when no prefix is one. *)
Definition unsigned_literal (l : list ascii) : number :=
  match starts_with (chars "Infinity") l with
  | Some _ => PosInf
  | None =>
      let (ip, r1) := span is_digit l in
      let (fp, r2) :=
        match r1 with
        | c :: r => if Ascii.eqb c "." then span is_digit r else ([], r1)
        | [] => ([], r1)
        end in
      match (ip ++ fp)%list with
      | [] => NaN
      | ds =>
          round64 (inject_Z (decimal ds)
                   * pow10 (exponent r2 - Z.of_nat (List.length fp)))
      end
  end.

Definition negate (x : number) : number :=
  match x with
  | NaN => NaN
  | PosInf => NegInf
  | NegInf => PosInf
  | Fin q => Fin (Qred (- q))
  end.

(** [parseFloat(s)]: leading white space is skipped, then the longest prefix
    that is a signed decimal literal is read, and its value rounded to
    binary64. *)
Definition parseFloat (s : string) : number :=
  match drop_while is_space (chars s) with
  | c :: l =>
      if Ascii.eqb c "-" then negate (unsigned_literal l)
      else if Ascii.eqb c "+" then unsigned_literal l
      else unsigned_literal (c :: l)
  | [] => NaN
  end.

(** An environment variable that is not set is [undefined]; [ToString] of
    it is the text [undefined]. *)
Definition to_string (v : option string) : string :=
  match v with
  | Some s => s
  | None => "undefined"
  end.

(** *** String methods *)

(** The first occurrence of [p] in [l]: what stands before it and after it. *)
Fixpoint find (p l : list ascii) {struct l} : option (list ascii * list ascii) :=
  match starts_with p l with
  | Some r => Some ([], r)
  | None =>
      match l with
      | [] => None
      | c :: l' =>
          match find p l' with
          | Some (b, a) => Some (c :: b, a)
          | None => None
          end
      end
  end.

(** [s.includes(p)]. *)
Definition includes (s p : string) : bool :=
  match find (chars p) (chars s) with Some _ => true | None => false end.

(** [GetSubstitution] for a string pattern (no capture groups): in the
    replacement text, [$$] is a dollar, [$&] the matched text, [$`] what
    precedes the match and [$'] what follows it. *)
Fixpoint substitution (matched before after rep : list ascii) : list ascii :=
  match rep with
  | [] => []
  | c :: tl =>
      if Ascii.eqb c "$" then
        match tl with
        | d :: tl' =>
            if Ascii.eqb d "$" then c :: substitution matched before after tl'
            else if Ascii.eqb d "&" then
              (matched ++ substitution matched before after tl')%list
            else if Ascii.eqb d "`" then
              (before ++ substitution matched before after tl')%list
            else if Ascii.eqb d "'" then
              (after ++ substitution matched before after tl')%list
            else c :: substitution matched before after tl
        | [] => [c]
        end
      else c :: substitution matched before after tl
  end.

(** [s.replace(pat, rep)] with a string pattern: the first occurrence only. *)
Definition replace (pat rep s : string) : string :=
  match find (chars pat) (chars s) with
  | Some (b, a) =>
      text (b ++ substitution (chars pat) b a (chars rep) ++ a)%list
  | None => s
  end.

(** [s.replaceAll(pat, rep)]: every occurrence, left to right, without
    overlap.  [seen] is the text already passed (reversed) and [skip] the
    number of characters of the current match still to pass. *)
Fixpoint replaceAll_go (pat rep seen : list ascii) (skip : nat)
  (l : list ascii) : list ascii :=
  match l with
  | [] =>
      match skip, pat with
      | O, [] => substitution [] (rev seen) [] rep
      | _, _ => []
      end
  | c :: l' =>
      match skip with
      | S k => replaceAll_go pat rep (c :: seen) k l'
      | O =>
          match starts_with pat l with
          | Some rest =>
              (substitution pat (rev seen) rest rep ++
               match pat with
               | [] => c :: replaceAll_go pat rep (c :: seen) 0 l'
               | _ :: p' => replaceAll_go pat rep (c :: seen) (List.length p') l'
               end)%list
          | None => c :: replaceAll_go pat rep (c :: seen) 0 l'
          end
      end
  end.

Definition replaceAll (pat rep s : string) : string :=
  text (replaceAll_go (chars pat) (chars rep) [] 0 (chars s)).

(** [s.split(sep)[1]] for a one-character separator: the piece between the
    first and the second separator, [undefined] when there is no separator. *)
Definition split_second (sep : ascii) (s : string) : option string :=
  match snd (span (fun c => negb (Ascii.eqb c sep)) (chars s)) with
  | _ :: r => Some (text (fst (span (fun c => negb (Ascii.eqb c sep)) r)))
  | [] => None
  end.

(** ASCII case folding, which is all the [i] flag of a regular expression
    without the [u] flag does to the patterns used here. *)
Definition lower (c : ascii) : ascii :=
  if is_upper c then ascii_of_nat (code c + 32) else c.

(** [x.toString(16)] for a byte and [s.padStart(2, "0")]. *)
Definition hex_digit (n : N) : ascii :=
  if (n <? 10)%N then ascii_of_N (48 + n) else ascii_of_N (87 + n).

Definition toString16 (b : Byte.byte) : list ascii :=
  let n := Byte.to_N b in
  if (n <? 16)%N then [hex_digit n]
  else [hex_digit (n / 16); hex_digit (n mod 16)].

Definition padStart2 (l : list ascii) : list ascii :=
  match l with
  | [] => ["0"%char; "0"%char]
  | [c] => ["0"%char; c]
  | _ => l
  end.

(** *** parseInt with radix 16 *)

Definition is_hex (c : ascii) : bool :=
  is_digit c || between 97 102 c || between 65 70 c.

Definition hex_val (c : ascii) : Z :=
  if is_digit c then Z.of_nat (code c) - 48
  else if between 97 102 c then Z.of_nat (code c) - 87
  else Z.of_nat (code c) - 55.

Definition hexadecimal (ds : list ascii) : Z :=
  fold_left (fun acc c => 16 * acc + hex_val c)%Z ds 0%Z.

(** [Number.parseInt(s, 16)]: white space, a sign and a [0x] prefix are
    skipped, then the longest run of hexadecimal digits is read; [None] is
    NaN (no digit). *)
Definition parseInt16 (l : list ascii) : option Z :=
  let l1 := drop_while is_space l in
  let (neg, l2) :=
    match l1 with
    | c :: r =>
        if Ascii.eqb c "-" then (true, r)
        else if Ascii.eqb c "+" then (false, r)
        else (false, l1)
    | [] => (false, l1)
    end in
  let l3 :=
    match l2 with
    | z :: x :: r =>
        if (Ascii.eqb z "0" && (Ascii.eqb x "x" || Ascii.eqb x "X"))%bool
        then r else l2
    | _ => l2
    end in
  match fst (span is_hex l3) with
  | [] => None
  | ds => Some (if neg then - hexadecimal ds else hexadecimal ds)%Z
  end.

(** Storing a number in a [Uint8Array]: NaN becomes 0, an integer is taken
    modulo 256. *)
Definition to_uint8 (v : option Z) : Byte.byte :=
  match v with
  | None => Byte.x00
  | Some z =>
      match Byte.of_N (Z.to_N (z mod 256)) with
      | Some b => b
      | None => Byte.x00
      end
  end.

(** *** JSON.stringify and TextEncoder *)

Definition dquote : ascii := ascii_of_nat 34.
Definition backslash : ascii := ascii_of_nat 92.

(** The escape of one code unit inside a JSON string. *)
Definition json_escape (c : ascii) : list ascii :=
  let n := code c in
  if (n =? 34)%nat then [backslash; dquote]
  else if (n =? 92)%nat then [backslash; backslash]
  else if (n =? 8)%nat then [backslash; "b"%char]
  else if (n =? 9)%nat then [backslash; "t"%char]
  else if (n =? 10)%nat then [backslash; "n"%char]
  else if (n =? 12)%nat then [backslash; "f"%char]
  else if (n =? 13)%nat then [backslash; "r"%char]
  else if (n <? 32)%nat then
    [backslash; "u"%char; "0"%char; "0"%char;
     hex_digit (N.of_nat n / 16); hex_digit (N.of_nat n mod 16)]
  else [c].

(** [JSON.stringify(s)] for a string [s]. *)
Definition json_string (s : string) : list ascii :=
  (dquote :: flat_map json_escape (chars s) ++ [dquote])%list.

(** [new TextEncoder().encode(s)]: UTF-8, one byte below U+0080 and two
    bytes from there to U+00FF. *)
Definition utf8_unit (c : ascii) : list Byte.byte :=
  let n := N_of_ascii c in
  if (n <? 128)%N then [to_uint8 (Some (Z.of_N n))]
  else [to_uint8 (Some (Z.of_N (192 + n / 64)));
        to_uint8 (Some (Z.of_N (128 + n mod 64)))].

Definition encode (l : list ascii) : list Byte.byte :=
  flat_map utf8_unit l.

Fixpoint bytes_eqb (a b : list Byte.byte) : bool :=
  match a, b with
  | [], [] => true
  | x :: a', y :: b' => Byte.eqb x y && bytes_eqb a' b'
  | _, _ => false
  end.

End JS.

(* ===================================================================== *)
(** ** The runtime of a worker: messages, bindings, effects *)
(* ===================================================================== *)

Module Runtime.
Import JS.

(** *** Messages *)

(** A message under construction ([createMimeMessage] and its setters). *)
Record Mime : Type := {
  sender_name : string;
  sender_addr : string;
  recipient : string;
  subject : string;
  headers : list (string * string);
  parts : list string
}.

Definition createMimeMessage : Mime :=
  {| sender_name := ""; sender_addr := ""; recipient := ""; subject := "";
     headers := []; parts := [] |}.

Definition setSender (name addr : string) (m : Mime) : Mime :=
  {| sender_name := name; sender_addr := addr; recipient := recipient m;
     subject := subject m; headers := headers m; parts := parts m |}.

Definition setRecipient (addr : string) (m : Mime) : Mime :=
  {| sender_name := sender_name m; sender_addr := sender_addr m;
     recipient := addr; subject := subject m; headers := headers m;
     parts := parts m |}.

Definition setSubject (s : string) (m : Mime) : Mime :=
  {| sender_name := sender_name m; sender_addr := sender_addr m;
     recipient := recipient m; subject := s; headers := headers m;
     parts := parts m |}.

(** The message with one more header. *)
Definition with_header (k v : string) (m : Mime) : Mime :=
  {| sender_name := sender_name m; sender_addr := sender_addr m;
     recipient := recipient m; subject := subject m;
     headers := (headers m ++ [(k, v)])%list; parts := parts m |}.

(** [addMessage({ contentType: "text/plain", data })]. *)
Definition addMessage (data : string) (m : Mime) : Mime :=
  {| sender_name := sender_name m; sender_addr := sender_addr m;
     recipient := recipient m; subject := subject m; headers := headers m;
     parts := (parts m ++ [data])%list |}.

(** [asRaw()]: the headers, and of the texts added the first one only;
    every message the workers render has a sender, a subject and a text. *)
Definition asRaw (m : Mime) : Mime :=
  {| sender_name := sender_name m; sender_addr := sender_addr m;
     recipient := recipient m; subject := subject m; headers := headers m;
     parts := firstn 1 (parts m) |}.

(** [new EmailMessage(from, to, raw)]. *)
Record EmailMessage : Type := {
  from : string;
  to : string;
  raw : Mime
}.

(** *** The outside world *)

(** What a run does to the outside world, in order. *)
Inductive Event : Type :=
| Mail (m : EmailMessage) (outcome : option string)
| Reply (m : EmailMessage) (outcome : option string)
| Attempt (step : string) (n : nat)
| Sleep (step : string) (ms : number)
| Create (id identity : string) (domain : option string)
| ConsoleLog (s : string)
| ConsoleError (s : string).

(** The world counts the calls made to the mail binding, to [message.reply]
    and to [crypto.randomUUID], so that each of them may answer differently
    from one call to the next. *)
Record World : Type := {
  sends : nat;
  replies : nat;
  uuids : nat;
  trace : list Event
}.

Definition start : World :=
  {| sends := 0; replies := 0; uuids := 0; trace := [] |}.

Definition emit (e : Event) (w : World) : World :=
  {| sends := sends w; replies := replies w; uuids := uuids w;
     trace := (trace w ++ [e])%list |}.

(** A computation returns a value or throws an [Error] (its message). *)
Inductive Result (A : Type) : Type :=
| Ok (a : A)
| Throw (e : string).

Arguments Ok {A} a.
Arguments Throw {A} e.

Definition M (A : Type) : Type := World -> Result A * World.

Definition ret {A} (a : A) : M A := fun w => (Ok a, w).

Definition bind {A B} (c : M A) (k : A -> M B) : M B :=
  fun w =>
    match c w with
    | (Ok a, w') => k a w'
    | (Throw e, w') => (Throw e, w')
    end.

(** [try { c } catch (e) { h(e) }]. *)
Definition try_catch {A} (c : M A) (h : string -> M A) : M A :=
  fun w =>
    match c w with
    | (Ok a, w') => (Ok a, w')
    | (Throw e, w') => h e w'
    end.

Definition throw {A} (e : string) : M A := fun w => (Throw e, w).

Definition console_error (s : string) : M unit :=
  fun w => (Ok tt, emit (ConsoleError s) w).

(** [setHeader(k, v)]: a header needs a value.  When [v] is [null] the
    library throws its own error, of message [error]. *)
Definition setHeader (error : string) (k : string) (v : option string) (m : Mime)
  : M Mime :=
  match v with
  | Some v => ret (with_header k v m)
  | None => throw error
  end.

Notation "x <- c ;; k" := (bind c (fun x => k))
  (at level 61, c at next level, right associativity).
Notation "c ;; k" := (bind c (fun _ => k))
  (at level 61, right associativity).


(** [a || b] on strings: [undefined] and the empty string are falsy. *)
Definition or_string (a : option string) (b : string) : string :=
  match a with
  | Some EmptyString | None => b
  | Some s => s
  end.

(** A mail binding ([env.SEB], [env.OWNER]): the answer of its [k]-th call
    to [send], [None] when the message is accepted and [Some e] when the
    call rejects with an error of message [e].  [message.reply] is read the
    same way. *)
Definition Binding : Type := nat -> EmailMessage -> option string.

(** How a call to a binding settles. *)
Definition settled (r : option string) : Result unit :=
  match r with
  | None => Ok tt
  | Some e => Throw e
  end.

Definition send (b : Binding) (m : EmailMessage) : M unit :=
  fun w =>
    let r := b (sends w) m in
    let w' := {| sends := S (sends w); replies := replies w;
                 uuids := uuids w;
                 trace := (trace w ++ [Mail m r])%list |} in
    match r with
    | None => (Ok tt, w')
    | Some e => (Throw e, w')
    end.

Definition reply (b : Binding) (m : EmailMessage) : M unit :=
  fun w =>
    let r := b (replies w) m in
    let w' := {| sends := sends w; replies := S (replies w);
                 uuids := uuids w;
                 trace := (trace w ++ [Reply m r])%list |} in
    match r with
    | None => (Ok tt, w')
    | Some e => (Throw e, w')
    end.

(** [env.SLEEP.create]: the answer to the request that follows the [k]-th
    identifier drawn, [None] when the instance is created and [Some e] when
    the call rejects with an error of message [e]. *)
Definition Spawner : Type :=
  nat -> string -> string -> option string -> option string.

(** The message handed to the [email] handler, with what [PostalMime.parse]
    reads from its raw text; [message_id] is
    [message.headers.get("Message-ID")], [None] when the header is absent. *)
Record Message : Type := {
  msg_from : string;
  msg_to : string;
  message_id : option string;
  inReplyTo : option string;
  email_subject : option string;
  email_text : option string
}.

(** [if (email.inReplyTo)]. *)
Definition is_reply (m : Message) : bool :=
  match inReplyTo m with
  | Some (String _ _) => true
  | _ => false
  end.

End Runtime.

(* ===================================================================== *)
(** ** The countdown worker ([src/index.ts]) *)
(* ===================================================================== *)

Module Worker.
Import JS Runtime.

Record Env : Type := {
  SENDER_EMAIL : option string;
  OWNER_EMAIL : string;
  NOT_BEFORE_DAYS : option string;
  VAULT_CONTENT : string;
  SECRET : string
}.

Definition DEFAULT_NOT_BEFORE_DAYS : number := num 7.

(** [parseDays] of the countdown worker. *)
Definition parseDays (daysStr : option string) : number :=
  let days := parseFloat (to_string daysStr) in
  if isNaN days then num 0
  else if gt days (num 365) then num 0
  else days.

Section Handlers.

(** The mail binding [env.SEB] and [message.reply]. *)
Variable SEB : Binding.
Variable REPLY : Binding.

(** [crypto.randomUUID()], by call. *)
Variable randomUUID : nat -> string.

(** [Number.prototype.toString]. *)
Variable number_toString : number -> string.

(** HMAC-SHA-256 of [crypto.subtle]: key bytes, then message bytes. *)
Variable HMAC : list Byte.byte -> list Byte.byte -> list Byte.byte.

(** The workflow binding [env.SLEEP]. *)
Variable SLEEP : Spawner.

(** The message of the error [setHeader] throws for a header without a
    value. *)
Variable header_error : string.

Definition fresh_uuid : M string :=
  fun w =>
    (Ok (randomUUID (uuids w)),
     {| sends := sends w; replies := replies w; uuids := S (uuids w);
        trace := trace w |}).

(** *** The workflow engine *)

(** The retry configuration of a step. *)
Inductive Backoff : Type := Constant | Linear | Exponential.

Record StepConfig : Type := {
  limit : nat;
  delay : Z;
  backoff : Backoff
}.

(** [step.do(name, config, body)]: the body runs once and, while it throws,
    again, up to [limit] more times; the last error is thrown when the
    budget is spent.  [k] numbers the attempt and [n] is the number of
    retries left.  (The waits between attempts change no result.) *)
Fixpoint attempts (name : string) (body : M unit) (n k : nat) : M unit :=
  fun w =>
    match body (emit (Attempt name k) w) with
    | (Ok a, w') => (Ok a, w')
    | (Throw e, w') =>
        match n with
        | O => (Throw e, w')
        | S n' => attempts name body n' (S k) w'
        end
    end.

Definition step_do (name : string) (cfg : StepConfig) (body : M unit) : M unit :=
  attempts name body (limit cfg) 0.

(** [step.sleep(name, duration)]. *)
Definition step_sleep (name : string) (ms : number) : M unit :=
  fun w => (Ok tt, emit (Sleep name ms) w).

(** *** SleepWorkflow *)

Definition NOTIFY_TEMPLATE : string := "
{{identity}}

Your Inactive Email Manager instance received a token request from this email address.
This means this contact believes you are no longer able to handle this email.
If this is not the case, please immediately stop the following workflow to invalidate
the request:

{{workflowId}}

Otherwise, this token will be valid in {{notBefore}} days
and the contact will be able to access the SECRET you have stored in your instance.

Inactive Email Manager
".

(** [event.payload]. *)
Record Payload : Type := {
  id : string;
  identity : string;
  domain : option string
}.

Definition retries : StepConfig :=
  {| limit := 2; delay := 180000; backoff := Exponential |}.

(** The message the step [notify] builds for the owner. *)
Definition notification (env : Env) (p : Payload) : EmailMessage :=
  let sender := or_string (SENDER_EMAIL env) ("noreply@" ++ to_string (domain p)) in
  let ownerEmail := OWNER_EMAIL env in
  let notBeforeDays :=
    or_else (parseDays (NOT_BEFORE_DAYS env)) DEFAULT_NOT_BEFORE_DAYS in
  let body :=
    replace "{{notBefore}}" (number_toString notBeforeDays)
      (replace "{{identity}}" (identity p)
        (replace "{{workflowId}}" (id p) NOTIFY_TEMPLATE)) in
  let mime :=
    addMessage body
      (setSubject "Inactive Email Manager Token Request Notification"
        (setRecipient ownerEmail
          (setSender "Inactive Email Manager" sender createMimeMessage))) in
  {| from := sender; to := ownerEmail; raw := asRaw mime |}.

(** The body of the step [notify]. *)
Definition notify (env : Env) (p : Payload) : M unit :=
  send SEB (notification env p).

(** The message the step [send] builds for the requester. *)
Definition secret_message (env : Env) (p : Payload) : EmailMessage :=
  let sender := or_string (SENDER_EMAIL env) ("noreply@" ++ to_string (domain p)) in
  let msg :=
    addMessage
      ("Here is the secret message you requested:

" ++ VAULT_CONTENT env)
      (setSubject "Secret Message from Your Contact"
        (setRecipient (identity p)
          (setSender "Inactive Email Manager" sender createMimeMessage))) in
  {| from := sender; to := identity p; raw := asRaw msg |}.

(** The body of the step [send]. *)
Definition release (env : Env) (p : Payload) : M unit :=
  send SEB (secret_message env p).

(** The length of the countdown, in milliseconds. *)
Definition countdown (env : Env) : number :=
  mul (or_else (parseDays (NOT_BEFORE_DAYS env)) DEFAULT_NOT_BEFORE_DAYS)
      (num (24 * 60 * 60 * 1000)).

(** [SleepWorkflow.run]. *)
Definition run (env : Env) (p : Payload) : M unit :=
  step_do "notify" retries (notify env p) ;;
  step_sleep "sleep" (countdown env) ;;
  try_catch (step_do "send" retries (release env p))
            (fun e => console_error e).

(** The state the engine leaves the instance in: a run that returns ends
    Complete, a run that throws ends Errored (the spec's Completed and
    Failed). *)
Inductive Status : Type := Complete | Errored.

Definition status_of {A} (r : Result A) : Status :=
  match r with Ok _ => Complete | Throw _ => Errored end.

Definition slept (e : Event) : bool :=
  match e with Sleep _ _ => true | _ => false end.

Definition attempted (name : string) (e : Event) : bool :=
  match e with Attempt s _ => String.eqb s name | _ => false end.

(** The events a step leaves while it runs a body that only sends mail: its
    attempts and the messages handed to the binding. *)
Definition of_step (name : string) (e : Event) : bool :=
  match e with
  | Attempt s _ => String.eqb s name
  | Mail _ _ => true
  | _ => false
  end.

(** *** Invitations *)

Definition INVITATION_TEMPLATE : string := "
To {{contact}},

Your contact {{owner}} has invited you to join Inactive Email Manager.
When you are sure they can no longer handle their email account, you can use the link
at the end of this email to create a message requesting access to their account data.
Note:
Please keep your email account secure to prevent malicious use by others.
Please do not use this service while your contact can still access their email account,
otherwise your account will be banned.

{{link}}

Inactive Email Manager
".

(** [JSON.stringify({ contact, owner, usage: "invitation" })]: the keys in
    the order they are written, which is the alphabetical one. *)
Definition invitation_data (contact owner : string) : list ascii :=
  (chars "{" ++ json_string "contact" ++ chars ":" ++ json_string contact
   ++ chars "," ++ json_string "owner" ++ chars ":" ++ json_string owner
   ++ chars "," ++ json_string "usage" ++ chars ":" ++ json_string "invitation"
   ++ chars "}")%list.

(** [crypto.subtle.sign("HMAC", key, data)] with the key imported from
    [env.SECRET]. *)
Definition sign (env : Env) (data : list ascii) : list Byte.byte :=
  HMAC (encode (chars (SECRET env))) (encode data).

(** [crypto.subtle.verify("HMAC", key, signature, data)]. *)
Definition verify (env : Env) (signature : list Byte.byte) (data : list ascii) : bool :=
  bytes_eqb (HMAC (encode (chars (SECRET env))) (encode data)) signature.

(** The signature written in hexadecimal, two digits a byte. *)
Definition hex (signature : list Byte.byte) : string :=
  text (flat_map (fun x => padStart2 (toString16 x)) signature).

(** The signature an invitation carries. *)
Definition invitation_signature (env : Env) (owner contact : string) : string :=
  hex (sign env (invitation_data contact owner)).

(** The invitation [sendInvitationEmail] builds. *)
Definition invitation (bot owner contact : string) (env : Env) : EmailMessage :=
  let msg :=
    setSubject ("Inactive Email Manager Invitation from " ++ owner)
      (setRecipient contact
        (setSender "Inactive Email Manager" bot createMimeMessage)) in
  let signature := sign env (invitation_data contact owner) in
  let invitation :=
    replace "{{link}}"
      ("mailto:" ++ bot ++ "?subject=Data%20Access%20Request&body=iem-"
         ++ hex signature)
      (replaceAll "{{owner}}" owner
        (replaceAll "{{contact}}" contact INVITATION_TEMPLATE)) in
  {| from := bot; to := contact; raw := asRaw (addMessage invitation msg) |}.

Definition sendInvitationEmail (bot owner contact : string) (env : Env) : M unit :=
  send SEB (invitation bot owner contact env).

(** [decodeHex]: a byte for every two characters, a last single character
    counting as one byte. *)
Fixpoint decodeHex_go (l : list ascii) : list Byte.byte :=
  match l with
  | [] => []
  | [a] => [to_uint8 (parseInt16 [a])]
  | a :: b :: l' => to_uint8 (parseInt16 [a; b]) :: decodeHex_go l'
  end.

Definition decodeHex (str : string) : list Byte.byte :=
  decodeHex_go (chars str).

(** *** Invitations asked by the owner *)

(** [/(invite|invitation)/i] matches somewhere in the subject. *)
Definition invite_subject (s : string) : bool :=
  let l := List.map lower (chars s) in
  match find (chars "invite") l, find (chars "invitation") l with
  | None, None => false
  | _, _ => true
  end.

(** [/[\w.-]+@[\w.-]+/g]: the successive matches, left to right. *)
Definition is_addr (c : ascii) : bool :=
  is_word c || Ascii.eqb c "." || Ascii.eqb c "-".

Fixpoint matchAll_addr (skip : nat) (l : list ascii) : list string :=
  match l with
  | [] => []
  | c :: l' =>
      match skip with
      | S k => matchAll_addr k l'
      | O =>
          let (loc, r) := span is_addr l in
          match loc, r with
          | _ :: _, a :: r' =>
              if Ascii.eqb a "@" then
                match fst (span is_addr r') with
                | [] => matchAll_addr 0 l'
                | dom =>
                    text (loc ++ a :: dom)%list
                    :: matchAll_addr (List.length loc + List.length dom) l'
                end
              else matchAll_addr 0 l'
          | _, _ => matchAll_addr 0 l'
          end
      end
  end.

(** [Promise.allSettled]: every computation runs, and each outcome is kept.
    The [index * 1000] ms timers start the sends in the order of the list. *)
Fixpoint allSettled (cs : list (M unit)) : M (list (Result unit)) :=
  match cs with
  | [] => ret []
  | c :: cs' =>
      fun w =>
        let (r, w1) := c w in
        match allSettled cs' w1 with
        | (Ok rs, w2) => (Ok (r :: rs), w2)
        | (Throw e, w2) => (Throw e, w2)
        end
  end.

(** An error inside a template literal: [Error.prototype.toString]. *)
Definition error_toString (e : string) : string :=
  match e with
  | EmptyString => "Error"
  | _ => "Error: " ++ e
  end.

Definition newline : string := String (ascii_of_nat 10) EmptyString.

(** One line of the report for a contact and the outcome of its send. *)
Definition report_line (contact : string) (r : Result unit) : string :=
  contact ++ ": "
  ++ match r with Ok _ => "success" | Throw e => error_toString e end
  ++ newline.

(** [results.map((r, i) => ...)], then [.join("")]. *)
Definition report_lines (contacts : list string) (results : list (Result unit))
  : list string :=
  List.map (fun cr => report_line (fst cr) (snd cr)) (List.combine contacts results).

Definition report (contacts : list string) (results : list (Result unit)) : string :=
  String.concat "" (report_lines contacts results).

(** The fan-out of [handleOwnerEmail]: one invitation per contact. *)
Definition invite_all (m : Message) (env : Env) (contacts : list string)
  : M (list (Result unit)) :=
  allSettled
    (List.map (fun contact => sendInvitationEmail (msg_to m) (msg_from m) contact env)
       contacts).

Definition handleOwnerEmail (m : Message) (env : Env) : M unit :=
  if is_reply m then console_error "Cannot reply to a reply"
  else
    msg <- setHeader header_error "In-Reply-To" (message_id m) createMimeMessage ;;
    let msg :=
      setRecipient (msg_from m)
        (setSender "Inactive Email Manager" (msg_to m) msg) in
    match email_subject m with
    | Some subj =>
        if invite_subject subj then
          match email_text m with
          | None => console_error "No contact email found in the email body"
          | Some body =>
              let contacts := matchAll_addr 0 (chars body) in
              results <- invite_all m env contacts ;;
              let resultsReport := report contacts results in
              let msg :=
                addMessage
                  ("We've tried to send out the invitation emails to the contacts you provided."
                     ++ newline ++ "Email status:" ++ newline ++ resultsReport
                     ++ newline ++ "Inactive Email Manager")
                  (setSubject ("Re: " ++ subj) msg) in
              try_catch
                (try_catch
                   (send SEB {| from := msg_to m; to := msg_from m;
                                raw := asRaw msg |})
                   (fun err =>
                      if includes err "verified" then
                        reply REPLY {| from := msg_to m; to := msg_from m;
                                 raw := asRaw (addMessage
                                   "Warning: The email address is not verified. You must verify the email first."
                                   msg) |}
                      else throw err))
                (fun err => console_error err)
          end
        else ret tt
    | None => ret tt
    end.

(** *** Trigger requests from contacts *)

Definition SCEDULED_TEMPLATE : string := "
Your request has been received. However, to confirm that {{owner}}'s email is no longer
in use, we have sent a confirmation email to him. If he does not respond within
{{notBefore}} days, we will send you an email containing a secret message he left.
A new workflow has been created for this request. You can check the status with this ID:
{{workflowId}}
We understand your urgency, but please be patient.

Inactive Email Manager
".

Definition is_lower_hex (c : ascii) : bool :=
  is_digit c || between 97 102 c.

(** [/iem-([0-9a-f]{12,})/]: the first place where [iem-] is followed by at
    least twelve lower-case hexadecimal digits, and the whole run of them. *)
Fixpoint match_token (l : list ascii) : option string :=
  match l with
  | [] => None
  | _ :: l' =>
      match starts_with (chars "iem-") l with
      | Some r =>
          let run := fst (span is_lower_hex r) in
          if (12 <=? List.length run)%nat then Some (text run)
          else match_token l'
      | None => match_token l'
      end
  end.

Definition tokenMatch (m : Message) : option string :=
  match email_text m with
  | Some body => match_token (chars body)
  | None => None
  end.

(** [env.SLEEP.create({ id, params })]: the instance is created, or the
    call rejects. *)
Definition create (p : Payload) : M unit :=
  fun w =>
    match SLEEP (uuids w) (id p) (identity p) (domain p) with
    | None => (Ok tt, emit (Create (id p) (identity p) (domain p)) w)
    | Some e => (Throw e, w)
    end.

Definition handleContactEmail (m : Message) (env : Env) : M unit :=
  if is_reply m then ret tt
  else
    msg <- setHeader header_error "In-Reply-To" (message_id m) createMimeMessage ;;
    let msg :=
      setSubject ("Re: " ++ to_string (email_subject m))
        (setRecipient (msg_from m)
          (setSender "Inactive Email Manager" (msg_to m) msg)) in
    match tokenMatch m with
    | None => console_error "No token found in the email body"
    | Some token =>
        let dataToSign := invitation_data (msg_from m) (OWNER_EMAIL env) in
        let verified := verify env (decodeHex token) dataToSign in
        if negb verified then console_error "Invalid token signature"
        else
          let domain := split_second "@" (msg_to m) in
          workflowId <- fresh_uuid ;;
          create {| id := workflowId; identity := msg_from m; domain := domain |} ;;
          let content :=
            replace "{{notBefore}}"
              (number_toString
                 (or_else (parseDays (NOT_BEFORE_DAYS env)) DEFAULT_NOT_BEFORE_DAYS))
              (replace "{{workflowId}}" workflowId
                (replace "{{owner}}" (OWNER_EMAIL env) SCEDULED_TEMPLATE)) in
          try_catch
            (reply REPLY {| from := msg_to m; to := msg_from m;
                      raw := asRaw (addMessage content msg) |})
            (fun err => console_error err)
    end.

(** The [email] handler. *)
Definition email (m : Message) (env : Env) : M unit :=
  if String.eqb (msg_from m) (OWNER_EMAIL env) then handleOwnerEmail m env
  else handleContactEmail m env.

(** The workflow instances a computation has created. *)
Definition created (t : list Event) : list Event :=
  List.filter (fun e => match e with Create _ _ _ => true | _ => false end) t.

(** The recipients of the messages handed to [env.SEB.send], in order. *)
Fixpoint mailed (t : list Event) : list string :=
  match t with
  | [] => []
  | Mail m _ :: t' => to m :: mailed t'
  | _ :: t' => mailed t'
  end.

End Handlers.

End Worker.

(* ===================================================================== *)
(** ** The token worker (the "Afterlife Vault") *)
(* ===================================================================== *)

Module Vault.
Import JS Runtime.

Record Env : Type := {
  SENDER_EMAIL : option string;
  OWNER_EMAIL : string;
  NOT_BEFORE_DAYS : option string;
  EXPIRATION_DAYS : option string;
  SECRET : string;
  VAULT_CONTENT : string;
  CONTACT_WHITELIST : option string
}.

Definition NOTIFY_TEMPLATE : string := "
{{identity}}

Your Afterlife Vault instance received a token request from this email address.
This means this contact believes you are no longer able to handle this email.
If this is not the case, please immediately modify your Afterlife Vault secret
to invalidate the token. Otherwise, this token will be valid in {{notBefore}} days
and the contact will be able to access the SECRET you have stored in your instance.

Afterlife Vault
".

(** [parseDays] of the token worker. *)
Definition parseDays (daysStr : option string) : number :=
  let days := parseFloat (to_string daysStr) in
  if isNaN days then num 0
  else if gt days (num 3650) then num 0
  else days.

(** The claims of a trigger token. *)
Record Claims : Type := {
  identity : string;
  nbf : number;
  exp : number
}.

(** The JWT library ([@tsndr/cloudflare-worker-jwt]): [sign(payload,
    secret)], [verify(token, secret, { throwError: true })] read at the
    time [Date.now()] (in milliseconds), which resolves ([None]) or throws an
    error ([Some] of its message), and [decode(token).payload]. *)
Record Jwt : Type := {
  jwt_sign : Claims -> string -> string;
  jwt_verify : string -> string -> Z -> option string;
  jwt_decode : string -> Claims
}.

(** A numeric claim as the library's time checks see it: absent when it is
    0, and when it is not finite (JSON writes it as [null]). *)
Definition claim_set (x : number) : bool :=
  match x with
  | Fin _ => truthy x
  | _ => false
  end.

(** The time checks of the library at the second [t], for the claims of a
    token.  Every version of the library refuses a token whose [nbf] lies
    after [t], and a token whose [exp] lies before [t]; the versions differ
    on the second [exp] itself, which is left open here. *)
Definition not_yet (c : Claims) (t : number) : bool :=
  claim_set (nbf c) && gt (nbf c) t.

Definition past (c : Claims) (t : number) : bool :=
  claim_set (exp c) && lt (exp c) t.

Definition current (c : Claims) (t : number) : bool :=
  negb (not_yet c t) && negb (claim_set (exp c) && le (exp c) t).

(** The second of the instant [now] (milliseconds):
    [Math.floor(Date.now() / 1000)]. *)
Definition second (now : Z) : number := floor (div (num now) 1000).

(** The library verifies the token it signs for [c] under [secret] down to
    the time checks, and decodes it to the [nbf] it was given. *)
Definition honours (jwt : Jwt) (secret : string) (c : Claims) : Prop :=
  (forall now,
      (not_yet c (second now) = true ->
       jwt_verify jwt (jwt_sign jwt c secret) secret now = Some "NOT_YET_VALID")
      /\ (not_yet c (second now) = false -> past c (second now) = true ->
          jwt_verify jwt (jwt_sign jwt c secret) secret now = Some "EXPIRED")
      /\ (current c (second now) = true ->
          jwt_verify jwt (jwt_sign jwt c secret) secret now = None))
  /\ nbf (jwt_decode jwt (jwt_sign jwt c secret)) = nbf c.

(** What [createToken] returns: the signed token, or the error response. *)
Inductive Issued : Type :=
| Token (t : string)
| Response (error : string) (status : Z).

(** [`${token}`]. *)
Definition issued_toString (i : Issued) : string :=
  match i with
  | Token t => t
  | Response _ _ => "[object Response]"
  end.

(** [s.split(",")]. *)
Fixpoint split_go (sep : ascii) (cur : list ascii) (l : list ascii) : list string :=
  match l with
  | [] => [text (rev cur)]
  | c :: l' =>
      if Ascii.eqb c sep then text (rev cur) :: split_go sep [] l'
      else split_go sep (c :: cur) l'
  end.

Definition split (sep : ascii) (s : string) : list string :=
  split_go sep [] (chars s).

(** [a-zA-Z0-9._-]. *)
Definition is_token_char (c : ascii) : bool :=
  is_word c || Ascii.eqb c "." || Ascii.eqb c "-".

(** [/\[ ([a-zA-Z0-9._-]+) \]/]: the first bracketed token of the text. *)
Fixpoint match_bracket (l : list ascii) : option string :=
  match l with
  | [] => None
  | _ :: l' =>
      match starts_with (chars "[ ") l with
      | Some r =>
          let (run, rest) := span is_token_char r in
          match run, starts_with (chars " ]") rest with
          | _ :: _, Some _ => Some (text run)
          | _, _ => match_bracket l'
          end
      | None => match_bracket l'
      end
  end.

Section Handlers.

(** The mail binding [env.OWNER] and [message.reply]. *)
Variable OWNER : Binding.
Variable REPLY : Binding.

(** [Number.prototype.toString], and [new Date(ms).toUTCString()]. *)
Variable number_toString : number -> string.
Variable toUTCString : number -> string.

Variable jwt : Jwt.

(** The message of the error [setHeader] throws for a header without a
    value. *)
Variable header_error : string.

Definition notBeforeDays (env : Env) : number :=
  or_else (parseDays (NOT_BEFORE_DAYS env)) (num 3).

(** The literal [0.03] is the binary64 value nearest to 3/100. *)
Definition expirationDays (env : Env) : number :=
  max (or_else (parseDays (EXPIRATION_DAYS env)) (num 7))
      (add (notBeforeDays env) (round64 (3 # 100))).

(** A number of days in seconds: [days * 24 * 60 * 60]. *)
Definition in_seconds (days : number) : number :=
  mul (mul (mul days (num 24)) (num 60)) (num 60).

(** The claims [createToken] signs at the time [now] (milliseconds). *)
Definition claims (now : Z) (identity : string) (env : Env) : Claims :=
  {| identity := identity;
     nbf := add (second now) (in_seconds (notBeforeDays env));
     exp := add (second now) (in_seconds (expirationDays env)) |}.

(** The message [createToken] builds for the owner. *)
Definition notification (identity : string) (domain : option string) (env : Env)
  : EmailMessage :=
  let sender := or_string (SENDER_EMAIL env) ("noreply@" ++ to_string domain) in
  let ownerEmail := OWNER_EMAIL env in
  let body :=
    replace "{{notBefore}}" (number_toString (notBeforeDays env))
      (replace "{{identity}}" identity NOTIFY_TEMPLATE) in
  let mime :=
    addMessage body
      (setSubject "Afterlife Vault Token Request Notification"
        (setRecipient ownerEmail
          (setSender "Afterlife Vault" sender createMimeMessage))) in
  {| from := sender; to := ownerEmail; raw := asRaw mime |}.

Definition createToken (now : Z) (identity : string) (domain : option string)
  (env : Env) : M Issued :=
  let message := notification identity domain env in
  failed <- try_catch (send OWNER message ;; ret None)
                      (fun e => ret (Some (Response e 500))) ;;
  match failed with
  | Some response => ret response
  | None => ret (Token (jwt_sign jwt (claims now identity env) (SECRET env)))
  end.

(** [if (env.CONTACT_WHITELIST)] and the membership test. *)
Definition whitelisted (env : Env) (sender : string) : bool :=
  match CONTACT_WHITELIST env with
  | Some (String _ _ as wl) => existsb (String.eqb sender) (split "," wl)
  | _ => true
  end.

(** The text sent back for a submitted token. *)
Definition answer (now : Z) (token : string) (env : Env) : string :=
  match jwt_verify jwt token (SECRET env) now with
  | None => VAULT_CONTENT env
  | Some err =>
      if String.eqb err "NOT_YET_VALID" then
        "Token is not yet valid. It will be valid after "
          ++ toUTCString (mul (nbf (jwt_decode jwt token)) (num 1000))
      else if String.eqb err "EXPIRED" then "Token has expired."
      else "Invalid token."
  end.

(** [console.log({ sender, token })]: the logged token (or text) is kept. *)
Definition console_log (s : string) : M unit :=
  fun w => (Ok tt, emit (ConsoleLog s) w).

(** The [email] handler. *)
Definition email (now : Z) (m : Message) (env : Env) : M unit :=
  if negb (whitelisted env (msg_from m)) then ret tt
  else if is_reply m then ret tt
  else
    msg <- setHeader header_error "In-Reply-To" (message_id m) createMimeMessage ;;
    let msg :=
      setSubject "Afterlife Vault Auto-Reply"
        (setRecipient (msg_from m)
          (setSender "Afterlife Vault" (msg_to m) msg)) in
    let text := replaceAll "&nbsp;" " " (or_string (email_text m) "") in
    let tokenMatch := match_bracket (chars text) in
    console_log (match tokenMatch with Some t => t | None => text end) ;;
    msg <- match tokenMatch with
           | None =>
               token <- createToken now (msg_from m)
                          (split_second "@" (msg_to m)) env ;;
               ret (addMessage ("[ " ++ issued_toString token ++ " ]") msg)
           | Some token => ret (addMessage (answer now token env) msg)
           end ;;
    reply REPLY {| from := msg_to m; to := msg_from m; raw := asRaw msg |}.

(** [fetch] with a JSON content type: a token for the identity
    [anonymous]. *)
Definition fetch_token (now : Z) (hostname : string) (env : Env) : M Issued :=
  createToken now "anonymous" (Some hostname) env.

End Handlers.

End Vault.

(* ===================================================================== *)
(** ** Reading the signed text back *)
(* ===================================================================== *)

(** Decoders for [TextEncoder] and [JSON.stringify].  The workers never run
    them; they show that the signed bytes determine the signed pair. *)
Module Decode.
Import JS.

(** Reading back UTF-8 text whose code points are below U+0100. *)
Fixpoint utf8_decode (l : list Byte.byte) : list ascii :=
  match l with
  | [] => []
  | b :: l' =>
      let n := Byte.to_N b in
      if (n <? 128)%N then ascii_of_N n :: utf8_decode l'
      else
        match l' with
        | b2 :: l'' =>
            ascii_of_N ((n - 192) * 64 + (Byte.to_N b2 - 128)) :: utf8_decode l''
        | [] => []
        end
  end.

(** The character an escape letter stands for. *)
Definition unescape (d : ascii) : ascii :=
  if Ascii.eqb d "b" then ascii_of_nat 8
  else if Ascii.eqb d "t" then ascii_of_nat 9
  else if Ascii.eqb d "n" then ascii_of_nat 10
  else if Ascii.eqb d "f" then ascii_of_nat 12
  else if Ascii.eqb d "r" then ascii_of_nat 13
  else d.

Definition push (c : ascii) (r : option (list ascii * list ascii))
  : option (list ascii * list ascii) :=
  match r with
  | Some (s, rest) => Some (c :: s, rest)
  | None => None
  end.

(** Reading the inside of a JSON string up to its closing quote: the
    characters it stands for, and what follows the quote. *)
Fixpoint json_unquote (l : list ascii) : option (list ascii * list ascii) :=
  match l with
  | [] => None
  | c :: l1 =>
      if (code c =? 34)%nat then Some ([], l1)
      else if (code c =? 92)%nat then
        match l1 with
        | d :: l2 =>
            if Ascii.eqb d "u" then
              match l2 with
              | _ :: _ :: x :: y :: l3 =>
                  push (ascii_of_N (Z.to_N (hex_val x * 16 + hex_val y)))
                       (json_unquote l3)
              | _ => None
              end
            else push (unescape d) (json_unquote l2)
        | [] => None
        end
      else push c (json_unquote l1)
  end.

(** Reading [{"contact":...,"owner":...,"usage":"invitation"}] back. *)
Definition read_invitation (l : list ascii) : option (string * string) :=
  match starts_with (chars "{" ++ json_string "contact" ++ chars ":" ++ [dquote])%list l with
  | Some l1 =>
      match json_unquote l1 with
      | Some (contact, l2) =>
          match starts_with (chars "," ++ json_string "owner" ++ chars ":" ++ [dquote])%list l2 with
          | Some l3 =>
              match json_unquote l3 with
              | Some (owner, _) => Some (text contact, text owner)
              | None => None
              end
          | None => None
          end
      | None => None
      end
  | None => None
  end.

End Decode.

(* ===================================================================== *)
(** ** The token worker: the [fetch] handler *)
(* ===================================================================== *)

Module Http.
Import JS Runtime.

(** What [fetch] reads from the request: the [Content-Type] header ([null]
    when it is not set) and the host name of the URL. *)
Record Request : Type := {
  content_type : option string;
  hostname : string
}.

(** The body of the response: the page [INDEX_HTML], or the JSON object
    [{ token }] around what [createToken] returned. *)
Inductive Page : Type :=
| IndexHtml
| TokenJson (token : Vault.Issued).

Record HttpResponse : Type := {
  status : Z;
  page : Page
}.

(** [request.headers.get("Content-Type") === "application/json"]. *)
Definition is_json (request : Request) : bool :=
  match content_type request with
  | Some s => String.eqb s "application/json"
  | None => false
  end.

Section Handler.

Variable OWNER : Binding.
Variable number_toString : number -> string.
Variable jwt : Vault.Jwt.

(** The [fetch] handler. *)
Definition fetch (now : Z) (request : Request) (env : Vault.Env) : M HttpResponse :=
  if negb (is_json request) then ret {| status := 200; page := IndexHtml |}
  else
    token <- Vault.fetch_token OWNER number_toString jwt now (hostname request) env ;;
    ret {| status := 200; page := TokenJson token |}.

End Handler.

End Http.

(* ===================================================================== *)
(** ** What the handlers leave behind *)
(* ===================================================================== *)

(** The messages the handlers build and the events they leave in the
    trace, named so that the statements about whole runs can be read. *)
Module Observe.
Import JS Runtime.

(** A message handed to a mail binding, and one the binding accepted. *)
Definition is_mail (e : Event) : bool :=
  match e with Mail _ _ => true | _ => false end.

Definition accepted (e : Event) : bool :=
  match e with Mail _ None => true | _ => false end.

(** The event belongs to the step [name], whose body sends [m]. *)
Definition step_of (name : string) (m : EmailMessage) (e : Event) : Prop :=
  match e with
  | Attempt s _ => s = name
  | Mail m' _ => m' = m
  | _ => False
  end.

(** A non-empty run of the characters [[\w.-]]. *)
Definition is_addr_text (l : list ascii) : Prop :=
  l <> [] /\ Forall (fun c => Worker.is_addr c = true) l.

(** [c] stands in the text [l] and is made of a local part, [@] and a
    domain. *)
Definition address_in (l : list ascii) (c : string) : Prop :=
  exists pre post loc dom,
    l = (pre ++ chars c ++ post)%list
    /\ chars c = (loc ++ "@"%char :: dom)%list
    /\ is_addr_text loc /\ is_addr_text dom.

(** The answer [handleContactEmail] builds once the workflow [workflowId]
    is created, for a message whose [Message-ID] is [mid]. *)
Definition scheduled_answer (number_toString : number -> string) (m : Message)
  (mid : string) (env : Worker.Env) (workflowId : string) : EmailMessage :=
  {| from := msg_to m; to := msg_from m;
     raw :=
       asRaw
         (addMessage
            (replace "{{notBefore}}"
               (number_toString
                  (or_else (Worker.parseDays (Worker.NOT_BEFORE_DAYS env))
                           Worker.DEFAULT_NOT_BEFORE_DAYS))
               (replace "{{workflowId}}" workflowId
                  (replace "{{owner}}" (Worker.OWNER_EMAIL env)
                     Worker.SCEDULED_TEMPLATE)))
            (setSubject ("Re: " ++ to_string (email_subject m))
               (setRecipient (msg_from m)
                  (setSender "Inactive Email Manager" (msg_to m)
                     (with_header "In-Reply-To" mid createMimeMessage))))) |}.

(** The events of a contact's request that is refused. *)
Definition refusal (m : Message) : list Event :=
  if is_reply m then []
  else
    match Worker.tokenMatch m with
    | None => [ConsoleError "No token found in the email body"]
    | Some _ => [ConsoleError "Invalid token signature"]
    end.

(** The status report [handleOwnerEmail] sends to the owner, for a message
    whose [Message-ID] is [mid]. *)
Definition status_report (m : Message) (mid subj : string) (contacts : list string)
  (results : list (Result unit)) : EmailMessage :=
  {| from := msg_to m; to := msg_from m;
     raw :=
       asRaw
         (addMessage
            ("We've tried to send out the invitation emails to the contacts you provided."
               ++ Worker.newline ++ "Email status:" ++ Worker.newline
               ++ Worker.report contacts results
               ++ Worker.newline ++ "Inactive Email Manager")
            (setSubject ("Re: " ++ subj)
               (setRecipient (msg_from m)
                  (setSender "Inactive Email Manager" (msg_to m)
                     (with_header "In-Reply-To" mid createMimeMessage))))) |}.

(** The events of a message of the owner that asks for no invitation. *)
Definition ignored (m : Message) : list Event :=
  if is_reply m then [ConsoleError "Cannot reply to a reply"]
  else
    match email_subject m with
    | Some subj =>
        if Worker.invite_subject subj
        then [ConsoleError "No contact email found in the email body"]
        else []
    | None => []
    end.

(** What follows the status report, by the answer of the mail binding to
    it: nothing when it is accepted, the message [again] sent with
    [message.reply] when the error mentions [verified], an error line
    otherwise. *)
Definition follow_up (REPLY : Binding) (w : World) (again : EmailMessage)
  (r : option string) : list Event :=
  match r with
  | None => []
  | Some e =>
      if includes e "verified" then
        Reply again (REPLY (replies w) again)
        :: match REPLY (replies w) again with
           | None => []
           | Some e2 => [ConsoleError e2]
           end
      else [ConsoleError e]
  end.

(** The answer the [email] handler of the token worker builds around a
    text, for a message whose [Message-ID] is [mid]. *)
Definition vault_reply (m : Message) (mid text : string) : EmailMessage :=
  {| from := msg_to m; to := msg_from m;
     raw :=
       asRaw
         (addMessage text
            (setSubject "Afterlife Vault Auto-Reply"
               (setRecipient (msg_from m)
                  (setSender "Afterlife Vault" (msg_to m)
                     (with_header "In-Reply-To" mid createMimeMessage))))) |}.

(** The text that handler searches for a token. *)
Definition searched (m : Message) : string :=
  replaceAll "&nbsp;" " " (or_string (email_text m) "").

End Observe.

(* ===================================================================== *)
(** ** Sample data *)
(* ===================================================================== *)

(** Concrete environments, messages and bindings on which the statements
    below are exercised. *)
Module Sample.
Import JS Runtime.

Definition env : Worker.Env :=
  {| Worker.SENDER_EMAIL := None;
     Worker.OWNER_EMAIL := "owner@x.com";
     Worker.NOT_BEFORE_DAYS := Some "7";
     Worker.VAULT_CONTENT := "the vault";
     Worker.SECRET := "shared secret" |}.

Definition payload : Worker.Payload :=
  {| Worker.id := "wf-1"; Worker.identity := "b@y.com";
     Worker.domain := Some "y.com" |}.

(** A binding that rejects every message, one that accepts every message,
    and one that accepts its first message only. *)
Definition down : Binding := fun _ _ => Some "Service Unavailable".
Definition up : Binding := fun _ _ => None.
Definition first_only : Binding :=
  fun k _ => if (k =? 0)%nat then None else Some "Service Unavailable".

(** A binding that rejects its second message only. *)
Definition second_fails : Binding :=
  fun k _ => if (k =? 1)%nat then Some "Address not verified" else None.

(** A stand-in for HMAC-SHA-256: 32 bytes computed from the key and the
    message. *)
Definition digest (l : list Byte.byte) : N :=
  fold_left (fun acc b => (acc * 257 + Byte.to_N b + 1) mod 2 ^ 256)%N l 0%N.

Definition mac (key data : list Byte.byte) : list Byte.byte :=
  List.map (fun i => to_uint8 (Some (Z.of_N (digest (key ++ data)%list / 256 ^ N.of_nat i))))
           (List.seq 0 32).

(** A workflow binding that creates every instance, and a stand-in for the
    message of the error of [setHeader]. *)
Definition spawn : Spawner := fun _ _ _ _ => None.

Definition header_error : string := "Custom header must have a value.".

Definition uuid (k : nat) : string :=
  match k with
  | O => "3f2b8c1e-0000-4000-8000-000000000000"
  | _ => "3f2b8c1e-0000-4000-8000-000000000001"
  end.

(** The request of the contact [a@b.c], carrying the signature of its
    invitation by [owner@x.com]. *)
Definition request : Message :=
  {| msg_from := "a@b.c"; msg_to := "bot@x.com"; message_id := Some "<1@b.c>";
     inReplyTo := None; email_subject := Some "Data Access Request";
     email_text :=
       Some ("iem-" ++ Worker.invitation_signature mac env "owner@x.com" "a@b.c") |}.

(** The same request carrying the signature issued to another contact. *)
Definition borrowed_request : Message :=
  {| msg_from := "a@b.c"; msg_to := "bot@x.com"; message_id := Some "<2@b.c>";
     inReplyTo := None; email_subject := Some "Data Access Request";
     email_text :=
       Some ("iem-" ++ Worker.invitation_signature mac env "owner@x.com" "z@b.c") |}.

(** Configurations of the token worker: the documented defaults, a
    negative waiting period, and waiting and expiration periods of minus
    infinity. *)
Definition vault (notBefore expiration : option string) : Vault.Env :=
  {| Vault.SENDER_EMAIL := None;
     Vault.OWNER_EMAIL := "owner@x.com";
     Vault.NOT_BEFORE_DAYS := notBefore;
     Vault.EXPIRATION_DAYS := expiration;
     Vault.SECRET := "shared secret";
     Vault.VAULT_CONTENT := "the vault";
     Vault.CONTACT_WHITELIST := None |}.

Definition vault_default : Vault.Env := vault None None.
Definition vault_negative : Vault.Env := vault (Some "-1") None.
Definition vault_minus_infinity : Vault.Env :=
  vault (Some "-Infinity") (Some "-Infinity").

(** An issuance time: 2023-11-14T22:13:20Z, in milliseconds. *)
Definition now : Z := 1700000000000.

(** The time checks of one version of the library: a token is expired from
    the second after [exp] on. *)
Definition time_checks (c : Vault.Claims) (now : Z) : option string :=
  if Vault.not_yet c (Vault.second now) then Some "NOT_YET_VALID"
  else if Vault.past c (Vault.second now) then Some "EXPIRED"
  else None.

(** A JWT library that has issued one token, for the claims [c]: it verifies
    that token by the time checks on [c], and refuses any other text. *)
Definition jwt_of (c : Vault.Claims) : Vault.Jwt :=
  {| Vault.jwt_sign := fun _ _ => "eyJhbGciOiJIUzI1NiJ9.e30.c2ln";
     Vault.jwt_verify := fun token _ t =>
       if String.eqb token "eyJhbGciOiJIUzI1NiJ9.e30.c2ln" then time_checks c t
       else Some "INVALID_SIGNATURE";
     Vault.jwt_decode := fun _ => c |}.

(** The claims signed at [now] under the default configuration and under
    the configuration with a negative waiting period. *)
Definition default_claims : Vault.Claims := Vault.claims now "a@x.com" vault_default.
Definition negative_claims : Vault.Claims := Vault.claims now "a@x.com" vault_negative.

(** A message that submits a token the library did not issue. *)
Definition stale_submission : Message :=
  {| msg_from := "a@b.c"; msg_to := "vault@x.com"; message_id := Some "<4@b.c>";
     inReplyTo := None; email_subject := Some "Re: Afterlife Vault Auto-Reply";
     email_text := Some "Here it is: [ abc.def.ghi ]" |}.

(** A stand-in for [new Date(ms).toUTCString()]. *)
Definition utc (ms : number) : string := "Fri, 17 Nov 2023 22:13:20 GMT".

(** A stand-in for [Number.prototype.toString]: integers in decimal, other
    finite numbers as a fraction. *)
Definition show_Z (z : Z) : string := NilZero.string_of_int (Z.to_int z).

Definition show (x : number) : string :=
  match x with
  | NaN => "NaN"
  | PosInf => "Infinity"
  | NegInf => "-Infinity"
  | Fin q =>
      if (Qden (Qred q) =? 1)%positive then show_Z (Qnum (Qred q))
      else show_Z (Qnum (Qred q)) ++ "/" ++ show_Z (Zpos (Qden (Qred q)))
  end.

End Sample.

(** Further messages and configurations. *)
Module Cases.
Import JS Runtime.

(** A request whose token is too short to be a signature. *)
Definition short_request : Message :=
  {| msg_from := "a@b.c"; msg_to := "bot@x.com"; message_id := Some "<5@b.c>";
     inReplyTo := None; email_subject := Some "Data Access Request";
     email_text := Some "iem-0123456789ab" |}.

(** A request that holds no token. *)
Definition plain_request : Message :=
  {| msg_from := "a@b.c"; msg_to := "bot@x.com"; message_id := Some "<11@b.c>";
     inReplyTo := None; email_subject := Some "Data Access Request";
     email_text := Some "I need access" |}.

(** Two messages of the owner: one that asks for nothing, one that invites
    two contacts. *)
Definition greeting : Message :=
  {| msg_from := "owner@x.com"; msg_to := "bot@x.com"; message_id := Some "<6@x.com>";
     inReplyTo := None; email_subject := Some "Hello";
     email_text := Some "How are you?" |}.

Definition invite : Message :=
  {| msg_from := "owner@x.com"; msg_to := "bot@x.com"; message_id := Some "<7@x.com>";
     inReplyTo := None; email_subject := Some "Invite";
     email_text := Some "c1@y.com c2@y.com" |}.

(** A token worker that listens to two contacts only, and a message of
    somebody else. *)
Definition vault_listed : Vault.Env :=
  {| Vault.SENDER_EMAIL := None;
     Vault.OWNER_EMAIL := "owner@x.com";
     Vault.NOT_BEFORE_DAYS := None;
     Vault.EXPIRATION_DAYS := None;
     Vault.SECRET := "shared secret";
     Vault.VAULT_CONTENT := "the vault";
     Vault.CONTACT_WHITELIST := Some "a@b.c,d@e.f" |}.

Definition stranger : Message :=
  {| msg_from := "m@n.o"; msg_to := "vault@x.com"; message_id := Some "<8@n.o>";
     inReplyTo := None; email_subject := Some "Hello";
     email_text := Some "I need access" |}.

(** A message that asks for a token, and one that submits the token the
    sample library issues. *)
Definition token_request : Message :=
  {| msg_from := "a@b.c"; msg_to := "vault@x.com"; message_id := Some "<9@b.c>";
     inReplyTo := None; email_subject := Some "Hello";
     email_text := Some "I need access" |}.

Definition submission : Message :=
  {| msg_from := "a@b.c"; msg_to := "vault@x.com"; message_id := Some "<10@b.c>";
     inReplyTo := None; email_subject := Some "Re: Afterlife Vault Auto-Reply";
     email_text := Some "[ eyJhbGciOiJIUzI1NiJ9.e30.c2ln ]" |}.

(** The countdown worker with a given NOT_BEFORE_DAYS. *)
Definition waiting (days : string) : Worker.Env :=
  {| Worker.SENDER_EMAIL := None;
     Worker.OWNER_EMAIL := "owner@x.com";
     Worker.NOT_BEFORE_DAYS := Some days;
     Worker.VAULT_CONTENT := "the vault";
     Worker.SECRET := "shared secret" |}.

(** Four days after [Sample.now]. *)
Definition later : Z := Sample.now + 4 * 86400000.

(** A message that has no [Message-ID] header, written to the countdown
    worker and to the token worker. *)
Definition headerless : Message :=
  {| msg_from := "a@b.c"; msg_to := "bot@x.com"; message_id := None;
     inReplyTo := None; email_subject := Some "Data Access Request";
     email_text := Some "Hello" |}.

End Cases.

(* ===================================================================== *)
(** ** Properties of the binary64 rounding *)
(* ===================================================================== *)

Local Open Scope nat_scope.

Section FloatFacts.
Import JS.
Local Open Scope Q_scope.

(** *** Powers of two and the binary exponent *)

Lemma pow2_pos (e : Z) : 0 < pow2 e.
Proof. apply Qpower_0_lt. reflexivity. Qed.

Lemma pow2_add (a b : Z) : pow2 (a + b) == pow2 a * pow2 b.
Proof. apply Qpower_plus. discriminate. Qed.

Lemma pow2_le (a b : Z) : (a <= b)%Z -> pow2 a <= pow2 b.
Proof. intros H. apply Qpower_le_compat_l; [exact H|discriminate]. Qed.

Lemma pow2_lt (a b : Z) : (a < b)%Z -> pow2 a < pow2 b.
Proof. intros H. apply Qpower_lt_compat_l; [exact H|reflexivity]. Qed.

Lemma pow2_lt_inv (a b : Z) : pow2 a < pow2 b -> (a < b)%Z.
Proof. intros H. apply Qpower_lt_compat_l_inv with (q := 2); [exact H|reflexivity]. Qed.

Lemma pow2_Z (e : Z) : (0 <= e)%Z -> pow2 e == inject_Z (2 ^ e).
Proof. intros H. unfold pow2. now rewrite Zpower_Qpower. Qed.

Lemma pow2_succ (e : Z) : pow2 (e + 1) == 2 * pow2 e.
Proof. rewrite pow2_add. change (pow2 1) with 2. ring. Qed.

Lemma pow2_pred (e : Z) : pow2 e == 2 * pow2 (e - 1).
Proof. rewrite <- pow2_succ. now replace (e - 1 + 1)%Z with e by lia. Qed.

Lemma ilog2_spec (q : Q) : 0 < q -> pow2 (ilog2 q) <= q /\ q < pow2 (ilog2 q + 1).
Proof.
  intros Hq. destruct q as [n d]. unfold ilog2. cbn [Qnum Qden].
  assert (Hn : (0 < n)%Z) by (unfold Qlt in Hq; simpl in Hq; lia).
  set (a := Z.log2 n). set (b := Z.log2 (Zpos d)).
  assert (Ha : (0 <= a)%Z) by apply Z.log2_nonneg.
  assert (Hb : (0 <= b)%Z) by apply Z.log2_nonneg.
  destruct (Z.log2_spec n Hn) as [A1 A2]. fold a in A1, A2.
  destruct (Z.log2_spec (Zpos d) eq_refl) as [B1 B2]. fold b in B1, B2.
  assert (E : n # d == inject_Z n / inject_Z (Zpos d)) by apply Qmake_Qdiv.
  assert (Dpos : 0 < inject_Z (Zpos d)) by reflexivity.
  assert (Lo : pow2 (a - b - 1) <= n # d).
  { rewrite E. apply Qle_shift_div_l; [exact Dpos|].
    apply Qle_trans with (pow2 (a - b - 1) * pow2 (b + 1)).
    - apply Qmult_le_l; [apply pow2_pos|].
      rewrite pow2_Z by lia. rewrite <- Zle_Qle.
      replace (b + 1)%Z with (Z.succ b) by lia. lia.
    - rewrite <- pow2_add. replace (a - b - 1 + (b + 1))%Z with a by lia.
      rewrite pow2_Z by lia. now rewrite <- Zle_Qle. }
  assert (Hi : n # d < pow2 (a - b + 1)).
  { rewrite E. apply Qlt_shift_div_r; [exact Dpos|].
    apply Qlt_le_trans with (pow2 (a - b + 1) * pow2 b).
    - rewrite <- pow2_add. replace (a - b + 1 + b)%Z with (Z.succ a) by lia.
      rewrite pow2_Z by lia. now rewrite <- Zlt_Qlt.
    - apply Qmult_le_l; [apply pow2_pos|].
      rewrite pow2_Z by lia. now rewrite <- Zle_Qle. }
  destruct (Qle_bool (pow2 (a - b)) (n # d)) eqn:C.
  - apply Qle_bool_iff in C. split; assumption.
  - split; [exact Lo|].
    replace (a - b - 1 + 1)%Z with (a - b)%Z by lia.
    apply Qnot_le_lt. intros H. apply Qle_bool_iff in H. congruence.
Qed.

Lemma ilog2_unique (e : Z) (q : Q) :
  pow2 e <= q -> q < pow2 (e + 1) -> ilog2 q = e.
Proof.
  intros H1 H2.
  assert (Hq : 0 < q) by (eapply Qlt_le_trans; [apply pow2_pos|exact H1]).
  destruct (ilog2_spec q Hq) as [S1 S2].
  assert (ilog2 q < e + 1)%Z
    by (apply pow2_lt_inv; eapply Qle_lt_trans; eassumption).
  assert (e < ilog2 q + 1)%Z
    by (apply pow2_lt_inv; eapply Qle_lt_trans; eassumption).
  lia.
Qed.

Lemma ilog2_mono (a b : Q) : 0 < a -> a <= b -> (ilog2 a <= ilog2 b)%Z.
Proof.
  intros Ha Hab.
  assert (Hb : 0 < b) by (eapply Qlt_le_trans; eassumption).
  destruct (ilog2_spec a Ha) as [A1 _]. destruct (ilog2_spec b Hb) as [_ B2].
  assert (ilog2 a < ilog2 b + 1)%Z; [|lia].
  apply pow2_lt_inv. eapply Qle_lt_trans; [exact A1|].
  eapply Qle_lt_trans; eassumption.
Qed.

Lemma ilog2_comp (a b : Q) : 0 < a -> a == b -> ilog2 a = ilog2 b.
Proof.
  intros Ha E. destruct (ilog2_spec a Ha) as [A1 A2].
  symmetry. apply ilog2_unique; rewrite <- E; assumption.
Qed.

(** *** Rounding to the nearest integer *)

Lemma rne_bounds (x : Q) : (Qfloor x <= rne x <= Qfloor x + 1)%Z.
Proof.
  unfold rne. destruct (Qcompare (x - inject_Z (Qfloor x)) (1 # 2)); [|lia|lia].
  destruct (Z.even (Qfloor x)); lia.
Qed.

Lemma rne_comp (x y : Q) : x == y -> rne x = rne y.
Proof.
  intros E. unfold rne. rewrite (Qfloor_comp x y E).
  replace (Qcompare (y - inject_Z (Qfloor y)) (1 # 2)) with (Qcompare (x - inject_Z (Qfloor y)) (1 # 2));
    [reflexivity|].
  apply Qcompare_comp; [now rewrite E|reflexivity].
Qed.

Lemma rne_Z (z : Z) : rne (inject_Z z) = z.
Proof.
  unfold rne. rewrite Qfloor_Z.
  assert (E : Qcompare (inject_Z z - inject_Z z) (1 # 2) = Lt).
  { apply (proj1 (Qlt_alt _ _)). lra. }
  now rewrite E.
Qed.

Lemma rne_mono (x y : Q) : x <= y -> (rne x <= rne y)%Z.
Proof.
  intros H. pose proof (Qfloor_resp_le x y H) as F.
  pose proof (rne_bounds x) as Bx. pose proof (rne_bounds y) as By.
  destruct (Z.eq_dec (Qfloor x) (Qfloor y)) as [E|N]; [|lia].
  unfold rne. rewrite <- E.
  destruct (Qcompare (x - inject_Z (Qfloor x)) (1 # 2)) eqn:Cx;
    destruct (Qcompare (y - inject_Z (Qfloor x)) (1 # 2)) eqn:Cy;
    try (destruct (Z.even (Qfloor x))); try lia;
    exfalso;
    first [apply Qeq_alt in Cx | apply Qlt_alt in Cx | apply Qgt_alt in Cx];
    first [apply Qeq_alt in Cy | apply Qlt_alt in Cy | apply Qgt_alt in Cy];
    lra.
Qed.

Lemma rne_near (x : Q) : inject_Z (rne x) - (1 # 2) <= x /\ x <= inject_Z (rne x) + (1 # 2).
Proof.
  pose proof (Qfloor_le x) as F1. pose proof (Qlt_floor x) as F2.
  rewrite inject_Z_plus in F2. change (inject_Z 1) with 1 in F2. unfold rne.
  destruct (Qcompare (x - inject_Z (Qfloor x)) (1 # 2)) eqn:C;
    first [apply Qeq_alt in C | apply Qlt_alt in C | apply Qgt_alt in C];
    try destruct (Z.even (Qfloor x));
    rewrite ?inject_Z_plus; change (inject_Z 1) with 1; split; lra.
Qed.

(** *** The nearest double *)

Lemma ulp_mono (a b : Q) : 0 < a -> a <= b -> (ulp a <= ulp b)%Z.
Proof. intros Ha Hab. unfold ulp. pose proof (ilog2_mono a b Ha Hab). lia. Qed.

Lemma nearest_ge_grid (q : Q) (k : Z) :
  inject_Z k * pow2 (ulp q) <= q -> inject_Z k * pow2 (ulp q) <= nearest q.
Proof.
  intros H. unfold nearest. apply Qmult_le_compat_r; [|apply Qlt_le_weak, pow2_pos].
  rewrite <- Zle_Qle. rewrite <- (rne_Z k) at 1. apply rne_mono.
  apply Qle_shift_div_l; [apply pow2_pos|exact H].
Qed.

Lemma nearest_le_grid (q : Q) (k : Z) :
  q <= inject_Z k * pow2 (ulp q) -> nearest q <= inject_Z k * pow2 (ulp q).
Proof.
  intros H. unfold nearest. apply Qmult_le_compat_r; [|apply Qlt_le_weak, pow2_pos].
  rewrite <- Zle_Qle. rewrite <- (rne_Z k) at 1. apply rne_mono.
  apply Qle_shift_div_r; [apply pow2_pos|exact H].
Qed.

Lemma nearest_ge_pow2 (q : Q) (e : Z) :
  (ulp q <= e)%Z -> pow2 e <= q -> pow2 e <= nearest q.
Proof.
  intros Hu H.
  assert (E : pow2 e == inject_Z (2 ^ (e - ulp q)) * pow2 (ulp q)).
  { rewrite <- pow2_Z by lia. rewrite <- pow2_add.
    now replace (e - ulp q + ulp q)%Z with e by lia. }
  rewrite E. apply nearest_ge_grid. now rewrite <- E.
Qed.

Lemma nearest_le_pow2 (q : Q) (e : Z) :
  (ulp q <= e)%Z -> q <= pow2 e -> nearest q <= pow2 e.
Proof.
  intros Hu H.
  assert (E : pow2 e == inject_Z (2 ^ (e - ulp q)) * pow2 (ulp q)).
  { rewrite <- pow2_Z by lia. rewrite <- pow2_add.
    now replace (e - ulp q + ulp q)%Z with e by lia. }
  rewrite E. apply nearest_le_grid. now rewrite <- E.
Qed.

Lemma nearest_nonneg (q : Q) : 0 < q -> 0 <= nearest q.
Proof.
  intros Hq. rewrite <- (Qmult_0_l (pow2 (ulp q))).
  change 0 with (inject_Z 0). apply nearest_ge_grid.
  change (inject_Z 0) with 0. rewrite Qmult_0_l. now apply Qlt_le_weak.
Qed.

Lemma nearest_mono (a b : Q) : 0 < a -> a <= b -> nearest a <= nearest b.
Proof.
  intros Ha Hab.
  assert (Hb : 0 < b) by (eapply Qlt_le_trans; eassumption).
  pose proof (ulp_mono a b Ha Hab) as Hu.
  destruct (Z.eq_dec (ulp a) (ulp b)) as [E|N].
  - unfold nearest. rewrite E.
    apply Qmult_le_compat_r; [|apply Qlt_le_weak, pow2_pos].
    rewrite <- Zle_Qle. apply rne_mono.
    apply Qmult_le_compat_r; [exact Hab|].
    apply Qlt_le_weak, Qinv_lt_0_compat, pow2_pos.
  - destruct (ilog2_spec a Ha) as [_ A2]. destruct (ilog2_spec b Hb) as [B1 _].
    pose proof (ilog2_mono a b Ha Hab) as Hl.
    assert (Ub : ulp b = (ilog2 b - 52)%Z) by (unfold ulp in *; lia).
    assert (Lt : (ilog2 a < ilog2 b)%Z) by (unfold ulp in *; lia).
    apply Qle_trans with (pow2 (Z.max (ilog2 a + 1) (ulp a))).
    + apply nearest_le_pow2; [lia|].
      apply Qle_trans with (pow2 (ilog2 a + 1)); [now apply Qlt_le_weak|].
      apply pow2_le. lia.
    + apply Qle_trans with (pow2 (ilog2 b)).
      * apply pow2_le. unfold ulp in *. lia.
      * apply nearest_ge_pow2; [lia|exact B1].
Qed.

Lemma nearest_comp (a b : Q) : 0 < a -> a == b -> nearest a == nearest b.
Proof.
  intros Ha E. unfold nearest, ulp. rewrite (ilog2_comp a b Ha E).
  rewrite (rne_comp (a / pow2 (Z.max (ilog2 b - 52) (-1074)))
                    (b / pow2 (Z.max (ilog2 b - 52) (-1074)))); [reflexivity|].
  now rewrite E.
Qed.

Lemma nearest_exact (k u : Z) :
  (0 < k < 2 ^ 53)%Z -> (-1074 <= u)%Z ->
  nearest (inject_Z k * pow2 u) == inject_Z k * pow2 u.
Proof.
  intros Hk Hu. set (x := inject_Z k * pow2 u).
  assert (Hx : 0 < x).
  { unfold x. apply Qmult_lt_0_compat; [|apply pow2_pos].
    change 0 with (inject_Z 0). rewrite <- Zlt_Qlt. lia. }
  assert (Hi : x < pow2 (u + 53)).
  { unfold x. rewrite Z.add_comm, pow2_add.
    apply Qmult_lt_compat_r; [apply pow2_pos|].
    rewrite pow2_Z by lia. rewrite <- Zlt_Qlt. lia. }
  destruct (ilog2_spec x Hx) as [S1 _].
  assert (L : (ilog2 x < u + 53)%Z)
    by (apply pow2_lt_inv; eapply Qle_lt_trans; eassumption).
  assert (U : (ulp x <= u)%Z) by (unfold ulp; lia).
  assert (E : x == inject_Z (k * 2 ^ (u - ulp x)) * pow2 (ulp x)).
  { generalize (ulp x) U. intros v V. unfold x.
    rewrite inject_Z_mult. rewrite <- (pow2_Z (u - v)) by lia.
    rewrite <- Qmult_assoc, <- pow2_add.
    now replace (u - v + v)%Z with u by lia. }
  apply Qle_antisym.
  - rewrite E at 2. apply nearest_le_grid. rewrite <- E. apply Qle_refl.
  - rewrite E at 1. apply nearest_ge_grid. rewrite <- E. apply Qle_refl.
Qed.

Lemma round64_pos (q : Q) :
  0 < q ->
  round64 q = if Qle_bool (pow2 1024) (nearest q) then PosInf
              else Fin (Qred (nearest q)).
Proof.
  intros H. unfold round64.
  assert (E : Qcompare q 0 = Gt) by now apply (proj1 (Qgt_alt _ _)).
  now rewrite E.
Qed.

Lemma round64_neg (q : Q) :
  q < 0 ->
  round64 q = if Qle_bool (pow2 1024) (nearest (- q)) then NegInf
              else Fin (Qred (- nearest (- q))).
Proof.
  intros H. unfold round64.
  assert (E : Qcompare q 0 = Lt) by now apply (proj1 (Qlt_alt _ _)).
  now rewrite E.
Qed.

Lemma round64_zero (q : Q) : q == 0 -> round64 q = Fin 0.
Proof.
  intros H. unfold round64.
  assert (E : Qcompare q 0 = Eq) by now apply (proj1 (Qeq_alt _ _)).
  now rewrite E.
Qed.

Lemma round64_comp (a b : Q) : a == b -> round64 a = round64 b.
Proof.
  intros E. destruct (Q_dec a 0) as [[H|H]|H].
  - rewrite (round64_neg a H), (round64_neg b) by now rewrite <- E.
    assert (N : nearest (- a) == nearest (- b))
      by (apply nearest_comp; [lra|now rewrite E]).
    rewrite (Qred_complete (- nearest (- a)) (- nearest (- b))) by now rewrite N.
    destruct (Qle_bool (pow2 1024) (nearest (- a))) eqn:C;
      destruct (Qle_bool (pow2 1024) (nearest (- b))) eqn:D; try reflexivity.
    + apply Qle_bool_iff in C. rewrite N in C. apply Qle_bool_iff in C. congruence.
    + apply Qle_bool_iff in D. rewrite <- N in D. apply Qle_bool_iff in D. congruence.
  - rewrite (round64_pos a H), (round64_pos b) by now rewrite <- E.
    assert (N : nearest a == nearest b) by now apply nearest_comp.
    rewrite (Qred_complete (nearest a) (nearest b) N).
    destruct (Qle_bool (pow2 1024) (nearest a)) eqn:C;
      destruct (Qle_bool (pow2 1024) (nearest b)) eqn:D; try reflexivity.
    + apply Qle_bool_iff in C. rewrite N in C. apply Qle_bool_iff in C. congruence.
    + apply Qle_bool_iff in D. rewrite <- N in D. apply Qle_bool_iff in D. congruence.
  - rewrite (round64_zero a H), (round64_zero b); [reflexivity|now rewrite <- E].
Qed.

Lemma round64_not_NaN (q : Q) : round64 q <> NaN.
Proof.
  unfold round64. destruct (Qcompare q 0); [discriminate| |].
  - destruct (Qle_bool _ _); discriminate.
  - destruct (Qle_bool _ _); discriminate.
Qed.

(** Rounding is monotone. *)
Lemma round64_mono (a b : Q) : a <= b -> le (round64 a) (round64 b) = true.
Proof.
  intros Hab. destruct (Q_dec a 0) as [[Ha|Ha]|Ha].
  - rewrite (round64_neg a Ha).
    destruct (Qle_bool (pow2 1024) (nearest (- a))) eqn:Ca.
    { pose proof (round64_not_NaN b). now destruct (round64 b). }
    assert (Na : 0 <= nearest (- a)) by (apply nearest_nonneg; lra).
    destruct (Q_dec b 0) as [[Hb|Hb]|Hb].
    + rewrite (round64_neg b Hb).
      assert (M : nearest (- b) <= nearest (- a)) by (apply nearest_mono; lra).
      destruct (Qle_bool (pow2 1024) (nearest (- b))) eqn:Cb.
      * apply Qle_bool_iff in Cb.
        assert (pow2 1024 <= nearest (- a)) by (eapply Qle_trans; eassumption).
        apply Qle_bool_iff in H. congruence.
      * cbn [le]. apply Qle_bool_iff. rewrite !Qred_correct. lra.
    + rewrite (round64_pos b Hb).
      assert (Nb : 0 <= nearest b) by now apply nearest_nonneg.
      destruct (Qle_bool (pow2 1024) (nearest b)); [reflexivity|].
      cbn [le]. apply Qle_bool_iff. rewrite !Qred_correct. lra.
    + rewrite (round64_zero b Hb). cbn [le]. apply Qle_bool_iff.
      rewrite Qred_correct. lra.
  - assert (Hb : 0 < b) by lra.
    rewrite (round64_pos a Ha), (round64_pos b Hb).
    assert (M : nearest a <= nearest b) by now apply nearest_mono.
    destruct (Qle_bool (pow2 1024) (nearest a)) eqn:Ca.
    + apply Qle_bool_iff in Ca.
      assert (pow2 1024 <= nearest b) by (eapply Qle_trans; eassumption).
      apply Qle_bool_iff in H. now rewrite H.
    + destruct (Qle_bool (pow2 1024) (nearest b)); [reflexivity|].
      cbn [le]. apply Qle_bool_iff. now rewrite !Qred_correct.
  - rewrite (round64_zero a Ha).
    destruct (Q_dec b 0) as [[Hb|Hb]|Hb]; [lra| |].
    + rewrite (round64_pos b Hb).
      assert (Nb : 0 <= nearest b) by now apply nearest_nonneg.
      destruct (Qle_bool (pow2 1024) (nearest b)); [reflexivity|].
      cbn [le]. apply Qle_bool_iff. now rewrite Qred_correct.
    + rewrite (round64_zero b Hb). reflexivity.
Qed.

(** The multiples [k * 2^u] with [|k| < 2^53] and [-1074 <= u] below
    [2^1024] are binary64 values: rounding leaves them alone. *)
Lemma round64_grid (k u : Z) :
  (Z.abs k < 2 ^ 53)%Z -> (-1074 <= u)%Z ->
  inject_Z (Z.abs k) * pow2 u < pow2 1024 ->
  round64 (inject_Z k * pow2 u) = Fin (Qred (inject_Z k * pow2 u)).
Proof.
  intros Hk Hu B.
  destruct (Z.lt_trichotomy k 0) as [N|[Z0|P]].
  - assert (Hx : inject_Z k * pow2 u < 0).
    { rewrite <- (Qmult_0_l (pow2 u)). apply Qmult_lt_compat_r; [apply pow2_pos|].
      change 0 with (inject_Z 0). rewrite <- Zlt_Qlt. exact N. }
    rewrite (round64_neg _ Hx).
    assert (E : - (inject_Z k * pow2 u) == inject_Z (- k) * pow2 u)
      by (rewrite inject_Z_opp; ring).
    assert (X : nearest (- (inject_Z k * pow2 u)) == inject_Z (- k) * pow2 u).
    { assert (Hn : 0 < - (inject_Z k * pow2 u)) by lra.
      rewrite (nearest_comp _ _ Hn E). apply nearest_exact; lia. }
    destruct (Qle_bool (pow2 1024) _) eqn:C.
    + apply Qle_bool_iff in C. rewrite X in C.
      replace (Z.abs k) with (- k)%Z in B by lia. lra.
    + f_equal. apply Qred_complete. rewrite X, inject_Z_opp; try ring.
  - subst k. rewrite round64_zero by (change (inject_Z 0) with 0; ring).
    f_equal; try (symmetry; apply (Qred_complete _ 0); change (inject_Z 0) with 0; ring).
  - assert (Hx : 0 < inject_Z k * pow2 u).
    { apply Qmult_lt_0_compat; [|apply pow2_pos].
      change 0 with (inject_Z 0). rewrite <- Zlt_Qlt. exact P. }
    rewrite (round64_pos _ Hx).
    assert (X : nearest (inject_Z k * pow2 u) == inject_Z k * pow2 u)
      by (apply nearest_exact; lia).
    destruct (Qle_bool (pow2 1024) _) eqn:C.
    + apply Qle_bool_iff in C. rewrite X in C.
      replace (Z.abs k) with k in B by lia. lra.
    + f_equal. now apply Qred_complete.
Qed.

Lemma round64_exact (k u : Z) :
  (Z.abs k < 2 ^ 53)%Z -> (-1074 <= u <= 971)%Z ->
  round64 (inject_Z k * pow2 u) = Fin (Qred (inject_Z k * pow2 u)).
Proof.
  intros Hk Hu. apply round64_grid; [exact Hk|lia|].
  apply Qle_lt_trans with (inject_Z (2 ^ 53 - 1) * pow2 u).
  - apply Qmult_le_compat_r; [|apply Qlt_le_weak, pow2_pos].
    rewrite <- Zle_Qle. lia.
  - apply Qlt_le_trans with (pow2 53 * pow2 u).
    + apply Qmult_lt_compat_r; [apply pow2_pos|].
      rewrite pow2_Z by lia. rewrite <- Zlt_Qlt. lia.
    + rewrite <- pow2_add. apply pow2_le. lia.
Qed.

(** The integers below [2^53] in absolute value are binary64 values. *)
Lemma round64_Z (z : Z) :
  (Z.abs z < 2 ^ 53)%Z -> round64 (inject_Z z) = Fin (inject_Z z).
Proof.
  intros H.
  assert (E : inject_Z z == inject_Z z * pow2 0) by (change (pow2 0) with 1; ring).
  rewrite (round64_comp _ _ E), round64_exact by lia.
  f_equal. rewrite <- (Qred_complete _ _ E).
  unfold Qred, inject_Z. cbn [Qnum Qden].
  pose proof (Z.ggcd_gcd z 1) as G. pose proof (Z.ggcd_correct_divisors z 1) as D.
  destruct (Z.ggcd z 1) as [g [a b]]. cbn [fst snd] in *.
  rewrite Z.gcd_1_r in G. subst g. destruct D as [D1 D2].
  rewrite Z.mul_1_l in D1, D2. subst a. subst b. reflexivity.
Qed.

(** What rounding returns is a binary64 value. *)
Lemma round64_double (x : Q) : is_double (round64 x).
Proof.
  assert (P : forall y, 0 < y -> Qle_bool (pow2 1024) (nearest y) = false ->
              exists k u, (0 <= k < 2 ^ 53)%Z /\ (-1074 <= u)%Z
                          /\ nearest y == inject_Z k * pow2 u).
  { intros y Hy C. destruct (ilog2_spec y Hy) as [_ S2].
    assert (U : (-1074 <= ulp y)%Z) by (unfold ulp; lia).
    assert (K0 : (0 <= rne (y / pow2 (ulp y)))%Z).
    { rewrite <- (rne_Z 0). apply rne_mono. change (inject_Z 0) with 0.
      apply Qle_shift_div_l; [apply pow2_pos|]. lra. }
    assert (K1 : (rne (y / pow2 (ulp y)) <= 2 ^ 53)%Z).
    { rewrite <- (rne_Z (2 ^ 53)). apply rne_mono.
      apply Qle_shift_div_r; [apply pow2_pos|].
      rewrite <- pow2_Z, <- pow2_add by lia.
      apply Qle_trans with (pow2 (ilog2 y + 1)); [now apply Qlt_le_weak|].
      apply pow2_le. unfold ulp. lia. }
    destruct (Z.eq_dec (rne (y / pow2 (ulp y))) (2 ^ 53)) as [E|N].
    - exists (2 ^ 52)%Z, (ulp y + 1)%Z. split; [lia|]. split; [lia|].
      unfold nearest. rewrite E, <- !pow2_Z, <- !pow2_add by lia.
      now replace (53 + ulp y)%Z with (52 + (ulp y + 1))%Z by lia.
    - exists (rne (y / pow2 (ulp y))), (ulp y). split; [lia|]. split; [lia|].
      reflexivity. }
  assert (G : forall y, 0 < y -> Qle_bool (pow2 1024) (nearest y) = false ->
              round64 (nearest y) = Fin (Qred (nearest y))
              /\ round64 (- nearest y) = Fin (Qred (- nearest y))).
  { intros y Hy C. destruct (P y Hy C) as (k & u & Hk & Hu & E).
    assert (B : inject_Z (Z.abs k) * pow2 u < pow2 1024).
    { replace (Z.abs k) with k by lia. rewrite <- E.
      apply Qnot_le_lt. intros H. apply Qle_bool_iff in H. congruence. }
    split.
    - rewrite (round64_comp _ _ E), round64_grid by (try lia; exact B).
      f_equal. apply Qred_complete. now rewrite E.
    - assert (E' : - nearest y == inject_Z (- k) * pow2 u)
        by (rewrite E, inject_Z_opp; ring).
      rewrite (round64_comp _ _ E'), round64_grid;
        [|lia|lia|now replace (Z.abs (- k)) with (Z.abs k) by lia].
      f_equal. apply Qred_complete. now rewrite E'. }
  unfold round64 at 1. destruct (Qcompare x 0) eqn:C.
  - reflexivity.
  - apply Qlt_alt in C.
    destruct (Qle_bool (pow2 1024) (nearest (- x))) eqn:O; [exact I|].
    cbn [is_double]. destruct (G (- x) ltac:(lra) O) as [_ G2].
    rewrite (round64_comp _ (- nearest (- x))) by apply Qred_correct.
    rewrite G2. reflexivity.
  - apply Qgt_alt in C.
    destruct (Qle_bool (pow2 1024) (nearest x)) eqn:O; [exact I|].
    cbn [is_double]. destruct (G x C O) as [G1 _].
    rewrite (round64_comp _ (nearest x)) by apply Qred_correct.
    rewrite G1. reflexivity.
Qed.

End FloatFacts.

Section NumberFacts.
Import JS.
Local Open Scope Q_scope.

Lemma le_Fin (a b : Q) : le (Fin a) (Fin b) = true <-> a <= b.
Proof. apply Qle_bool_iff. Qed.

Lemma gt_Fin (a b : Q) : gt (Fin a) (Fin b) = true <-> b < a.
Proof.
  cbn [gt]. rewrite negb_true_iff. split.
  - intros H. apply Qnot_le_lt. intros L. apply Qle_bool_iff in L. congruence.
  - intros H. destruct (Qle_bool a b) eqn:E; [|reflexivity].
    apply Qle_bool_iff in E. lra.
Qed.

Lemma le_not_NaN (x y : number) : le x y = true -> isNaN x = false /\ isNaN y = false.
Proof. destruct x, y; simpl; intros H; try discriminate; split; reflexivity. Qed.

Lemma le_refl (x : number) : isNaN x = false -> le x x = true.
Proof. destruct x; simpl; try discriminate; intros _; auto. apply Qle_bool_iff, Qle_refl. Qed.

Lemma le_trans (x y z : number) : le x y = true -> le y z = true -> le x z = true.
Proof.
  destruct x, y, z; simpl; intros H1 H2; try discriminate; auto.
  apply Qle_bool_iff. apply Qle_bool_iff in H1, H2. lra.
Qed.

Lemma round64_isNaN (q : Q) : isNaN (round64 q) = false.
Proof. pose proof (round64_not_NaN q). now destruct (round64 q). Qed.

(** Rounding commutes with the change of sign. *)
Lemma round64_opp (q : Q) : round64 (- q) = negate (round64 q).
Proof.
  destruct (Q_dec q 0) as [[H|H]|H].
  - rewrite (round64_neg q H), (round64_pos (- q)) by lra.
    destruct (Qle_bool _ _); [reflexivity|]. cbn [negate]. f_equal.
    apply Qred_complete. rewrite Qred_correct. ring.
  - rewrite (round64_pos q H), (round64_neg (- q)) by lra.
    assert (N : nearest (- - q) == nearest q) by (apply nearest_comp; lra).
    destruct (Qle_bool (pow2 1024) (nearest (- - q))) eqn:C;
      destruct (Qle_bool (pow2 1024) (nearest q)) eqn:D.
    + reflexivity.
    + apply Qle_bool_iff in C. rewrite N in C. apply Qle_bool_iff in C. congruence.
    + apply Qle_bool_iff in D. rewrite <- N in D. apply Qle_bool_iff in D. congruence.
    + cbn [negate]. f_equal. apply Qred_complete. rewrite Qred_correct, N. ring.
  - rewrite (round64_zero q H), (round64_zero (- q)) by lra. reflexivity.
Qed.

Lemma negate_double (x : number) : is_double x -> is_double (negate x).
Proof.
  destruct x as [| | |q]; cbn [negate is_double]; auto.
  intros H. rewrite (round64_comp _ (- q)) by apply Qred_correct.
  rewrite round64_opp, H. reflexivity.
Qed.

Lemma add_double (x y : number) : is_double (add x y).
Proof. destruct x, y; cbn [add]; try exact I. apply round64_double. Qed.

Lemma mul_double (x y : number) : is_double (mul x y).
Proof.
  destruct x as [| | |a], y as [| | |b]; cbn [mul]; try exact I;
    try apply round64_double.
  all: destruct (Qeq_bool _ 0); try exact I; unfold sign_mul;
    destruct (is_neg _); exact I.
Qed.

(** What rounds between two binary64 values is finite and lies between
    them. *)
Lemma round64_between (lo hi y : Q) :
  round64 lo = Fin lo -> round64 hi = Fin hi -> lo <= y -> y <= hi ->
  exists r, round64 y = Fin r /\ lo <= r /\ r <= hi.
Proof.
  intros Hlo Hhi L H.
  pose proof (round64_mono lo y L) as M1. pose proof (round64_mono y hi H) as M2.
  rewrite Hlo in M1. rewrite Hhi in M2.
  destruct (round64 y) as [| | |r]; cbn [le] in M1, M2; try discriminate.
  exists r. split; [reflexivity|]. split; now apply Qle_bool_iff.
Qed.

Lemma grid_double (k g : Z) :
  (Z.abs k < 2 ^ 53)%Z -> (-1074 <= g <= 971)%Z ->
  exists q, q == inject_Z k * pow2 g /\ round64 q = Fin q.
Proof.
  intros Hk Hg. exists (Qred (inject_Z k * pow2 g)).
  split; [apply Qred_correct|].
  rewrite (round64_comp _ (inject_Z k * pow2 g)) by apply Qred_correct.
  now apply round64_exact.
Qed.

(** Rounding moves a number of magnitude at most [2^(52+g)] by at most
    [2^g]. *)
Lemma round64_near (g : Z) (y : Q) :
  (-1074 <= g <= 971)%Z ->
  - pow2 (52 + g) <= y -> y <= pow2 (52 + g) ->
  exists r, round64 y = Fin r /\ y - pow2 g <= r /\ r <= y + pow2 g.
Proof.
  intros Hg L H.
  pose proof (pow2_pos g) as Pg.
  assert (S : y / pow2 g * pow2 g == y) by (field; lra).
  assert (B1 : - inject_Z (2 ^ 52) <= y / pow2 g).
  { apply Qle_shift_div_l; [exact Pg|]. rewrite <- pow2_Z by lia.
    setoid_replace (- pow2 52 * pow2 g) with (- pow2 (52 + g))
      by (rewrite pow2_add; ring). exact L. }
  assert (B2 : y / pow2 g <= inject_Z (2 ^ 52)).
  { apply Qle_shift_div_r; [exact Pg|]. rewrite <- pow2_Z by lia.
    now rewrite <- pow2_add. }
  pose proof (Qfloor_le (y / pow2 g)) as F1.
  pose proof (Qlt_floor (y / pow2 g)) as F2.
  pose proof (Qle_ceiling (y / pow2 g)) as C1.
  pose proof (Qceiling_lt (y / pow2 g)) as C2.
  assert (F3 : (- 2 ^ 52 <= Qfloor (y / pow2 g))%Z).
  { rewrite <- (Qfloor_Z (- 2 ^ 52)). apply Qfloor_resp_le.
    now rewrite inject_Z_opp. }
  assert (F4 : (Qfloor (y / pow2 g) <= 2 ^ 52)%Z).
  { rewrite <- (Qfloor_Z (2 ^ 52)). now apply Qfloor_resp_le. }
  assert (C3 : (- 2 ^ 52 <= Qceiling (y / pow2 g))%Z).
  { rewrite <- (Qceiling_Z (- 2 ^ 52)). apply Qceiling_resp_le.
    now rewrite inject_Z_opp. }
  assert (C4 : (Qceiling (y / pow2 g) <= 2 ^ 52)%Z).
  { rewrite <- (Qceiling_Z (2 ^ 52)). now apply Qceiling_resp_le. }
  destruct (grid_double (Qfloor (y / pow2 g)) g ltac:(lia) Hg) as (lo & Elo & Rlo).
  destruct (grid_double (Qceiling (y / pow2 g)) g ltac:(lia) Hg) as (hi & Ehi & Rhi).
  rewrite inject_Z_plus in F2. change (inject_Z 1) with 1 in F2.
  unfold Z.sub in C2. rewrite inject_Z_plus in C2.
  change (inject_Z (- (1))) with (- (1)) in C2.
  assert (L1 : lo <= y).
  { rewrite Elo. apply Qle_trans with (y / pow2 g * pow2 g).
    - apply Qmult_le_compat_r; [exact F1|lra].
    - rewrite S. apply Qle_refl. }
  assert (L2 : y - pow2 g <= lo).
  { rewrite Elo. setoid_replace (y - pow2 g) with ((y / pow2 g - 1) * pow2 g)
      by (field; lra).
    apply Qmult_le_compat_r; lra. }
  assert (H1 : y <= hi).
  { rewrite Ehi. apply Qle_trans with (y / pow2 g * pow2 g).
    - rewrite S. apply Qle_refl.
    - apply Qmult_le_compat_r; [exact C1|lra]. }
  assert (H2 : hi <= y + pow2 g).
  { rewrite Ehi. setoid_replace (y + pow2 g) with ((y / pow2 g + 1) * pow2 g)
      by (field; lra).
    apply Qmult_le_compat_r; lra. }
  destruct (round64_between lo hi y Rlo Rhi L1 H1) as (r & Er & R1 & R2).
  exists r. split; [exact Er|]. split; lra.
Qed.

(** An integer below [2^53] in absolute value that a number does not
    exceed is not exceeded by its rounding either, and the other way
    round. *)
Lemma round64_ge_Z (z : Z) (y : Q) :
  (Z.abs z < 2 ^ 53)%Z -> inject_Z z <= y -> le (num z) (round64 y) = true.
Proof.
  intros Hz H. unfold num. rewrite <- (round64_Z z Hz). now apply round64_mono.
Qed.

Lemma round64_le_Z (z : Z) (y : Q) :
  (Z.abs z < 2 ^ 53)%Z -> y <= inject_Z z -> le (round64 y) (num z) = true.
Proof.
  intros Hz H. unfold num. rewrite <- (round64_Z z Hz). now apply round64_mono.
Qed.

(** *** Monotonicity of the arithmetic *)

Lemma mul_mono (x y : number) (c : Q) :
  0 < c -> le x y = true -> le (mul x (Fin c)) (mul y (Fin c)) = true.
Proof.
  intros Hc H.
  assert (Z0 : Qeq_bool c 0 = false).
  { destruct (Qeq_bool c 0) eqn:E; [|reflexivity]. apply Qeq_bool_iff in E. lra. }
  assert (N0 : is_neg c = false).
  { unfold is_neg. apply negb_false_iff, Qle_bool_iff. lra. }
  destruct x as [| | |a], y as [| | |b]; cbn [le mul] in *; try discriminate;
    rewrite ?Z0, ?N0; cbn [sign_mul negb le]; try reflexivity.
  - pose proof (round64_not_NaN (b * c)). now destruct (round64 (b * c)).
  - pose proof (round64_not_NaN (a * c)). now destruct (round64 (a * c)).
  - apply round64_mono. apply Qle_bool_iff in H.
    apply Qmult_le_compat_r; lra.
Qed.

Lemma add_mono (t : Q) (x y : number) :
  le x y = true -> le (add (Fin t) x) (add (Fin t) y) = true.
Proof.
  intros H.
  destruct x as [| | |a], y as [| | |b]; cbn [le add] in *; try discriminate;
    try reflexivity.
  - pose proof (round64_not_NaN (t + b)). now destruct (round64 (t + b)).
  - pose proof (round64_not_NaN (t + a)). now destruct (round64 (t + a)).
  - apply round64_mono. apply Qle_bool_iff in H. lra.
Qed.

Lemma add_mono_l (x y : number) (c : Q) :
  le x y = true -> le (add x (Fin c)) (add y (Fin c)) = true.
Proof.
  intros H.
  destruct x as [| | |a], y as [| | |b]; cbn [le add] in *; try discriminate;
    try reflexivity.
  - pose proof (round64_not_NaN (b + c)). now destruct (round64 (b + c)).
  - pose proof (round64_not_NaN (a + c)). now destruct (round64 (a + c)).
  - apply round64_mono. apply Qle_bool_iff in H. lra.
Qed.

Lemma le_max_l (x y : number) :
  isNaN x = false -> isNaN y = false -> le x (max x y) = true.
Proof.
  intros Hx Hy. destruct x as [| | |a], y as [| | |b]; try discriminate;
    cbn [max gt]; try reflexivity;
    try (cbn [le]; apply Qle_bool_iff, Qle_refl).
  destruct (Qle_bool b a) eqn:E; cbn [negb le].
  - apply Qle_bool_iff, Qle_refl.
  - apply Qle_bool_iff. apply Qlt_le_weak, Qnot_le_lt. intros L.
    apply Qle_bool_iff in L. congruence.
Qed.

Lemma le_max_r (x y : number) :
  isNaN x = false -> isNaN y = false -> le y (max x y) = true.
Proof.
  intros Hx Hy. destruct x as [| | |a], y as [| | |b]; try discriminate;
    cbn [max gt]; try reflexivity;
    try (cbn [le]; apply Qle_bool_iff, Qle_refl).
  destruct (Qle_bool b a) eqn:E; cbn [negb le].
  - exact E.
  - apply Qle_bool_iff, Qle_refl.
Qed.

Lemma max_le (x y z : number) :
  le x z = true -> le y z = true -> le (max x y) z = true.
Proof.
  intros Hx Hy. destruct x as [| | |a], y as [| | |b]; try discriminate;
    cbn [max gt]; auto.
  destruct (negb (Qle_bool b a)); assumption.
Qed.

End NumberFacts.

(* ===================================================================== *)
(** ** Properties of the countdown workflow *)
(* ===================================================================== *)

Local Open Scope nat_scope.

Section RetryFacts.
Import JS Runtime Worker.

Variable b : Binding.
Variable m : EmailMessage.
Variable name : string.

(** One call to the binding: its answer decides the result, and the call is
    recorded. *)
Lemma send_spec (w : World) :
  send b m w =
  (match b (sends w) m with None => Ok tt | Some e => Throw e end,
   {| sends := S (sends w); replies := replies w; uuids := uuids w;
      trace := (trace w ++ [Mail m (b (sends w) m)])%list |}).
Proof. unfold send. destruct (b (sends w) m); reflexivity. Qed.

(** A step whose body is rejected at every attempt throws the last error,
    after [n + 1] attempts. *)
Lemma attempts_exhausted (n : nat) :
  forall k w,
    (forall i, (i <= n)%nat -> b (sends w + i) m <> None) ->
    exists e w',
      attempts name (send b m) n k w = (Throw e, w')
      /\ b (sends w + n) m = Some e
      /\ sends w' = (sends w + S n)%nat
      /\ exists evs,
           trace w' = (trace w ++ evs)%list
           /\ Forall (fun ev => of_step name ev = true) evs
           /\ List.length (List.filter (attempted name) evs) = S n.
Proof.
  induction n as [|n IH]; intros k w H.
  - pose proof (H 0%nat (Nat.le_refl _)) as H0. rewrite Nat.add_0_r in H0.
    simpl. rewrite send_spec. simpl.
    destruct (b (sends w) m) as [e|] eqn:E; [|congruence].
    exists e. eexists. split; [reflexivity|]. simpl.
    rewrite Nat.add_0_r. repeat split; auto; try lia.
    exists [Attempt name k; Mail m (Some e)]. simpl.
    rewrite <- app_assoc. simpl. repeat split.
    + repeat constructor. simpl. apply String.eqb_refl.
    + rewrite String.eqb_refl. reflexivity.
  - pose proof (H 0%nat (Nat.le_0_l _)) as H0. rewrite Nat.add_0_r in H0.
    simpl. rewrite send_spec. simpl.
    destruct (b (sends w) m) as [e|] eqn:E; [|congruence].
    match goal with |- context [attempts name (send b m) n (S k) ?w1] =>
      destruct (IH (S k) w1) as (e' & w' & Hrun & Hlast & Hs & evs & Ht & Hall & Hlen)
    end.
    { intros i Hi. simpl. replace (S (sends w + i)) with (sends w + S i)%nat by lia.
      apply H. lia. }
    simpl in *. exists e', w'. split; [exact Hrun|].
    replace (sends w + S n)%nat with (S (sends w + n)) by lia.
    repeat split; auto; try lia.
    exists (Attempt name k :: Mail m (Some e) :: evs). rewrite Ht.
    rewrite <- !app_assoc. simpl. repeat split.
    + constructor; [simpl; apply String.eqb_refl|]. constructor; auto.
    + rewrite String.eqb_refl. simpl. rewrite Hlen. reflexivity.
Qed.

(** Whatever the outcome, a step leaves only its own attempts and mails. *)
Lemma attempts_events (n : nat) :
  forall k w,
    exists evs,
      trace (snd (attempts name (send b m) n k w)) = (trace w ++ evs)%list
      /\ Forall (fun ev => of_step name ev = true) evs.
Proof.
  induction n as [|n IH]; intros k w; simpl; rewrite send_spec; simpl.
  - exists [Attempt name k; Mail m (b (sends w) m)].
    destruct (b (sends w) m); simpl; rewrite <- app_assoc; simpl;
      (split; [reflexivity|]); repeat constructor; simpl; apply String.eqb_refl.
  - destruct (b (sends w) m) as [e|] eqn:E; simpl.
    + match goal with |- context [attempts name (send b m) n (S k) ?w1] =>
        destruct (IH (S k) w1) as (evs & Ht & Hall)
      end.
      exists (Attempt name k :: Mail m (Some e) :: evs). rewrite Ht. simpl.
      rewrite <- !app_assoc. simpl. split; [reflexivity|].
      constructor; [simpl; apply String.eqb_refl|]. constructor; auto.
    + exists [Attempt name k; Mail m None]. rewrite <- app_assoc. simpl.
      split; [reflexivity|]. repeat constructor. simpl. apply String.eqb_refl.
Qed.

End RetryFacts.

Section WorkflowFacts.
Import JS Runtime Worker.

Variable SEB : Binding.
Variable number_toString : number -> string.


Lemma of_notify_not_later (ev : Event) :
  of_step "notify" ev = true -> slept ev = false /\ attempted "send" ev = false.
Proof.
  destruct ev; simpl; try discriminate; auto.
  intros H. split; auto.
  destruct (String.eqb step "send") eqn:E; auto.
  apply String.eqb_eq in E. subst. discriminate.
Qed.

(** C1.  If the notification is rejected at every attempt of the step
    [notify] (the first try and its [limit] retries), the run throws, so the
    instance ends Errored (the spec's Failed); the run leaves three attempts
    of [notify] and nothing else: no sleep is scheduled and the step [send]
    is never attempted. *)
Theorem notify_exhausted_fails (env : Env) (p : Payload) (w : World) :
  (forall i, i <= limit retries -> SEB (sends w + i) (notification number_toString env p) <> None) ->
  status_of (fst (run SEB number_toString env p w)) = Errored
  /\ exists evs,
       trace (snd (run SEB number_toString env p w)) = (trace w ++ evs)%list
       /\ Forall (fun ev => slept ev = false /\ attempted "send" ev = false) evs
       /\ List.length (List.filter (attempted "notify") evs) = S (limit retries).
Proof.
  intros H.
  destruct (attempts_exhausted SEB (notification number_toString env p) "notify" (limit retries) 0 w H)
    as (e & w' & Hrun & _ & _ & evs & Ht & Hall & Hlen).
  unfold Worker.run, bind, step_do, notify. rewrite Hrun. simpl. split; [reflexivity|].
  exists evs. split; [exact Ht|]. split; [|exact Hlen].
  eapply Forall_impl; [|exact Hall]. intros ev Hev.
  now apply of_notify_not_later.
Qed.

(** C2.  For every payload: once the step [notify] has succeeded, if the
    release message is rejected at every attempt of the step [send], the run
    still returns normally (the instance ends Complete, not Errored); the
    last error is caught and written with [console.error] after the three
    attempts. *)
Theorem release_exhausted_completes (env : Env) (p : Payload) (w w1 : World) :
  step_do "notify" retries (notify SEB number_toString env p) w = (Ok tt, w1) ->
  (forall i, i <= limit retries -> SEB (sends w1 + i) (secret_message env p) <> None) ->
  exists e evs,
    status_of (fst (run SEB number_toString env p w)) = Complete
    /\ SEB (sends w1 + limit retries) (secret_message env p) = Some e
    /\ trace (snd (run SEB number_toString env p w))
       = (trace w1 ++ Sleep "sleep" (countdown env) :: evs ++ [ConsoleError e])%list
    /\ Forall (fun ev => of_step "send" ev = true) evs
    /\ List.length (List.filter (attempted "send") evs) = S (limit retries).
Proof.
  intros Hn H.
  unfold Worker.run, bind. rewrite Hn. unfold step_sleep, try_catch, step_do, release.
  match goal with |- context [attempts "send" _ _ 0 ?w2] =>
    destruct (attempts_exhausted SEB (secret_message env p) "send" (limit retries) 0 w2)
      as (e & w' & Hrun & Hlast & _ & evs & Ht & Hall & Hlen)
  end.
  { exact H. }
  rewrite Hrun. exists e, evs. simpl. repeat split; auto.
  rewrite Ht. simpl. rewrite <- !app_assoc. reflexivity.
Qed.

(** A number that is neither NaN nor above [y] is at most [y]. *)
Lemma not_gt_le (x y : number) :
  isNaN x = false -> isNaN y = false -> gt x y = false -> le x y = true.
Proof.
  destruct x as [| | |a], y as [| | |b]; simpl; try discriminate; auto.
  intros _ _ H. apply negb_false_iff in H. exact H.
Qed.

Lemma unsigned_literal_double (l : list ascii) : is_double (unsigned_literal l).
Proof.
  unfold unsigned_literal.
  destruct (starts_with (chars "Infinity") l); [exact I|].
  destruct (span is_digit l) as [ip r1].
  destruct (match r1 with
            | [] => ([], r1)
            | c :: r => if Ascii.eqb c "." then span is_digit r else ([], r1)
            end) as [fp r2].
  destruct (ip ++ fp)%list; [exact I|apply round64_double].
Qed.

(** [parseFloat] returns a binary64 value. *)
Lemma parseFloat_double (s : string) : is_double (parseFloat s).
Proof.
  unfold parseFloat. destruct (drop_while is_space (chars s)) as [|c l]; [exact I|].
  destruct (Ascii.eqb c "-"); [apply negate_double, unsigned_literal_double|].
  destruct (Ascii.eqb c "+"); apply unsigned_literal_double.
Qed.

(** What [parseDays] returns, for the bound [bound]: a binary64 value that
    is not NaN and does not exceed the bound. *)
Lemma parseDays_bounded (bound : Z) (days : number) :
  (0 <= bound)%Z -> is_double days ->
  let r := if isNaN days then num 0 else if gt days (num bound) then num 0 else days in
  is_double r /\ le r (num bound) = true.
Proof.
  intros Hb Hd. cbn zeta.
  assert (Z0 : le (num 0) (num bound) = true)
    by (apply le_Fin; rewrite <- Zle_Qle; exact Hb).
  destruct (isNaN days) eqn:N; [split; [reflexivity|exact Z0]|].
  destruct (gt days (num bound)) eqn:G; [split; [reflexivity|exact Z0]|].
  split; [exact Hd|]. now apply not_gt_le.
Qed.



Lemma or_else_double (x d : number) :
  is_double x -> is_double d -> is_double (or_else x d).
Proof. intros Hx Hd. unfold or_else. now destruct (truthy x). Qed.

Lemma or_else_le (x d y : number) :
  le x y = true -> le d y = true -> le (or_else x d) y = true.
Proof. intros Hx Hd. unfold or_else. now destruct (truthy x). Qed.

End WorkflowFacts.

(** The notification is rejected three times: the instance fails. *)
Lemma notify_exhausted_fails_witness :
  Worker.status_of
    (fst (Worker.run Sample.down Sample.show Sample.env Sample.payload Runtime.start))
  = Worker.Errored
  /\ exists evs,
       Runtime.trace
         (snd (Worker.run Sample.down Sample.show Sample.env Sample.payload
                 Runtime.start))
       = (Runtime.trace Runtime.start ++ evs)%list
       /\ Forall (fun ev => Worker.slept ev = false
                            /\ Worker.attempted "send" ev = false) evs
       /\ List.length (List.filter (Worker.attempted "notify") evs) = 3.
Proof.
  apply (notify_exhausted_fails Sample.down Sample.show Sample.env Sample.payload
           Runtime.start).
  intros i _. discriminate.
Defined.

(** The notification is accepted, the release is rejected three times: the
    instance completes. *)
Lemma release_exhausted_completes_witness :
  exists e evs,
    Worker.status_of
      (fst (Worker.run Sample.first_only Sample.show Sample.env Sample.payload
              Runtime.start))
    = Worker.Complete
    /\ e = "Service Unavailable"
    /\ List.length (List.filter (Worker.attempted "send") evs) = 3
    /\ last (Runtime.trace
               (snd (Worker.run Sample.first_only Sample.show Sample.env
                       Sample.payload Runtime.start)))
            (Runtime.ConsoleLog "")
       = Runtime.ConsoleError e.
Proof.
  destruct (release_exhausted_completes Sample.first_only Sample.show Sample.env
              Sample.payload Runtime.start
              (snd (Worker.step_do "notify" Worker.retries
                      (Worker.notify Sample.first_only Sample.show Sample.env
                         Sample.payload) Runtime.start))
              eq_refl)
    as (e & evs & Hs & He & Ht & _ & Hn).
  - intros i _. discriminate.
  - exists e, evs. split; [exact Hs|]. split; [|split; [exact Hn|]].
    + vm_compute in He. congruence.
    + rewrite Ht.
      change (Runtime.Sleep "sleep" (Worker.countdown Sample.env)
              :: evs ++ [Runtime.ConsoleError e])%list
        with ((Runtime.Sleep "sleep" (Worker.countdown Sample.env) :: evs)
              ++ [Runtime.ConsoleError e])%list.
      rewrite app_assoc. apply last_last.
Defined.

(** The spec's scenario: the notification is accepted at once, the run
    sleeps seven days, releases in one attempt and completes. *)
Example countdown_scenario :
  Worker.status_of
    (fst (Worker.run Sample.up Sample.show Sample.env Sample.payload Runtime.start))
  = Worker.Complete
  /\ Runtime.trace
       (snd (Worker.run Sample.up Sample.show Sample.env Sample.payload
               Runtime.start))
     = [Runtime.Attempt "notify" 0;
        Runtime.Mail (Worker.notification Sample.show Sample.env Sample.payload) None;
        Runtime.Sleep "sleep" (JS.num (7 * 86400000));
        Runtime.Attempt "send" 0;
        Runtime.Mail (Worker.secret_message Sample.env Sample.payload) None].
Proof. vm_compute. split; reflexivity. Qed.

(* ===================================================================== *)
(** ** Properties of the invitations *)
(* ===================================================================== *)

Section TextFacts.
Import JS.

Lemma chars_text (l : list ascii) : chars (text l) = l.
Proof. induction l; simpl; congruence. Qed.

Lemma text_chars (s : string) : text (chars s) = s.
Proof. induction s; simpl; congruence. Qed.

Lemma chars_app (a b : string) : chars (a ++ b) = (chars a ++ chars b)%list.
Proof. induction a; simpl; congruence. Qed.

Lemma span_run (p : ascii -> bool) (run rest : list ascii) :
  Forall (fun c => p c = true) run ->
  match rest with [] => True | c :: _ => p c = false end ->
  span p (run ++ rest) = (run, rest).
Proof.
  intros Hrun Hrest. induction Hrun as [|c run Hc _ IH]; simpl.
  - destruct rest as [|c rest]; simpl; auto. now rewrite Hrest.
  - now rewrite Hc, IH.
Qed.

Lemma starts_with_app (p l : list ascii) : starts_with p (p ++ l) = Some l.
Proof. induction p; simpl; auto. now rewrite Ascii.eqb_refl. Qed.

Lemma bytes_eqb_eq (a b : list Byte.byte) : bytes_eqb a b = true <-> a = b.
Proof.
  revert b. induction a as [|x a IH]; intros [|y b]; simpl; split; intros H;
    try discriminate; auto.
  - apply andb_true_iff in H. destruct H as [H1 H2].
    apply Byte.byte_dec_bl in H1. apply IH in H2. congruence.
  - injection H as -> ->. apply andb_true_iff. split.
    + apply Byte.byte_dec_lb. reflexivity.
    + now apply IH.
Qed.

End TextFacts.

Section HexFacts.
Import JS Runtime Worker.

Lemma hex_byte_decodes (b : Byte.byte) (rest : list ascii) :
  decodeHex_go (padStart2 (toString16 b) ++ rest) = b :: decodeHex_go rest.
Proof. destruct b; reflexivity. Qed.

Lemma hex_byte_lower (b : Byte.byte) :
  Forall (fun c => is_lower_hex c = true) (padStart2 (toString16 b))
  /\ List.length (padStart2 (toString16 b)) = 2.
Proof. destruct b; split; repeat constructor. Qed.

(** [decodeHex] reads back what [hex] writes. *)
Lemma decodeHex_hex (bs : list Byte.byte) : decodeHex (hex bs) = bs.
Proof.
  unfold decodeHex, hex. rewrite chars_text.
  induction bs as [|b bs IH]; simpl; auto.
  rewrite hex_byte_decodes. now rewrite IH.
Qed.

Lemma hex_lower (bs : list Byte.byte) :
  Forall (fun c => is_lower_hex c = true) (chars (hex bs))
  /\ List.length (chars (hex bs)) = 2 * List.length bs.
Proof.
  unfold hex. rewrite chars_text.
  induction bs as [|b bs [IH1 IH2]]; simpl.
  - split; constructor.
  - destruct (hex_byte_lower b) as [H1 H2]. split.
    + apply Forall_app. split; assumption.
    + rewrite length_app, H2, IH2. lia.
Qed.

(** The token of a body that starts with [iem-] and the signature. *)
Lemma match_token_signature (bs : list Byte.byte) (rest : string) :
  6 <= List.length bs ->
  match chars rest with [] => True | c :: _ => is_lower_hex c = false end ->
  match_token (chars ("iem-" ++ hex bs ++ rest)) = Some (hex bs).
Proof.
  intros Hlen Hrest.
  destruct (hex_lower bs) as [Hl Hn].
  rewrite chars_app, chars_app.
  change (chars "iem-") with ["i"; "e"; "m"; "-"]%char.
  cbn [app match_token].
  change (chars "iem-") with ["i"; "e"; "m"; "-"]%char.
  change ("i" :: "e" :: "m" :: "-" :: (chars (hex bs) ++ chars rest))%char%list
    with (["i"; "e"; "m"; "-"] ++ (chars (hex bs) ++ chars rest))%char%list.
  rewrite starts_with_app, span_run by assumption.
  cbn [fst]. rewrite Hn.
  destruct (12 <=? 2 * List.length bs) eqn:E.
  - now rewrite text_chars.
  - apply Nat.leb_gt in E. lia.
Qed.

End HexFacts.

Section EncodingFacts.
Import JS Runtime Worker Decode.

Lemma utf8_unit_decodes (c : ascii) (rest : list Byte.byte) :
  utf8_decode (utf8_unit c ++ rest) = c :: utf8_decode rest.
Proof. destruct c as [[] [] [] [] [] [] [] []]; reflexivity. Qed.

(** [utf8_decode] reads back what [encode] writes. *)
Lemma utf8_decode_encode (l : list ascii) : utf8_decode (encode l) = l.
Proof.
  unfold encode. induction l as [|c l IH]; simpl; auto.
  now rewrite utf8_unit_decodes, IH.
Qed.

Lemma json_escape_unquotes (c : ascii) (rest : list ascii) :
  json_unquote (json_escape c ++ rest) = push c (json_unquote rest).
Proof. destruct c as [[] [] [] [] [] [] [] []]; reflexivity. Qed.

(** [json_unquote] reads back what [JSON.stringify] writes for a string. *)
Lemma json_unquote_string (s : string) (rest : list ascii) :
  json_unquote (flat_map json_escape (chars s) ++ dquote :: rest) = Some (chars s, rest).
Proof.
  induction s as [|c s IH]; simpl.
  - reflexivity.
  - rewrite <- app_assoc, json_escape_unquotes, IH. reflexivity.
Qed.

Lemma invitation_data_shape (contact owner : string) :
  invitation_data contact owner
  = ((chars "{" ++ json_string "contact" ++ chars ":" ++ [dquote])
     ++ flat_map json_escape (chars contact)
     ++ dquote
        :: (chars "," ++ json_string "owner" ++ chars ":" ++ [dquote])
        ++ flat_map json_escape (chars owner)
        ++ dquote :: (chars "," ++ json_string "usage" ++ chars ":"
                      ++ json_string "invitation" ++ chars "}"))%list.
Proof.
  unfold invitation_data, json_string. cbn.
  rewrite <- !app_assoc. reflexivity.
Qed.

Lemma read_invitation_data (contact owner : string) :
  read_invitation (invitation_data contact owner) = Some (contact, owner).
Proof.
  rewrite invitation_data_shape. unfold read_invitation.
  rewrite starts_with_app, json_unquote_string.
  rewrite starts_with_app, json_unquote_string.
  now rewrite !text_chars.
Qed.

(** The signed bytes determine the pair: two pairs with the same encoding
    are the same pair. *)
Lemma invitation_data_injective (c1 o1 c2 o2 : string) :
  encode (invitation_data c1 o1) = encode (invitation_data c2 o2) ->
  c1 = c2 /\ o1 = o2.
Proof.
  intros H. apply (f_equal utf8_decode) in H. rewrite !utf8_decode_encode in H.
  apply (f_equal read_invitation) in H. rewrite !read_invitation_data in H.
  injection H as -> ->. split; reflexivity.
Qed.

End EncodingFacts.

Section FanOutFacts.
Import JS Runtime Worker.

Variable SEB : Binding.
Variable HMAC : list Byte.byte -> list Byte.byte -> list Byte.byte.

(** The fan-out, contact by contact: the [i]-th contact is mailed at the
    [i]-th call to the binding, whatever the earlier calls answered. *)
Lemma invite_all_spec (m : Message) (env : Env) (contacts : list string) :
  forall w,
    exists results evs,
      invite_all SEB HMAC m env contacts w
      = (Ok results,
         {| sends := sends w + List.length contacts; replies := replies w;
            uuids := uuids w; trace := (trace w ++ evs)%list |})
      /\ List.length results = List.length contacts
      /\ List.length evs = List.length contacts
      /\ mailed evs = contacts
      /\ created evs = []
      /\ forall i c,
           nth_error contacts i = Some c ->
           let mail := invitation HMAC (msg_to m) (msg_from m) c env in
           nth_error evs i = Some (Mail mail (SEB (sends w + i) mail))
           /\ nth_error results i = Some (settled (SEB (sends w + i) mail)).
Proof.
  unfold invite_all.
  induction contacts as [|c cs IH]; intros w.
  - exists [], []. simpl. unfold ret. rewrite Nat.add_0_r, app_nil_r.
    destruct w; simpl. split; [reflexivity|]. split; [reflexivity|].
    split; [reflexivity|]. split; [reflexivity|]. split; [reflexivity|].
    intros [|i] c0 H; discriminate.
  - simpl. unfold sendInvitationEmail at 1. rewrite send_spec.
    match goal with |- context [allSettled _ ?w1] =>
      destruct (IH w1) as (rs & evs & Hrun & Hlr & Hle & Hm & Hc & Hnth)
    end.
    rewrite Hrun. simpl.
    set (mail := invitation HMAC (msg_to m) (msg_from m) c env) in *.
    exists (settled (SEB (sends w) mail) :: rs), (Mail mail (SEB (sends w) mail) :: evs).
    split.
    { unfold settled. rewrite <- app_assoc. simpl.
      replace (S (sends w + List.length cs)) with (sends w + S (List.length cs)) by lia.
      destruct (SEB (sends w) mail); reflexivity. }
    split; [simpl; lia|]. split; [simpl; lia|].
    split; [simpl; now rewrite Hm|]. split; [exact Hc|].
    intros [|i] c' H; simpl in H.
    + injection H as <-. simpl. rewrite Nat.add_0_r. split; reflexivity.
    + simpl. replace (sends w + S i) with (S (sends w) + i) by lia.
      apply (Hnth i c' H).
Qed.

Lemma report_lines_nth (contacts : list string) :
  forall (results : list (Result unit)) i c r,
    nth_error contacts i = Some c ->
    nth_error results i = Some r ->
    nth_error (report_lines contacts results) i = Some (report_line c r).
Proof.
  unfold report_lines.
  induction contacts as [|c0 cs IH]; intros [|r0 rs] [|i] c r Hc Hr;
    simpl in *; try discriminate.
  - now injection Hc as <-; injection Hr as <-.
  - now apply IH.
Qed.

Lemma append_inj (a x y : string) : a ++ x = a ++ y -> x = y.
Proof. induction a as [|c a IH]; simpl; intros H; [exact H|]. injection H. exact IH. Qed.

(** C8.  For every list of contacts and every behaviour of the mail
    binding, the fan-out settles with one outcome per contact: the messages
    handed to the binding are the invitations of the contacts, one each and
    in order; the [i]-th outcome is the answer of the binding to the [i]-th
    invitation alone; and the report has one line per contact, which names
    the contact and holds [success] when its own send was accepted and the
    error of its own send otherwise, two texts that never coincide. *)
Theorem fan_out_waits_for_all (m : Message) (env : Env) (contacts : list string)
  (w : World) :
  exists results evs,
    fst (invite_all SEB HMAC m env contacts w) = Ok results
    /\ trace (snd (invite_all SEB HMAC m env contacts w)) = (trace w ++ evs)%list
    /\ mailed evs = contacts
    /\ List.length (report_lines contacts results) = List.length contacts
    /\ report contacts results = String.concat "" (report_lines contacts results)
    /\ (forall i c,
         nth_error contacts i = Some c ->
         nth_error evs i
         = Some (Mail (invitation HMAC (msg_to m) (msg_from m) c env)
                      (SEB (sends w + i)
                           (invitation HMAC (msg_to m) (msg_from m) c env)))
         /\ nth_error results i
            = Some (settled (SEB (sends w + i)
                                 (invitation HMAC (msg_to m) (msg_from m) c env)))
         /\ nth_error (report_lines contacts results) i
            = Some (c ++ ": "
                      ++ match SEB (sends w + i)
                                 (invitation HMAC (msg_to m) (msg_from m) c env)
                         with
                         | None => "success"
                         | Some EmptyString => "Error"
                         | Some e => "Error: " ++ e
                         end
                      ++ String (ascii_of_nat 10) EmptyString))
    /\ (forall c e,
         report_line c (Ok tt) <> report_line c (Throw e)).
Proof.
  destruct (invite_all_spec m env contacts w)
    as (results & evs & Hrun & Hlr & Hle & Hm & _ & Hnth).
  exists results, evs. rewrite Hrun. simpl.
  split; [reflexivity|]. split; [reflexivity|]. split; [exact Hm|].
  split.
  { unfold report_lines. rewrite length_map, length_combine. lia. }
  split; [reflexivity|]. split.
  - intros i c Hc. destruct (Hnth i c Hc) as [He Hr].
    split; [exact He|]. split; [exact Hr|].
    rewrite (report_lines_nth contacts results i c _ Hc Hr).
    unfold report_line, settled, error_toString, newline.
    destruct (SEB (sends w + i) _) as [[|a e]|]; reflexivity.
  - intros c e H. unfold report_line in H.
    apply append_inj in H. apply append_inj in H.
    destruct e; discriminate H.
Qed.

End FanOutFacts.

Section RequestFacts.
Import JS Runtime Worker Decode Observe.

Variable SEB : Binding.
Variable REPLY : Binding.
Variable randomUUID : nat -> string.
Variable number_toString : number -> string.
Variable HMAC : list Byte.byte -> list Byte.byte -> list Byte.byte.
Variable SLEEP : Spawner.
Variable header_error : string.

Lemma reply_spec (m : EmailMessage) (w : World) :
  reply REPLY m w =
  (settled (REPLY (replies w) m),
   {| sends := sends w; replies := S (replies w); uuids := uuids w;
      trace := (trace w ++ [Reply m (REPLY (replies w) m)])%list |}).
Proof. unfold reply, settled. destruct (REPLY (replies w) m); reflexivity. Qed.

Lemma created_app (a b : list Event) :
  created (a ++ b) = (created a ++ created b)%list.
Proof. apply filter_app. Qed.

(** What a contact's message does, case by case: nothing for a reply; an
    error thrown when the message has no [Message-ID]; an error line when no
    token is found or when it does not verify; and otherwise a request to
    the workflow binding that, when it is accepted, is followed by the
    answer. *)
Lemma contact_request_run (m : Message) (env : Env) (w : World) :
  handleContactEmail REPLY randomUUID number_toString HMAC SLEEP header_error m env w
  = if is_reply m then (Ok tt, w)
    else
      match message_id m with
      | None => (Throw header_error, w)
      | Some mid =>
          match tokenMatch m with
          | None => (Ok tt, emit (ConsoleError "No token found in the email body") w)
          | Some token =>
              if verify HMAC env (decodeHex token)
                   (invitation_data (msg_from m) (OWNER_EMAIL env))
              then
                match SLEEP (S (uuids w)) (randomUUID (uuids w)) (msg_from m)
                        (split_second "@" (msg_to m)) with
                | Some e =>
                    (Throw e,
                     {| sends := sends w; replies := replies w;
                        uuids := S (uuids w); trace := trace w |})
                | None =>
                    let mail := scheduled_answer number_toString m mid env
                                  (randomUUID (uuids w)) in
                    (Ok tt,
                     {| sends := sends w; replies := S (replies w);
                        uuids := S (uuids w);
                        trace :=
                          (trace w
                           ++ Create (randomUUID (uuids w)) (msg_from m)
                                (split_second "@" (msg_to m))
                           :: Reply mail (REPLY (replies w) mail)
                           :: match REPLY (replies w) mail with
                              | None => []
                              | Some e => [ConsoleError e]
                              end)%list |})
                end
              else (Ok tt, emit (ConsoleError "Invalid token signature") w)
          end
      end.
Proof.
  unfold handleContactEmail.
  destruct (is_reply m); [reflexivity|].
  destruct (message_id m) as [mid|]; [|reflexivity].
  unfold setHeader, bind at 1, ret.
  destruct (tokenMatch m) as [token|]; [|reflexivity].
  destruct (verify HMAC env (decodeHex token) _); cbn [negb]; [|reflexivity].
  unfold bind, fresh_uuid, create, emit, try_catch.
  cbn [fst snd sends replies uuids trace id identity domain].
  destruct (SLEEP _ _ _ _) as [e|]; [reflexivity|].
  rewrite reply_spec. cbn [fst snd sends replies uuids trace].
  fold (scheduled_answer number_toString m mid env (randomUUID (uuids w))).
  cbv zeta.
  destruct (REPLY (replies w) _) as [e|]; cbn [settled].
  - unfold console_error, emit. cbn [fst snd sends replies uuids trace].
    rewrite <- !app_assoc. reflexivity.
  - rewrite <- !app_assoc. reflexivity.
Qed.

(** A contact's message creates the instance it asks for, when it does, and
    nothing else. *)
Lemma contact_request (m : Message) (env : Env) (w : World) :
  exists evs,
    trace (snd (handleContactEmail REPLY randomUUID number_toString HMAC SLEEP
                  header_error m env w))
    = (trace w ++ evs)%list
    /\ created evs
       = if negb (is_reply m)
            && match message_id m, tokenMatch m with
               | Some _, Some token =>
                   verify HMAC env (decodeHex token)
                     (invitation_data (msg_from m) (OWNER_EMAIL env))
                   && match SLEEP (S (uuids w)) (randomUUID (uuids w)) (msg_from m)
                              (split_second "@" (msg_to m)) with
                      | None => true
                      | Some _ => false
                      end
               | _, _ => false
               end
         then [Create (randomUUID (uuids w)) (msg_from m)
                      (split_second "@" (msg_to m))]
         else [].
Proof.
  rewrite contact_request_run.
  destruct (is_reply m); cbn [negb andb].
  { exists []. now rewrite app_nil_r. }
  destruct (message_id m) as [mid|].
  2:{ exists []. now rewrite app_nil_r. }
  destruct (tokenMatch m) as [token|].
  2:{ eexists. split; reflexivity. }
  destruct (verify HMAC env (decodeHex token) _); cbn [andb].
  2:{ eexists. split; reflexivity. }
  destruct (SLEEP _ _ _ _) as [e|].
  { exists []. cbn [snd trace]. now rewrite app_nil_r. }
  cbv zeta. cbn [snd trace]. eexists. split; [reflexivity|].
  destruct (REPLY _ _); reflexivity.
Qed.

(** A message of the owner never creates a workflow instance. *)
Lemma owner_request (m : Message) (env : Env) (w : World) :
  exists evs,
    trace (snd (handleOwnerEmail SEB REPLY HMAC header_error m env w))
    = (trace w ++ evs)%list
    /\ created evs = [].
Proof.
  unfold handleOwnerEmail.
  destruct (is_reply m).
  { eexists. unfold console_error, emit. cbn [snd trace]. split; reflexivity. }
  destruct (message_id m) as [mid|].
  2:{ exists []. cbn. now rewrite app_nil_r. }
  unfold setHeader, bind at 1, ret.
  destruct (email_subject m) as [subj|].
  2:{ exists []. unfold ret. cbn [snd]. rewrite app_nil_r. split; reflexivity. }
  destruct (invite_subject subj).
  2:{ exists []. unfold ret. cbn [snd]. rewrite app_nil_r. split; reflexivity. }
  destruct (email_text m) as [body|].
  2:{ eexists. unfold console_error, emit. cbn [snd trace]. split; reflexivity. }
  unfold bind.
  destruct (invite_all_spec SEB HMAC m env (matchAll_addr 0 (chars body)) w)
    as (results & evs & Hrun & _ & _ & _ & Hc & _).
  rewrite Hrun. unfold try_catch. rewrite send_spec.
  cbn [fst snd sends replies uuids trace].
  match goal with |- context [SEB ?k ?x] => generalize x; intros mail end.
  destruct (SEB _ mail) as [e|].
  - destruct (includes e "verified").
    + rewrite reply_spec. cbn [fst snd sends replies uuids trace].
      match goal with |- context [REPLY ?k ?x] => generalize x; intros mail2 end.
      destruct (REPLY _ mail2) as [e2|]; cbn [settled].
      * unfold console_error, emit. cbn [snd trace]. eexists.
        rewrite <- !app_assoc. split; [reflexivity|].
        rewrite created_app, Hc. reflexivity.
      * cbn [snd trace]. eexists. rewrite <- !app_assoc. split; [reflexivity|].
        rewrite created_app, Hc. reflexivity.
    + unfold throw, console_error, emit. cbn [snd trace]. eexists.
      rewrite <- !app_assoc. split; [reflexivity|].
      rewrite created_app, Hc. reflexivity.
  - cbn [snd trace]. eexists. rewrite <- !app_assoc. split; [reflexivity|].
    rewrite created_app, Hc. reflexivity.
Qed.

Lemma verify_true (env : Env) (signature : list Byte.byte) (data : list ascii) :
  verify HMAC env signature data = true <-> sign HMAC env data = signature.
Proof. unfold verify, sign. apply bytes_eqb_eq. Qed.



(** C9.  The [email] handler creates at most one workflow instance, and
    only for a message that is not the owner's and whose text holds an
    [iem-] token that decodes to the HMAC, under [env.SECRET], of the pair
    (contact = the sender, owner = [env.OWNER_EMAIL]).  No token, no
    instance; and the signature issued for another contact or owner creates
    none, HMAC having no collision between the two signed texts. *)
Theorem workflow_needs_signature (m : Message) (env : Env) (w : World) :
  exists evs,
    trace (snd (email SEB REPLY randomUUID number_toString HMAC SLEEP header_error
                  m env w))
    = (trace w ++ evs)%list
    /\ (created evs = []
        \/ created evs = [Create (randomUUID (uuids w)) (msg_from m)
                                 (split_second "@" (msg_to m))])
    /\ (created evs <> [] ->
        msg_from m <> OWNER_EMAIL env
        /\ exists token,
             tokenMatch m = Some token
             /\ decodeHex token
                = HMAC (encode (chars (SECRET env)))
                       (encode (invitation_data (msg_from m) (OWNER_EMAIL env))))
    /\ (tokenMatch m = None -> created evs = [])
    /\ (forall owner contact,
          tokenMatch m = Some (invitation_signature HMAC env owner contact) ->
          (contact, owner) <> (msg_from m, OWNER_EMAIL env) ->
          (sign HMAC env (invitation_data contact owner)
           = sign HMAC env (invitation_data (msg_from m) (OWNER_EMAIL env)) ->
           encode (invitation_data contact owner)
           = encode (invitation_data (msg_from m) (OWNER_EMAIL env))) ->
          created evs = []).
Proof.
  unfold email. destruct (String.eqb (msg_from m) (OWNER_EMAIL env)) eqn:Eo.
  - destruct (owner_request m env w) as (evs & Ht & Hc).
    exists evs. split; [exact Ht|]. rewrite Hc.
    split; [now left|]. split; [congruence|]. split; [reflexivity|]. reflexivity.
  - apply String.eqb_neq in Eo.
    destruct (contact_request m env w) as (evs & Ht & Hc).
    exists evs. split; [exact Ht|].
    split; [|split; [|split]].
    + rewrite Hc. destruct (_ && _); [now right|now left].
    + intros Hne. split; [exact Eo|]. rewrite Hc in Hne.
      destruct (negb (is_reply m)); [|now elim Hne].
      destruct (message_id m) as [mid|]; [|now elim Hne].
      destruct (tokenMatch m) as [token|]; [|now elim Hne].
      cbn [andb] in Hne.
      destruct (verify HMAC env (decodeHex token) _) eqn:Ev; [|now elim Hne].
      exists token. split; [reflexivity|].
      apply verify_true in Ev. symmetry. exact Ev.
    + intros Hn. rewrite Hc, Hn.
      destruct (message_id m); now rewrite andb_false_r.
    + intros owner contact Htok Hpair Hfree. rewrite Hc, Htok.
      unfold invitation_signature. rewrite decodeHex_hex.
      destruct (message_id m) as [mid|]; [|now rewrite andb_false_r].
      destruct (verify HMAC env _ _) eqn:Ev; [|now rewrite andb_false_r].
      apply verify_true in Ev. symmetry in Ev. apply Hfree in Ev.
      apply invitation_data_injective in Ev. destruct Ev as [-> ->].
      now elim Hpair.
Qed.

End RequestFacts.

Lemma append_empty (s : string) : s ++ EmptyString = s.
Proof. induction s as [|c s IH]; simpl; congruence. Qed.

Lemma mac_length (key data : list Byte.byte) :
  List.length (Sample.mac key data) = 32.
Proof. unfold Sample.mac. now rewrite length_map, length_seq. Qed.


(** The spec's scenario: contacts c1, c2, c3, the send to c2 fails. *)
Example fan_out_scenario :
  let m := {| Runtime.msg_from := "owner@x.com"; Runtime.msg_to := "bot@x.com";
              Runtime.message_id := Some "<3@x.com>"; Runtime.inReplyTo := None;
              Runtime.email_subject := Some "Invite";
              Runtime.email_text := Some "c1@y.com c2@y.com c3@y.com" |} in
  let r := Worker.invite_all Sample.second_fails Sample.mac m Sample.env
             ["c1@y.com"; "c2@y.com"; "c3@y.com"] Runtime.start in
  Worker.matchAll_addr 0 (JS.chars "c1@y.com c2@y.com c3@y.com")
  = ["c1@y.com"; "c2@y.com"; "c3@y.com"]
  /\ fst r = Runtime.Ok [Runtime.Ok tt; Runtime.Throw "Address not verified";
                         Runtime.Ok tt]
  /\ Worker.mailed (Runtime.trace (snd r)) = ["c1@y.com"; "c2@y.com"; "c3@y.com"]
  /\ Worker.report_lines ["c1@y.com"; "c2@y.com"; "c3@y.com"]
       [Runtime.Ok tt; Runtime.Throw "Address not verified"; Runtime.Ok tt]
     = ["c1@y.com: success" ++ Worker.newline;
        "c2@y.com: Error: Address not verified" ++ Worker.newline;
        "c3@y.com: success" ++ Worker.newline]
  /\ Worker.mailed
       (Runtime.trace
          (snd (Worker.email Sample.second_fails Sample.up Sample.uuid Sample.show
                  Sample.mac Sample.spawn Sample.header_error m Sample.env
                  Runtime.start)))
     = ["c1@y.com"; "c2@y.com"; "c3@y.com"; "owner@x.com"].
Proof. vm_compute. repeat split. Qed.

(** A request with the signature of its own invitation starts a workflow;
    the same request with the signature issued to another contact does
    not. *)
Example request_scenario :
  Worker.created
    (Runtime.trace
       (snd (Worker.email Sample.up Sample.up Sample.uuid Sample.show Sample.mac
               Sample.spawn Sample.header_error Sample.request Sample.env
               Runtime.start)))
  = [Runtime.Create "3f2b8c1e-0000-4000-8000-000000000000" "a@b.c" (Some "x.com")]
  /\ Runtime.trace
       (snd (Worker.email Sample.up Sample.up Sample.uuid Sample.show Sample.mac
               Sample.spawn Sample.header_error Sample.borrowed_request Sample.env
               Runtime.start))
     = [Runtime.ConsoleError "Invalid token signature"].
Proof. vm_compute. split; reflexivity. Qed.

(* ===================================================================== *)
(** ** Properties of the trigger tokens *)
(* ===================================================================== *)

Section TokenFacts.
Import JS Runtime Vault.
Local Open Scope Q_scope.

Variable OWNER : Binding.
Variable REPLY : Binding.
Variable number_toString : number -> string.
Variable toUTCString : number -> string.
Variable jwt : Jwt.
Variable header_error : string.

(** *** The day parameters *)

(** [parseDays] returns a binary64 value that is not NaN and not above
    3650. *)
Lemma vault_days (daysStr : option string) :
  is_double (Vault.parseDays daysStr)
  /\ le (Vault.parseDays daysStr) (num 3650) = true.
Proof.
  apply (parseDays_bounded 3650 (parseFloat (to_string daysStr)));
    [lia|apply parseFloat_double].
Qed.

Lemma notBeforeDays_le (env : Env) :
  is_double (notBeforeDays env) /\ le (notBeforeDays env) (num 3650) = true.
Proof.
  destruct (vault_days (NOT_BEFORE_DAYS env)) as [D L]. unfold notBeforeDays. split.
  - apply or_else_double; [exact D|reflexivity].
  - apply or_else_le; [exact L|reflexivity].
Qed.

(** The literal [0.03]: a little below 3/100. *)
Lemma literal_003 :
  exists c, round64 (3 # 100) = Fin c /\ 29999 # 1000000 <= c /\ c <= 3 # 100.
Proof.
  eexists. split; [vm_compute; reflexivity|].
  split; apply Qle_bool_iff; vm_compute; reflexivity.
Qed.

(** Rounding moves a number below [2^32] in absolute value by at most
    [2^-20], and a number below [2^43] by at most [2^-9]. *)
Lemma near20 (y : Q) :
  - (4294967296) <= y -> y <= 4294967296 ->
  exists r, round64 y = Fin r /\ y - (1 # 1048576) <= r /\ r <= y + (1 # 1048576).
Proof.
  intros L H.
  assert (P : pow2 (52 + -20) == 4294967296) by reflexivity.
  assert (G : pow2 (-20) == 1 # 1048576) by reflexivity.
  destruct (round64_near (-20) y ltac:(lia)) as (r & E & R1 & R2);
    [rewrite P; exact L|rewrite P; exact H|].
  exists r. split; [exact E|]. rewrite G in R1, R2. split; assumption.
Qed.

Lemma near9 (y : Q) :
  - (8796093022208) <= y -> y <= 8796093022208 ->
  exists r, round64 y = Fin r /\ y - (1 # 512) <= r /\ r <= y + (1 # 512).
Proof.
  intros L H.
  assert (P : pow2 (52 + -9) == 8796093022208) by reflexivity.
  assert (G : pow2 (-9) == 1 # 512) by reflexivity.
  destruct (round64_near (-9) y ltac:(lia)) as (r & E & R1 & R2);
    [rewrite P; exact L|rewrite P; exact H|].
  exists r. split; [exact E|]. rewrite G in R1, R2. split; assumption.
Qed.

(** A number of days between -3651 and 3651, in seconds: the three
    roundings move the product by less than a hundredth of a second. *)
Lemma seconds_near (y : Q) :
  - (3651) <= y -> y <= 3651 ->
  exists s, in_seconds (Fin y) = Fin s
            /\ y * 86400 - (1 # 100) <= s /\ s <= y * 86400 + (1 # 100).
Proof.
  intros L H. unfold in_seconds, num. cbn [mul].
  destruct (near20 (y * inject_Z 24)) as (r1 & E1 & A1 & B1);
    [unfold inject_Z; lra|unfold inject_Z; lra|].
  rewrite E1. cbn [mul]. unfold inject_Z in A1, B1.
  destruct (near20 (r1 * inject_Z 60)) as (r2 & E2 & A2 & B2);
    [unfold inject_Z; lra|unfold inject_Z; lra|].
  rewrite E2. cbn [mul]. unfold inject_Z in A2, B2.
  destruct (near20 (r2 * inject_Z 60)) as (r3 & E3 & A3 & B3);
    [unfold inject_Z; lra|unfold inject_Z; lra|].
  rewrite E3. unfold inject_Z in A3, B3.
  exists r3. split; [reflexivity|]. split; lra.
Qed.

(** The second of an instant of the time range of [Date] is an integer of
    at most thirteen digits, and not negative from the epoch on. *)
Lemma second_range (now : Z) :
  (Z.abs now <= 8640000000000000)%Z ->
  exists k, second now = Fin (inject_Z k)
            /\ (Z.abs k <= 8640000000000)%Z
            /\ ((0 <= now)%Z -> (0 <= k)%Z).
Proof.
  intros Hn. unfold second, div, num.
  assert (B1 : inject_Z (-8640000000000) <= inject_Z now / 1000).
  { apply Qle_shift_div_l; [reflexivity|].
    change 1000 with (inject_Z 1000). rewrite <- inject_Z_mult, <- Zle_Qle. lia. }
  assert (B2 : inject_Z now / 1000 <= inject_Z 8640000000000).
  { apply Qle_shift_div_r; [reflexivity|].
    change 1000 with (inject_Z 1000). rewrite <- inject_Z_mult, <- Zle_Qle. lia. }
  destruct (round64_between (inject_Z (-8640000000000)) (inject_Z 8640000000000)
              (inject_Z now / 1000)) as (r & E & R1 & R2);
    [apply round64_Z; lia|apply round64_Z; lia|exact B1|exact B2|].
  rewrite E. cbn [floor]. exists (Qfloor r). split; [reflexivity|].
  pose proof (Qfloor_resp_le _ _ R1) as F1. pose proof (Qfloor_resp_le _ _ R2) as F2.
  rewrite Qfloor_Z in F1, F2. split; [lia|].
  intros H0.
  assert (B0 : 0 <= inject_Z now / 1000).
  { apply Qle_shift_div_l; [reflexivity|]. rewrite Qmult_0_l.
    change 0 with (inject_Z 0). rewrite <- Zle_Qle. exact H0. }
  pose proof (round64_mono _ _ B0) as M. rewrite E in M.
  change (round64 0) with (Fin 0) in M. apply le_Fin in M.
  pose proof (Qfloor_resp_le _ _ M) as F0. exact F0.
Qed.

(** The second of a whole number of seconds is that number. *)
Lemma second_exact (z : Z) :
  (Z.abs z < 2 ^ 53)%Z -> second (1000 * z) = Fin (inject_Z z).
Proof.
  intros H. unfold second, div, num.
  assert (E : inject_Z (1000 * z) / 1000 == inject_Z z)
    by (rewrite inject_Z_mult; change (inject_Z 1000) with 1000; field).
  rewrite (round64_comp _ _ E), round64_Z by exact H.
  cbn [floor]. now rewrite Qfloor_Z.
Qed.

(** A number of seconds added to the second of an instant. *)
Lemma instant_near (k : Z) (s : Q) :
  (Z.abs k <= 8640000000000)%Z -> - (400000000) <= s -> s <= 400000000 ->
  exists r, add (Fin (inject_Z k)) (Fin s) = Fin r
            /\ inject_Z k + s - (1 # 512) <= r /\ r <= inject_Z k + s + (1 # 512).
Proof.
  intros Hk L H. cbn [add].
  assert (K1 : inject_Z (-8640000000000) <= inject_Z k) by (rewrite <- Zle_Qle; lia).
  assert (K2 : inject_Z k <= inject_Z 8640000000000) by (rewrite <- Zle_Qle; lia).
  unfold inject_Z at 1 in K1. unfold inject_Z at 2 in K2.
  apply near9; lra.
Qed.

(** *** The claims *)

(** The waiting period and the expiration period, when the first is not
    below -3650 days: both finite, and the second at least 0.0299 day
    longer. *)
Lemma periods (env : Env) :
  le (num (-3650)) (notBeforeDays env) = true ->
  exists n x,
    notBeforeDays env = Fin n /\ expirationDays env = Fin x
    /\ - (3650) <= n /\ n <= 3650
    /\ n + (2999 # 100000) <= x /\ x <= 3651.
Proof.
  intros Lo. destruct (notBeforeDays_le env) as [_ Hi].
  destruct (notBeforeDays env) as [| | |n] eqn:En; try discriminate.
  apply le_Fin in Lo, Hi. unfold inject_Z in Lo, Hi.
  destruct literal_003 as (c & Ec & C1 & C2).
  unfold expirationDays. rewrite En, Ec. cbn [add].
  destruct (near20 (n + c)) as (a & Ea & A1 & A2); [lra|lra|]. rewrite Ea.
  destruct (vault_days (EXPIRATION_DAYS env)) as [_ He].
  assert (He' : le (or_else (Vault.parseDays (EXPIRATION_DAYS env)) (num 7))
                   (num 3650) = true) by (apply or_else_le; [exact He|reflexivity]).
  destruct (or_else (Vault.parseDays (EXPIRATION_DAYS env)) (num 7))
    as [| | |e]; try discriminate.
  - exists n, a. cbn [max gt]. repeat split; try reflexivity; lra.
  - apply le_Fin in He'. unfold inject_Z in He'. cbn [max gt].
    destruct (Qle_bool a e) eqn:C; cbn [negb].
    + apply Qle_bool_iff in C. exists n, e. repeat split; try reflexivity; lra.
    + exists n, a. repeat split; try reflexivity; lra.
Qed.

(** C4, amended.  For every identity, every issuance time of the time
    range of [Date] and every configuration whose waiting period is not
    below -3650 days: the effective expiration is
    [max(parseDays(EXPIRATION_DAYS) || 7, notBeforeDays + 0.03)], the claims
    signed by [createToken] are finite and satisfy [nbf < exp] with a gap
    of at least 2591 seconds, and there is an instant at which the time
    checks of the library pass: the validity window is not empty. *)
Theorem validity_window_not_empty (now : Z) (identity : string) (env : Env) :
  (Z.abs now <= 8640000000000000)%Z ->
  le (num (-3650)) (notBeforeDays env) = true ->
  expirationDays env
  = max (or_else (Vault.parseDays (EXPIRATION_DAYS env)) (num 7))
        (add (notBeforeDays env) (round64 (3 # 100)))
  /\ lt (nbf (claims now identity env)) (exp (claims now identity env)) = true
  /\ (exists n x,
        nbf (claims now identity env) = Fin n
        /\ exp (claims now identity env) = Fin x
        /\ n + 2591 <= x)
  /\ (exists t, current (claims now identity env) (second t) = true).
Proof.
  intros Hnow Lo. split; [reflexivity|].
  destruct (periods env Lo) as (n & x & En & Ex & N1 & N2 & X1 & X2).
  destruct (second_range now Hnow) as (k & Ek & Hk & _).
  destruct (seconds_near n) as (sn & Esn & SN1 & SN2); [lra|lra|].
  destruct (seconds_near x) as (sx & Esx & SX1 & SX2); [lra|lra|].
  destruct (instant_near k sn Hk) as (rn & Ern & RN1 & RN2); [lra|lra|].
  destruct (instant_near k sx Hk) as (rx & Erx & RX1 & RX2); [lra|lra|].
  assert (Vn : nbf (claims now identity env) = Fin rn)
    by (unfold claims; cbn [nbf]; now rewrite Ek, En, Esn).
  assert (Vx : exp (claims now identity env) = Fin rx)
    by (unfold claims; cbn [exp]; now rewrite Ek, Ex, Esx).
  assert (Gap : rn + 2591 <= rx) by lra.
  rewrite Vn, Vx. split; [|split].
  - unfold lt. apply gt_Fin. lra.
  - exists rn, rx. repeat split; try reflexivity. exact Gap.
  - exists (1000 * Qceiling rn)%Z.
    pose proof (Qle_ceiling rn) as C1. pose proof (Qceiling_lt rn) as C2.
    unfold Z.sub in C2. rewrite inject_Z_plus in C2.
    change (inject_Z (- (1))) with (- (1)) in C2.
    assert (K1 : inject_Z (-8640000000000) <= inject_Z k) by (rewrite <- Zle_Qle; lia).
    assert (K2 : inject_Z k <= inject_Z 8640000000000) by (rewrite <- Zle_Qle; lia).
    unfold inject_Z at 1 in K1. unfold inject_Z at 2 in K2.
    assert (B : (Z.abs (Qceiling rn) < 2 ^ 53)%Z).
    { assert (B1 : (Qceiling (- (9000000000000)) <= Qceiling rn)%Z)
        by (apply Qceiling_resp_le; lra).
      assert (B2 : (Qceiling rn <= Qceiling 9000000000000)%Z)
        by (apply Qceiling_resp_le; lra).
      change (Qceiling (- (9000000000000))) with (-9000000000000)%Z in B1.
      change (Qceiling 9000000000000) with 9000000000000%Z in B2. lia. }
    rewrite (second_exact _ B). unfold current, not_yet.
    assert (G1 : gt (Fin rn) (Fin (inject_Z (Qceiling rn))) = false).
    { destruct (gt (Fin rn) (Fin (inject_Z (Qceiling rn)))) eqn:G; [|reflexivity].
      apply gt_Fin in G. lra. }
    assert (G2 : le (Fin rx) (Fin (inject_Z (Qceiling rn))) = false).
    { destruct (le (Fin rx) (Fin (inject_Z (Qceiling rn)))) eqn:G; [|reflexivity].
      apply le_Fin in G. lra. }
    rewrite Vn, Vx, G1, G2, !andb_false_r. reflexivity.
Qed.

(** C5, amended.  For every identity, every issuance time from the epoch
    on and every configuration whose waiting period amounts to at least one
    second: [nbf] is strictly after the issuance second, so a library that
    verifies the token it has just signed down to its time checks answers
    NOT_YET_VALID at the issuance time, and the handler's answer names the
    [nbf] instant. *)
Theorem fresh_token_not_yet_valid (now : Z) (identity : string) (env : Env) :
  (0 <= now <= 8640000000000000)%Z ->
  le (num 1) (in_seconds (notBeforeDays env)) = true ->
  honours jwt (SECRET env) (claims now identity env) ->
  lt (second now) (nbf (claims now identity env)) = true
  /\ jwt_verify jwt (jwt_sign jwt (claims now identity env) (SECRET env))
       (SECRET env) now = Some "NOT_YET_VALID"
  /\ answer toUTCString jwt now
       (jwt_sign jwt (claims now identity env) (SECRET env)) env
     = "Token is not yet valid. It will be valid after "
       ++ toUTCString (mul (nbf (claims now identity env)) (num 1000)).
Proof.
  intros Hnow Hpos [Hv Hd].
  destruct (second_range now ltac:(lia)) as (k & Ek & Hk & Hk0).
  specialize (Hk0 ltac:(lia)).
  destruct (notBeforeDays_le env) as [_ Hi].
  assert (Hs : le (in_seconds (notBeforeDays env)) (num 315360000) = true).
  { unfold in_seconds.
    apply le_trans with (mul (mul (mul (num 3650) (num 24)) (num 60)) (num 60)).
    - repeat apply mul_mono; try reflexivity. exact Hi.
    - vm_compute. reflexivity. }
  destruct (in_seconds (notBeforeDays env)) as [| | |s] eqn:Es; try discriminate.
  apply le_Fin in Hpos, Hs. unfold inject_Z in Hpos, Hs.
  assert (L : le (num (k + 1)) (round64 (inject_Z k + s)) = true).
  { apply round64_ge_Z; [lia|]. rewrite inject_Z_plus.
    change (inject_Z 1) with 1. lra. }
  assert (U : le (round64 (inject_Z k + s)) (num (k + 315360000)) = true).
  { apply round64_le_Z; [lia|]. rewrite inject_Z_plus.
    change (inject_Z 315360000) with 315360000. lra. }
  assert (Vn : nbf (claims now identity env) = round64 (inject_Z k + s))
    by (unfold claims; cbn [nbf]; now rewrite Ek, Es).
  destruct (round64 (inject_Z k + s)) as [| | |r] eqn:Er; try discriminate.
  apply le_Fin in L. rewrite inject_Z_plus in L. change (inject_Z 1) with 1 in L.
  assert (K0 : 0 <= inject_Z k) by (change 0 with (inject_Z 0); now rewrite <- Zle_Qle).
  assert (G : gt (Fin r) (Fin (inject_Z k)) = true) by (apply gt_Fin; lra).
  assert (N : not_yet (claims now identity env) (second now) = true).
  { unfold not_yet. rewrite Vn, Ek, G. unfold claim_set, truthy.
    destruct (Qeq_bool r 0) eqn:Z0; [|reflexivity].
    apply Qeq_bool_iff in Z0. lra. }
  destruct (Hv now) as (V1 & _ & _). specialize (V1 N).
  split; [|split].
  - unfold lt. now rewrite Vn, Ek.
  - exact V1.
  - unfold answer. rewrite V1, Hd. reflexivity.
Qed.

(** C6.  When the token submitted in a message that carries its
    [Message-ID] fails verification, the answer sent back holds exactly one
    text, chosen by the error alone: for NOT_YET_VALID the
    text that names the [nbf] instant of the token, for EXPIRED the expired
    text, and for every other error the one text [Invalid token.]. *)
Theorem rejected_token_answers (now : Z) (m : Message) (env : Env) (w : World)
  (token err : string) :
  whitelisted env (msg_from m) = true ->
  is_reply m = false ->
  message_id m <> None ->
  match_bracket (chars (replaceAll "&nbsp;" " " (or_string (email_text m) "")))
  = Some token ->
  jwt_verify jwt token (SECRET env) now = Some err ->
  exists mail,
    trace (snd (email OWNER REPLY number_toString toUTCString jwt header_error
                  now m env w))
    = (trace w ++ [ConsoleLog token; Reply mail (REPLY (replies w) mail)])%list
    /\ from mail = msg_to m /\ to mail = msg_from m
    /\ exists text,
         parts (raw mail) = [text]
         /\ (err = "NOT_YET_VALID" ->
             text = "Token is not yet valid. It will be valid after "
                    ++ toUTCString (mul (nbf (jwt_decode jwt token)) (num 1000)))
         /\ (err = "EXPIRED" -> text = "Token has expired.")
         /\ (err <> "NOT_YET_VALID" -> err <> "EXPIRED" -> text = "Invalid token.").
Proof.
  intros Hw Hr Hid Hm Hv. unfold email. rewrite Hw, Hr. cbn [negb].
  destruct (message_id m) as [mid|]; [|now elim Hid].
  rewrite Hm. unfold setHeader, bind, console_log, ret, emit.
  cbn [fst snd sends replies uuids trace].
  rewrite reply_spec. cbn [fst snd sends replies uuids trace].
  eexists. rewrite <- app_assoc. split; [reflexivity|].
  cbn [from to raw parts asRaw addMessage setSubject setRecipient setSender
       with_header createMimeMessage app firstn].
  split; [reflexivity|]. split; [reflexivity|].
  eexists. split; [reflexivity|]. unfold answer. rewrite Hv.
  split; [|split].
  - intros ->. reflexivity.
  - intros ->. reflexivity.
  - intros H1 H2. apply String.eqb_neq in H1, H2. now rewrite H1, H2.
Qed.

(** C10.  [createToken] hands the owner notification to the mail binding
    first; when the binding rejects it the result is the error response
    (status 500) and nothing is signed; a token is returned only when the
    binding accepted the notification. *)
Theorem token_needs_notification (now : Z) (identity : string)
  (domain : option string) (env : Env) (w : World) :
  fst (createToken OWNER number_toString jwt now identity domain env w)
  = Ok (match OWNER (sends w) (notification number_toString identity domain env) with
        | None => Token (jwt_sign jwt (claims now identity env) (SECRET env))
        | Some e => Response e 500
        end)
  /\ trace (snd (createToken OWNER number_toString jwt now identity domain env w))
     = (trace w
        ++ [Mail (notification number_toString identity domain env)
              (OWNER (sends w) (notification number_toString identity domain env))])%list
  /\ (forall t,
        fst (createToken OWNER number_toString jwt now identity domain env w)
        = Ok (Token t) ->
        OWNER (sends w) (notification number_toString identity domain env) = None
        /\ t = jwt_sign jwt (claims now identity env) (SECRET env)).
Proof.
  assert (E : createToken OWNER number_toString jwt now identity domain env w
              = (Ok (match OWNER (sends w) (notification number_toString identity domain env) with
                     | None => Token (jwt_sign jwt (claims now identity env) (SECRET env))
                     | Some e => Response e 500
                     end),
                 {| sends := S (sends w); replies := replies w; uuids := uuids w;
                    trace := (trace w
                              ++ [Mail (notification number_toString identity domain env)
                                    (OWNER (sends w)
                                       (notification number_toString identity domain env))])%list |})).
  { unfold createToken, bind, try_catch, ret. rewrite send_spec.
    destruct (OWNER (sends w) _); reflexivity. }
  rewrite E. cbn [fst snd trace]. split; [reflexivity|]. split; [reflexivity|].
  intros t H. destruct (OWNER (sends w) _).
  - discriminate.
  - injection H as <-. split; reflexivity.
Qed.

End TokenFacts.

(** With the default configuration the window is open for four days. *)
Lemma validity_window_not_empty_witness :
  JS.lt (Vault.nbf Sample.default_claims) (Vault.exp Sample.default_claims) = true
  /\ exists t, Vault.current Sample.default_claims (Vault.second t) = true.
Proof.
  destruct (validity_window_not_empty Sample.now "a@x.com" Sample.vault_default)
    as (_ & H1 & _ & H2).
  - vm_compute. discriminate.
  - vm_compute. reflexivity.
  - split; [exact H1|exact H2].
Defined.

(** A number is in exactly one of three positions to another one that is
    not NaN. *)
Lemma le_or_gt (x t : JS.number) :
  JS.isNaN x = false -> JS.isNaN t = false -> JS.gt x t = negb (JS.le x t).
Proof.
  destruct x as [| | |a], t as [| | |b]; simpl; try discriminate; reflexivity.
Qed.

Lemma second_not_NaN (t : Z) : JS.isNaN (Vault.second t) = false.
Proof.
  unfold Vault.second, JS.div, JS.num.
  pose proof (round64_not_NaN (inject_Z t / 1000)).
  now destruct (JS.round64 (inject_Z t / 1000)).
Qed.

(** C4 as stated fails.  With NOT_BEFORE_DAYS and EXPIRATION_DAYS set to
    [-1e15] the sum [notBeforeDays + 0.03] rounds to [notBeforeDays]: a
    token is issued whose [nbf] and [exp] are one and the same finite
    number, and no instant passes the time checks.  With both set to
    [-Infinity], [nbf] and [exp] are both minus infinity. *)
Lemma absorbed_gap_window_empty :
  Vault.notBeforeDays (Sample.vault (Some "-1e15") (Some "-1e15"))
  = JS.num (-1000000000000000)
  /\ Vault.expirationDays (Sample.vault (Some "-1e15") (Some "-1e15"))
     = JS.num (-1000000000000000)
  /\ fst (Vault.createToken Sample.up Sample.show
            (Sample.jwt_of (Vault.claims Sample.now "a@x.com"
                              (Sample.vault (Some "-1e15") (Some "-1e15"))))
            Sample.now "a@x.com" (Some "x.com")
            (Sample.vault (Some "-1e15") (Some "-1e15")) Runtime.start)
     = Runtime.Ok (Vault.Token "eyJhbGciOiJIUzI1NiJ9.e30.c2ln")
  /\ Vault.nbf (Vault.claims Sample.now "a@x.com"
                  (Sample.vault (Some "-1e15") (Some "-1e15")))
     = Vault.exp (Vault.claims Sample.now "a@x.com"
                    (Sample.vault (Some "-1e15") (Some "-1e15")))
  /\ JS.lt (Vault.nbf (Vault.claims Sample.now "a@x.com"
                         (Sample.vault (Some "-1e15") (Some "-1e15"))))
           (Vault.exp (Vault.claims Sample.now "a@x.com"
                         (Sample.vault (Some "-1e15") (Some "-1e15")))) = false
  /\ (forall t,
        Vault.current (Vault.claims Sample.now "a@x.com"
                         (Sample.vault (Some "-1e15") (Some "-1e15")))
          (Vault.second t) = false)
  /\ Vault.claims Sample.now "a@x.com" Sample.vault_minus_infinity
     = {| Vault.identity := "a@x.com"; Vault.nbf := JS.NegInf;
          Vault.exp := JS.NegInf |}.
Proof.
  split; [vm_compute; reflexivity|]. split; [vm_compute; reflexivity|].
  split; [vm_compute; reflexivity|]. split; [vm_compute; reflexivity|].
  split; [vm_compute; reflexivity|]. split; [|vm_compute; reflexivity].
  intros t. unfold Vault.current, Vault.not_yet.
  assert (E : Vault.exp (Vault.claims Sample.now "a@x.com"
                           (Sample.vault (Some "-1e15") (Some "-1e15")))
              = Vault.nbf (Vault.claims Sample.now "a@x.com"
                             (Sample.vault (Some "-1e15") (Some "-1e15"))))
    by (vm_compute; reflexivity).
  rewrite E.
  assert (C : Vault.claim_set
                (Vault.nbf (Vault.claims Sample.now "a@x.com"
                              (Sample.vault (Some "-1e15") (Some "-1e15")))) = true)
    by (vm_compute; reflexivity).
  assert (N : JS.isNaN
                (Vault.nbf (Vault.claims Sample.now "a@x.com"
                              (Sample.vault (Some "-1e15") (Some "-1e15")))) = false)
    by (vm_compute; reflexivity).
  rewrite C, (le_or_gt _ _ N (second_not_NaN t)). cbn [andb].
  now destruct (JS.le _ _).
Qed.

Lemma jwt_of_honours (secret : string) (c : Vault.Claims) :
  Vault.honours (Sample.jwt_of c) secret c.
Proof.
  split; [|reflexivity]. intros t. cbn. unfold Sample.time_checks.
  split; [|split].
  - intros ->. reflexivity.
  - intros -> ->. reflexivity.
  - unfold Vault.current, Vault.past, JS.lt.
    destruct (Vault.not_yet c (Vault.second t)); [discriminate|]. cbn [negb andb].
    destruct (Vault.claim_set (Vault.exp c)); [|reflexivity]. cbn [andb].
    destruct (Vault.exp c) as [| | |a], (Vault.second t) as [| | |b];
      cbn [JS.le JS.gt negb]; try discriminate; try reflexivity.
    intros H. apply negb_true_iff in H.
    destruct (Qle_bool b a) eqn:E; [reflexivity|].
    exfalso. destruct (Qlt_le_dec b a) as [L|L].
    + apply Qlt_le_weak, Qle_bool_iff in L. congruence.
    + apply Qle_bool_iff in L. congruence.
Qed.

(** With the default configuration a fresh token is not yet valid. *)
Lemma fresh_token_not_yet_valid_witness :
  Vault.jwt_verify (Sample.jwt_of Sample.default_claims)
    (Vault.jwt_sign (Sample.jwt_of Sample.default_claims) Sample.default_claims
       "shared secret")
    "shared secret" Sample.now
  = Some "NOT_YET_VALID".
Proof.
  destruct (fresh_token_not_yet_valid Sample.utc
              (Sample.jwt_of Sample.default_claims) Sample.now "a@x.com"
              Sample.vault_default)
    as (_ & H & _).
  - vm_compute. split; discriminate.
  - vm_compute. reflexivity.
  - apply jwt_of_honours.
  - exact H.
Defined.

(** C5 as stated fails.  With NOT_BEFORE_DAYS set to [-1] the effective
    expiration (7 days) exceeds the waiting period by more than 0.03 days,
    yet [nbf] lies one day before the issuance, the fresh token verifies at
    once and the handler answers with the vault content.  With
    NOT_BEFORE_DAYS set to [1e-12] the waiting period is positive, but the
    fraction of a second it amounts to is lost when it is added to the
    issuance second: [nbf] is that second, and the fresh token verifies at
    once again. *)
Lemma fresh_token_valid_at_once :
  (Vault.notBeforeDays Sample.vault_negative = JS.num (-1)
   /\ JS.le (JS.add (Vault.notBeforeDays Sample.vault_negative)
                    (JS.round64 (3 # 100)))
            (Vault.expirationDays Sample.vault_negative) = true
   /\ Vault.honours (Sample.jwt_of Sample.negative_claims) "shared secret"
        Sample.negative_claims
   /\ Vault.jwt_verify (Sample.jwt_of Sample.negative_claims)
        (Vault.jwt_sign (Sample.jwt_of Sample.negative_claims)
           Sample.negative_claims "shared secret")
        "shared secret" Sample.now
      = None
   /\ Vault.answer Sample.utc (Sample.jwt_of Sample.negative_claims) Sample.now
        (Vault.jwt_sign (Sample.jwt_of Sample.negative_claims)
           Sample.negative_claims "shared secret")
        Sample.vault_negative
      = "the vault")
  /\ (JS.gt (Vault.notBeforeDays (Sample.vault (Some "1e-12") None)) (JS.num 0)
      = true
      /\ JS.le (JS.add (Vault.notBeforeDays (Sample.vault (Some "1e-12") None))
                       (JS.round64 (3 # 100)))
               (Vault.expirationDays (Sample.vault (Some "1e-12") None)) = true
      /\ Vault.nbf (Vault.claims Sample.now "a@x.com"
                      (Sample.vault (Some "1e-12") None))
         = Vault.second Sample.now
      /\ Vault.honours
           (Sample.jwt_of (Vault.claims Sample.now "a@x.com"
                             (Sample.vault (Some "1e-12") None)))
           "shared secret"
           (Vault.claims Sample.now "a@x.com" (Sample.vault (Some "1e-12") None))
      /\ Vault.jwt_verify
           (Sample.jwt_of (Vault.claims Sample.now "a@x.com"
                             (Sample.vault (Some "1e-12") None)))
           (Vault.jwt_sign
              (Sample.jwt_of (Vault.claims Sample.now "a@x.com"
                                (Sample.vault (Some "1e-12") None)))
              (Vault.claims Sample.now "a@x.com" (Sample.vault (Some "1e-12") None))
              "shared secret")
           "shared secret" Sample.now
         = None).
Proof.
  split.
  - split; [vm_compute; reflexivity|]. split; [vm_compute; reflexivity|].
    split; [apply jwt_of_honours|]. split; vm_compute; reflexivity.
  - split; [vm_compute; reflexivity|]. split; [vm_compute; reflexivity|].
    split; [vm_compute; reflexivity|]. split; [apply jwt_of_honours|].
    vm_compute. reflexivity.
Qed.

(** A token the library did not issue gets the generic answer. *)
Lemma rejected_token_answers_witness :
  exists mail,
    Runtime.trace
      (snd (Vault.email Sample.up Sample.up Sample.show Sample.utc
              (Sample.jwt_of Sample.default_claims) Sample.header_error Sample.now
              Sample.stale_submission Sample.vault_default Runtime.start))
    = [Runtime.ConsoleLog "abc.def.ghi"; Runtime.Reply mail None]
    /\ Runtime.parts (Runtime.raw mail) = ["Invalid token."].
Proof.
  destruct (rejected_token_answers Sample.up Sample.up Sample.show Sample.utc
              (Sample.jwt_of Sample.default_claims) Sample.header_error Sample.now
              Sample.stale_submission Sample.vault_default Runtime.start
              "abc.def.ghi" "INVALID_SIGNATURE")
    as (mail & Ht & _ & _ & text & Hp & _ & _ & Hg).
  - reflexivity.
  - reflexivity.
  - discriminate.
  - reflexivity.
  - reflexivity.
  - exists mail. split; [exact Ht|].
    rewrite Hp, Hg; [reflexivity|discriminate|discriminate].
Defined.

(** The spec's scenario: waiting period 7 days, expiration 14 days; the
    token is not yet valid at issuance, valid ten days later, expired
    fifteen days later. *)
Example token_scenario :
  let c := Vault.claims Sample.now "a@x.com" (Sample.vault (Some "7") (Some "14")) in
  Sample.time_checks c Sample.now = Some "NOT_YET_VALID"
  /\ Sample.time_checks c (Sample.now + 10 * 86400000) = None
  /\ Sample.time_checks c (Sample.now + 15 * 86400000) = Some "EXPIRED".
Proof. vm_compute. repeat split. Qed.

(* ===================================================================== *)
(** ** The countdown workflow, event by event *)
(* ===================================================================== *)

Section RunFacts.
Import JS Runtime Worker Observe.

Variable SEB : Binding.
Variable number_toString : number -> string.

(** The events of a step that sends [m]: attempts of that step and sends of
    [m], at most [n + 1] of them, one accepted exactly when the step
    succeeds. *)
Lemma attempts_shape (m : EmailMessage) (name : string) (n : nat) :
  forall k w,
    exists r w' evs,
      attempts name (send SEB m) n k w = (r, w')
      /\ trace w' = (trace w ++ evs)%list
      /\ Forall (step_of name m) evs
      /\ List.length (filter is_mail evs) <= S n
      /\ List.length (filter accepted evs)
         = match r with Ok _ => 1 | Throw _ => 0 end.
Proof.
  induction n as [|n IH]; intros k w; simpl; rewrite send_spec; simpl.
  - destruct (SEB (sends w) m) as [e|] eqn:E; simpl;
      eexists; eexists; exists [Attempt name k; Mail m (SEB (sends w) m)];
      rewrite E; (split; [reflexivity|]); simpl; rewrite <- app_assoc; simpl;
      (split; [reflexivity|]); (split; [repeat constructor|]); split; auto.
  - destruct (SEB (sends w) m) as [e|] eqn:E; simpl.
    + match goal with |- context [attempts name (send SEB m) n (S k) ?w1] =>
        destruct (IH (S k) w1) as (r & w' & evs & Hrun & Ht & Hall & Hm & Ha)
      end.
      exists r, w', (Attempt name k :: Mail m (Some e) :: evs).
      split; [exact Hrun|]. rewrite Ht. simpl.
      rewrite <- !app_assoc. simpl. split; [reflexivity|].
      split; [repeat constructor; auto|]. split; [lia|exact Ha].
    + eexists; eexists; exists [Attempt name k; Mail m None].
      split; [reflexivity|]. simpl. rewrite <- app_assoc. simpl.
      split; [reflexivity|]. split; [repeat constructor|]. split; [lia|reflexivity].
Qed.

(** The run, step by step: the events of [notify]; when it fails the run
    ends there with its error, and otherwise the sleep and the events of
    [send] follow, with an error line when [send] fails. *)
Lemma run_shape (env : Env) (p : Payload) (w : World) :
  exists r1 w1 e1,
    step_do "notify" retries (notify SEB number_toString env p) w = (r1, w1)
    /\ trace w1 = (trace w ++ e1)%list
    /\ Forall (step_of "notify" (notification number_toString env p)) e1
    /\ List.length (filter is_mail e1) <= S (limit retries)
    /\ List.length (filter accepted e1) = match r1 with Ok _ => 1 | Throw _ => 0 end
    /\ match r1 with
       | Throw e => run SEB number_toString env p w = (Throw e, w1)
       | Ok _ =>
           exists r2 e2,
             fst (run SEB number_toString env p w) = Ok tt
             /\ trace (snd (run SEB number_toString env p w))
                = (trace w1 ++ Sleep "sleep" (countdown env) :: e2
                   ++ match r2 with Ok _ => [] | Throw e => [ConsoleError e] end)%list
             /\ Forall (step_of "send" (secret_message env p)) e2
             /\ List.length (filter is_mail e2) <= S (limit retries)
             /\ List.length (filter accepted e2)
                = match r2 with Ok tt => 1 | Throw _ => 0 end
       end.
Proof.
  unfold run, bind, step_do, notify, release.
  destruct (attempts_shape (notification number_toString env p) "notify"
              (limit retries) 0 w) as (r1 & w1 & e1 & Hrun & Ht & Hall & Hm & Ha).
  exists r1, w1, e1. rewrite Hrun.
  split; [reflexivity|]. split; [exact Ht|]. split; [exact Hall|].
  split; [exact Hm|]. split; [exact Ha|].
  destruct r1 as [[]|e]; [|reflexivity].
  unfold step_sleep, try_catch.
  destruct (attempts_shape (secret_message env p) "send" (limit retries) 0
              (emit (Sleep "sleep" (countdown env)) w1))
    as (r2 & w2 & e2 & Hrun2 & Ht2 & Hall2 & Hm2 & Ha2).
  rewrite Hrun2. exists r2, e2.
  destruct r2 as [[]|e]; cbn [fst snd].
  - split; [reflexivity|]. rewrite Ht2. cbn [emit trace].
    rewrite <- !app_assoc, app_nil_r. cbn [app]. repeat (split; [assumption || reflexivity|]).
    exact Ha2.
  - unfold console_error. cbn [fst snd emit trace]. split; [reflexivity|].
    rewrite Ht2. cbn [emit trace]. rewrite <- !app_assoc. cbn [app].
    repeat (split; [assumption || reflexivity|]). exact Ha2.
Qed.

(** The notification and the secret message differ, by their subjects. *)
Lemma messages_differ (env : Env) (p : Payload) :
  notification number_toString env p <> secret_message env p.
Proof.
  intros H. apply (f_equal (fun m => subject (raw m))) in H.
  cbn in H. discriminate H.
Qed.

Lemma accepted_once_in (name : string) (m : EmailMessage) (l : list Event) :
  Forall (step_of name m) l ->
  List.length (filter accepted l) = 1 ->
  In (Mail m None) l.
Proof.
  induction 1 as [|ev l Hev _ IH]; simpl; [discriminate|].
  destruct ev as [m' [e|]| | | | | |]; simpl in *; auto.
  intros _. left. now rewrite Hev.
Qed.

Lemma step_mails (name : string) (m : EmailMessage) (l : list Event) :
  Forall (step_of name m) l ->
  forall m' o, In (Mail m' o) l -> m' = m.
Proof.
  intros H m' o Hin. rewrite Forall_forall in H. exact (H _ Hin).
Qed.

(** The status of the instance is the outcome of its first step. *)
Lemma run_status (env : Env) (p : Payload) (w : World) :
  status_of (fst (run SEB number_toString env p w))
  = status_of (fst (step_do "notify" retries (notify SEB number_toString env p) w)).
Proof.
  destruct (run_shape env p w) as (r1 & w1 & e1 & Hn & _ & _ & _ & _ & H).
  rewrite Hn. destruct r1 as [[]|e].
  - destruct H as (r2 & e2 & -> & _). reflexivity.
  - rewrite H. reflexivity.
Qed.

(** A step succeeds as soon as one of its attempts is accepted. *)
Lemma attempts_accepted (m : EmailMessage) (name : string) (n : nat) :
  forall k w,
    (exists i, i <= n /\ SEB (sends w + i) m = None) ->
    fst (attempts name (send SEB m) n k w) = Ok tt.
Proof.
  induction n as [|n IH]; intros k w (i & Hi & Hacc); simpl; rewrite send_spec; simpl.
  - replace i with 0 in Hacc by lia. rewrite Nat.add_0_r in Hacc. now rewrite Hacc.
  - destruct (SEB (sends w) m) as [e|] eqn:E; [|reflexivity].
    apply IH. destruct i as [|i].
    + rewrite Nat.add_0_r in Hacc. congruence.
    + exists i. split; [lia|]. simpl.
      now replace (S (sends w + i)) with (sends w + S i) by lia.
Qed.





(** X1.  A workflow instance ends in the errored state exactly when the
    mail binding rejects the notification at each of the three attempts of
    the step [notify]: whatever happens to the step [send], the instance
    completes. *)
Theorem run_fails_only_when_notify_exhausted (env : Env) (p : Payload) (w : World) :
  status_of (fst (run SEB number_toString env p w)) = Errored
  <-> forall i, i <= limit retries ->
                SEB (sends w + i) (notification number_toString env p) <> None.
Proof.
  rewrite run_status. unfold step_do, notify. split.
  - intros H i Hi Hacc.
    rewrite (attempts_accepted _ "notify" (limit retries) 0 w) in H;
      [discriminate|]. now exists i.
  - intros H.
    destruct (attempts_exhausted SEB (notification number_toString env p) "notify"
                (limit retries) 0 w H) as (e & w' & -> & _).
    reflexivity.
Qed.

(** X2.  Whenever a run hands the secret message to the mail binding, the
    binding has accepted the notification to the owner before, and the run
    has slept the countdown before: both events stand in the trace ahead of
    that send. *)
Theorem secret_only_after_countdown (env : Env) (p : Payload) (w : World)
  (pre post : list Event) (o : option string) :
  trace (snd (run SEB number_toString env p w))
  = (trace w ++ pre ++ Mail (secret_message env p) o :: post)%list ->
  In (Mail (notification number_toString env p) None) pre
  /\ In (Sleep "sleep" (countdown env)) pre.
Proof.
  intros Hev.
  destruct (run_shape env p w) as (r1 & w1 & e1 & Hn & Ht1 & Hall1 & _ & Ha1 & H).
  destruct r1 as [[]|e].
  - destruct H as (r2 & e2 & _ & Ht & _).
    rewrite Ht, Ht1, <- app_assoc in Hev. apply app_inv_head in Hev.
    apply app_eq_app in Hev. destruct Hev as (l & [[H1 H2]|[H1 H2]]).
    + (* the secret message would stand among the events of notify *)
      destruct l as [|x l].
      * rewrite app_nil_r in H1. simpl in H2. discriminate H2.
      * simpl in H2. injection H2 as <- _.
        assert (In (Mail (secret_message env p) o) e1)
          by (rewrite H1; apply in_or_app; right; now left).
        apply (step_mails _ _ _ Hall1) in H. now elim (messages_differ env p).
    + destruct l as [|x l].
      * simpl in H2. discriminate H2.
      * simpl in H2. injection H2 as <- _. subst pre. split.
        -- apply in_or_app. left. now apply accepted_once_in with (name := "notify").
        -- apply in_or_app. right. now left.
  - rewrite H in Hev. cbn [snd] in Hev. rewrite Ht1 in Hev.
    apply app_inv_head in Hev.
    assert (In (Mail (secret_message env p) o) e1)
      by (rewrite Hev; apply in_or_app; right; now left).
    apply (step_mails _ _ _ Hall1) in H0. now elim (messages_differ env p).
Qed.

(** X3.  The events of a run split in two parts: in the first every message
    handed to the mail binding is the notification, in the second every one
    is the secret message.  Each part holds at most three sends, and at most
    one that the binding accepted: the retries never deliver a message
    twice. *)
Theorem run_delivers_at_most_once (env : Env) (p : Payload) (w : World) :
  exists e1 e2,
    trace (snd (run SEB number_toString env p w)) = (trace w ++ e1 ++ e2)%list
    /\ (forall m o, In (Mail m o) e1 -> m = notification number_toString env p)
    /\ (forall m o, In (Mail m o) e2 -> m = secret_message env p)
    /\ List.length (filter is_mail e1) <= S (limit retries)
    /\ List.length (filter is_mail e2) <= S (limit retries)
    /\ List.length (filter accepted e1) <= 1
    /\ List.length (filter accepted e2) <= 1.
Proof.
  destruct (run_shape env p w) as (r1 & w1 & e1 & Hn & Ht1 & Hall1 & Hm1 & Ha1 & H).
  assert (A1 : List.length (filter accepted e1) <= 1)
    by (rewrite Ha1; destruct r1; lia).
  destruct r1 as [[]|e].
  - destruct H as (r2 & e2 & _ & Ht & Hall2 & Hm2 & Ha2).
    exists e1, (Sleep "sleep" (countdown env) :: e2
                ++ match r2 with Ok _ => [] | Throw e => [ConsoleError e] end)%list.
    rewrite Ht, Ht1, <- app_assoc.
    split; [reflexivity|]. split; [now apply step_mails with (name := "notify")|].
    split.
    { intros m o [Hin|Hin]; [discriminate|].
      apply in_app_or in Hin. destruct Hin as [Hin|Hin].
      - now apply (step_mails _ _ _ Hall2) in Hin.
      - destruct r2; simpl in Hin; [contradiction|].
        destruct Hin as [Hin|[]]. discriminate. }
    split; [exact Hm1|]. cbn [filter is_mail accepted].
    rewrite !filter_app, !length_app.
    destruct r2 as [[]|e]; simpl in *; repeat split; lia.
  - exists e1, []. rewrite H. cbn [snd]. rewrite Ht1, app_nil_r.
    split; [reflexivity|]. split; [now apply step_mails with (name := "notify")|].
    split; [intros m o []|]. simpl in *. repeat split; lia.
Qed.

End RunFacts.


(** The wait for a few values of NOT_BEFORE_DAYS: a value that rounds to
    365 is kept, a value that rounds to zero is replaced by the default, a
    negative value is kept as it is, and so is minus infinity. *)
Example countdown_edges :
  Worker.countdown (Cases.waiting "365.00000000000000001") = JS.num 31536000000
  /\ Worker.countdown (Cases.waiting "365.0000000000001") = JS.num 604800000
  /\ Worker.countdown (Cases.waiting "1e-400") = JS.num 604800000
  /\ Worker.countdown (Cases.waiting "0.5") = JS.num 43200000
  /\ Worker.countdown (Cases.waiting "-1") = JS.num (-86400000)
  /\ Worker.countdown (Cases.waiting "-1e400") = JS.NegInf.
Proof. vm_compute. repeat split. Qed.

(** The secret message of the sample run comes after the accepted
    notification and the sleep. *)
Lemma secret_only_after_countdown_witness :
  In (Runtime.Mail (Worker.notification Sample.show Sample.env Sample.payload) None)
     [Runtime.Attempt "notify" 0;
      Runtime.Mail (Worker.notification Sample.show Sample.env Sample.payload) None;
      Runtime.Sleep "sleep" (Worker.countdown Sample.env);
      Runtime.Attempt "send" 0]
  /\ In (Runtime.Sleep "sleep" (Worker.countdown Sample.env))
        [Runtime.Attempt "notify" 0;
         Runtime.Mail (Worker.notification Sample.show Sample.env Sample.payload) None;
         Runtime.Sleep "sleep" (Worker.countdown Sample.env);
         Runtime.Attempt "send" 0].
Proof.
  apply (secret_only_after_countdown Sample.up Sample.show Sample.env Sample.payload
           Runtime.start _ [] None).
  vm_compute. reflexivity.
Defined.

(* ===================================================================== *)
(** ** What the handlers read from a message *)
(* ===================================================================== *)

Section MatchFacts.
Import JS Runtime Worker Observe.

Lemma span_spec (p : ascii -> bool) (l : list ascii) :
  l = (fst (span p l) ++ snd (span p l))%list
  /\ Forall (fun c => p c = true) (fst (span p l))
  /\ match snd (span p l) with [] => True | c :: _ => p c = false end.
Proof.
  induction l as [|c l (IH1 & IH2 & IH3)]; simpl.
  - repeat split; constructor.
  - destruct (p c) eqn:E.
    + destruct (span p l) as [a b]. simpl in *. repeat split.
      * now rewrite <- IH1.
      * now constructor.
      * exact IH3.
    + simpl. repeat split; [constructor|exact E].
Qed.

Lemma starts_with_spec (p l r : list ascii) :
  starts_with p l = Some r -> l = (p ++ r)%list.
Proof.
  revert l. induction p as [|a p IH]; intros l H; simpl in *.
  - now injection H as ->.
  - destruct l as [|b l]; [discriminate|].
    destruct (Ascii.eqb a b) eqn:E; [|discriminate].
    apply Ascii.eqb_eq in E. subst b. now rewrite (IH l H).
Qed.

Lemma length_chars (s : string) : List.length (chars s) = String.length s.
Proof. induction s; simpl; congruence. Qed.

Lemma decodeHex_go_length (l : list ascii) :
  List.length (decodeHex_go l) = Nat.div2 (S (List.length l)).
Proof.
  enough (H : List.length (decodeHex_go l) = Nat.div2 (S (List.length l))
              /\ forall a, List.length (decodeHex_go (a :: l))
                           = Nat.div2 (S (S (List.length l)))) by apply H.
  induction l as [|b l [IH1 IH2]].
  - split; [reflexivity|]. intros a. reflexivity.
  - split; [apply IH2|]. intros a. cbn [decodeHex_go List.length].
    rewrite IH1. reflexivity.
Qed.

(** X4.  [decodeHex] reads back the signature as [sendInvitationEmail]
    writes it: the text holds two characters a byte, all of them lower-case
    hexadecimal digits, and decodes to the bytes it was written from. *)
Theorem signature_text_round_trip (bs : list Byte.byte) :
  decodeHex (hex bs) = bs
  /\ String.length (hex bs) = 2 * List.length bs
  /\ Forall (fun c => is_lower_hex c = true) (chars (hex bs)).
Proof.
  destruct (hex_lower bs) as [H1 H2].
  split; [apply decodeHex_hex|]. split; [|exact H1].
  now rewrite <- length_chars.
Qed.

(** X5.  [decodeHex] yields [Math.ceil(str.length / 2)] bytes for any text,
    hexadecimal or not: one byte for every two characters, a last single
    character counting for one byte. *)
Theorem decodeHex_length (str : string) :
  List.length (decodeHex str) = Nat.div2 (S (String.length str)).
Proof. unfold decodeHex. now rewrite decodeHex_go_length, length_chars. Qed.

Lemma match_token_sound (l : list ascii) (t : string) :
  match_token l = Some t ->
  exists pre post,
    l = (pre ++ chars "iem-" ++ chars t ++ post)%list
    /\ 12 <= List.length (chars t)
    /\ Forall (fun c => is_lower_hex c = true) (chars t)
    /\ match post with [] => True | c :: _ => is_lower_hex c = false end.
Proof.
  induction l as [|c l IH]; intros H; [discriminate|].
  cbn [match_token] in H.
  destruct (starts_with (chars "iem-") (c :: l)) as [r|] eqn:E.
  - destruct (12 <=? List.length (fst (span is_lower_hex r))) eqn:L.
    + injection H as <-. apply starts_with_spec in E.
      destruct (span_spec is_lower_hex r) as (S1 & S2 & S3).
      exists [], (snd (span is_lower_hex r)). rewrite chars_text.
      split; [cbn [app]; rewrite E; now rewrite <- S1|].
      split; [now apply Nat.leb_le|]. split; assumption.
    + destruct (IH H) as (pre & post & -> & H1 & H2 & H3).
      exists (c :: pre), post. repeat split; assumption.
  - destruct (IH H) as (pre & post & -> & H1 & H2 & H3).
    exists (c :: pre), post. repeat split; assumption.
Qed.

(** X6.  The token [handleContactEmail] reads from a message stands in its
    text after [iem-], has at least twelve characters, all of them
    lower-case hexadecimal digits, and is the whole run of such digits:
    what follows it is not one. *)
Theorem token_read_from_text (m : Message) (token : string) :
  tokenMatch m = Some token ->
  exists body pre post,
    email_text m = Some body
    /\ chars body = (pre ++ chars "iem-" ++ chars token ++ post)%list
    /\ 12 <= String.length token
    /\ Forall (fun c => is_lower_hex c = true) (chars token)
    /\ match post with [] => True | c :: _ => is_lower_hex c = false end.
Proof.
  unfold tokenMatch. destruct (email_text m) as [body|]; [|discriminate].
  intros H. destruct (match_token_sound _ _ H) as (pre & post & E & H1 & H2 & H3).
  exists body, pre, post. rewrite <- length_chars. repeat split; assumption.
Qed.

Lemma address_in_cons (a : ascii) (l : list ascii) (c : string) :
  address_in l c -> address_in (a :: l) c.
Proof.
  intros (pre & post & loc & dom & -> & H).
  exists (a :: pre), post, loc, dom. split; [reflexivity|exact H].
Qed.

Lemma matchAll_addr_sound (l : list ascii) :
  forall skip, Forall (address_in l) (matchAll_addr skip l).
Proof.
  induction l as [|c l IH]; intros skip; [constructor|].
  assert (IH' : forall k, Forall (address_in (c :: l)) (matchAll_addr k l)).
  { intros k. eapply Forall_impl; [|apply IH]. intros x. apply address_in_cons. }
  cbn [matchAll_addr]. destruct skip as [|k]; [|apply IH'].
  destruct (span_spec is_addr (c :: l)) as (S1 & S2 & _).
  destruct (span is_addr (c :: l)) as [loc r]. cbn [fst snd] in S1, S2.
  destruct loc as [|x loc]; [apply IH'|].
  destruct r as [|a r']; [apply IH'|].
  destruct (Ascii.eqb a "@") eqn:E; [|apply IH'].
  apply Ascii.eqb_eq in E. subst a.
  destruct (span_spec is_addr r') as (D1 & D2 & _).
  destruct (fst (span is_addr r')) as [|d dom] eqn:Ed; [apply IH'|].
  constructor; [|apply IH'].
  exists [], (snd (span is_addr r')), (x :: loc), (d :: dom). rewrite chars_text.
  split.
  { rewrite S1. cbn [app]. rewrite <- ?app_assoc. cbn [app].
    rewrite D1 at 1. reflexivity. }
  split; [reflexivity|]. split; split; try assumption; discriminate.
Qed.

(** X7.  Every contact [handleOwnerEmail] extracts from the body stands in
    the body and is made of a non-empty local part, one [@] and a non-empty
    domain, both of letters, digits, [_], [.] and [-]; a body without [@]
    yields no contact. *)
Theorem contacts_read_from_text (body : string) :
  Forall (address_in (chars body)) (matchAll_addr 0 (chars body))
  /\ (~ In "@"%char (chars body) -> matchAll_addr 0 (chars body) = []).
Proof.
  split; [apply matchAll_addr_sound|].
  intros Hno. pose proof (matchAll_addr_sound (chars body) 0) as H.
  destruct (matchAll_addr 0 (chars body)) as [|c cs]; [reflexivity|].
  apply Forall_inv in H. destruct H as (pre & post & loc & dom & E & Ec & _).
  elim Hno. rewrite E, Ec. apply in_or_app. right. apply in_or_app. left.
  apply in_or_app. right. now left.
Qed.

(** X8.  The bytes that are signed determine the pair of contact and owner:
    two invitations have the same signed bytes exactly when they name the
    same contact and the same owner, whatever characters the addresses
    hold; in particular exchanging the two roles changes the bytes. *)
Theorem signed_text_determines_pair (c1 o1 c2 o2 : string) :
  (encode (invitation_data c1 o1) = encode (invitation_data c2 o2)
   <-> c1 = c2 /\ o1 = o2)
  /\ (encode (invitation_data c1 o1) = encode (invitation_data o1 c1)
      <-> c1 = o1).
Proof.
  split; split.
  - apply invitation_data_injective.
  - intros [-> ->]. reflexivity.
  - intros H. now apply invitation_data_injective in H.
  - intros ->. reflexivity.
Qed.

End MatchFacts.

(** The token of a short request. *)
Lemma token_read_from_text_witness :
  exists body pre post,
    Runtime.email_text Cases.short_request = Some body
    /\ JS.chars body = (pre ++ JS.chars "iem-" ++ JS.chars "0123456789ab" ++ post)%list
    /\ 12 <= String.length "0123456789ab"
    /\ Forall (fun c => Worker.is_lower_hex c = true) (JS.chars "0123456789ab")
    /\ match post with [] => True | c :: _ => Worker.is_lower_hex c = false end.
Proof.
  apply (token_read_from_text Cases.short_request).
  reflexivity.
Defined.

(* ===================================================================== *)
(** ** The mail handler, message by message *)
(* ===================================================================== *)

Section ContactFacts.
Import JS Runtime Worker Observe.

Variable SEB : Binding.
Variable REPLY : Binding.
Variable randomUUID : nat -> string.
Variable number_toString : number -> string.
Variable HMAC : list Byte.byte -> list Byte.byte -> list Byte.byte.
Variable SLEEP : Spawner.
Variable header_error : string.

Lemma mailed_app (a b : list Event) : mailed (a ++ b) = (mailed a ++ mailed b)%list.
Proof.
  induction a as [|ev a IH]; simpl; [reflexivity|].
  destruct ev; simpl; now rewrite ?IH.
Qed.

Lemma refusal_quiet (m : Message) :
  List.length (refusal m) <= 1
  /\ Forall (fun ev => exists s, ev = ConsoleError s) (refusal m).
Proof.
  unfold refusal. destruct (is_reply m); [split; [simpl; lia|constructor]|].
  destruct (tokenMatch m); (split; [simpl; lia|]); repeat constructor; eexists;
    reflexivity.
Qed.

(** A request is refused when it is a reply and, for a message that
    carries its [Message-ID], when it holds no token and when its token
    does not decode to the signature of the pair. *)
Lemma contact_refused (m : Message) (env : Env) (w : World) :
  (is_reply m = true
   \/ (message_id m <> None
       /\ (tokenMatch m = None
           \/ exists token,
                tokenMatch m = Some token
                /\ decodeHex token
                   <> sign HMAC env (invitation_data (msg_from m) (OWNER_EMAIL env))))) ->
  handleContactEmail REPLY randomUUID number_toString HMAC SLEEP header_error m env w
  = (Ok tt, {| sends := sends w; replies := replies w; uuids := uuids w;
               trace := (trace w ++ refusal m)%list |}).
Proof.
  intros H. rewrite contact_request_run. unfold refusal.
  destruct (is_reply m).
  { rewrite app_nil_r. now destruct w. }
  destruct H as [H|(Hid & H)]; [discriminate|].
  destruct (message_id m) as [mid|]; [|now elim Hid].
  destruct H as [H|(token & Ht & Hs)].
  - rewrite H. reflexivity.
  - rewrite Ht. destruct (verify HMAC env _ _) eqn:Ev; [|reflexivity].
    apply (verify_true HMAC) in Ev. now elim Hs.
Qed.

(** X9.  A request that is no reply, carries its [Message-ID], and whose
    token decodes to the signature of (its sender, the owner) asks the
    workflow binding for an instance under a fresh identifier, for the
    sender and the domain of the address written to.  When the binding
    creates it, the answer that names that identifier is sent with
    [message.reply], once, a rejected reply is logged, and the handler
    returns normally; when the binding rejects the request, the handler
    throws that error and nothing is sent. *)
Theorem request_accepted (m : Message) (env : Env) (w : World)
  (mid token : string) :
  is_reply m = false ->
  message_id m = Some mid ->
  tokenMatch m = Some token ->
  decodeHex token = sign HMAC env (invitation_data (msg_from m) (OWNER_EMAIL env)) ->
  handleContactEmail REPLY randomUUID number_toString HMAC SLEEP header_error m env w
  = match SLEEP (S (uuids w)) (randomUUID (uuids w)) (msg_from m)
            (split_second "@" (msg_to m)) with
    | None =>
        (Ok tt,
         {| sends := sends w; replies := S (replies w); uuids := S (uuids w);
            trace :=
              (trace w
               ++ Create (randomUUID (uuids w)) (msg_from m)
                    (split_second "@" (msg_to m))
               :: Reply (scheduled_answer number_toString m mid env
                           (randomUUID (uuids w)))
                    (REPLY (replies w)
                       (scheduled_answer number_toString m mid env
                          (randomUUID (uuids w))))
               :: match REPLY (replies w)
                          (scheduled_answer number_toString m mid env
                             (randomUUID (uuids w)))
                  with
                  | None => []
                  | Some e => [ConsoleError e]
                  end)%list |})
    | Some e =>
        (Throw e,
         {| sends := sends w; replies := replies w; uuids := S (uuids w);
            trace := trace w |})
    end.
Proof.
  intros Hr Hid Ht Hs. rewrite contact_request_run, Hr, Hid, Ht.
  symmetry in Hs. apply (verify_true HMAC) in Hs. rewrite Hs. reflexivity.
Qed.

(** X10.  A request that is refused (a reply or, for a message that
    carries its [Message-ID], a text without token or a token that does not
    decode to the signature of the pair) is refused without a word to its
    sender: the handler returns normally, and leaves at most one event, an
    error line of the console; no message is sent or replied and no
    workflow is created. *)
Theorem request_refused_silently (m : Message) (env : Env) (w : World) :
  (is_reply m = true
   \/ (message_id m <> None
       /\ (tokenMatch m = None
           \/ exists token,
                tokenMatch m = Some token
                /\ decodeHex token
                   <> sign HMAC env (invitation_data (msg_from m) (OWNER_EMAIL env))))) ->
  fst (handleContactEmail REPLY randomUUID number_toString HMAC SLEEP header_error
         m env w) = Ok tt
  /\ trace (snd (handleContactEmail REPLY randomUUID number_toString HMAC SLEEP
                   header_error m env w))
     = (trace w ++ refusal m)%list
  /\ List.length (refusal m) <= 1
  /\ Forall (fun ev => exists s, ev = ConsoleError s) (refusal m).
Proof.
  intros H. rewrite (contact_refused m env w H). cbn [fst snd trace].
  split; [reflexivity|]. split; [reflexivity|apply refusal_quiet].
Qed.

(** X11.  The pattern accepts a token of twelve hexadecimal digits, but a
    signature of 32 bytes is written with 64: in a message that carries its
    [Message-ID], a token of fewer than 63 or more than 64 characters
    decodes to another number of bytes, and is refused whatever the
    secret. *)
Theorem short_signature_refused (m : Message) (env : Env) (w : World)
  (token : string) :
  (forall key data, List.length (HMAC key data) = 32) ->
  message_id m <> None ->
  tokenMatch m = Some token ->
  String.length token < 63 \/ 64 < String.length token ->
  trace (snd (handleContactEmail REPLY randomUUID number_toString HMAC SLEEP
                header_error m env w))
  = (trace w ++ refusal m)%list
  /\ created (refusal m) = [].
Proof.
  intros H32 Hid Ht Hlen. split.
  - rewrite contact_refused; [reflexivity|].
    right. split; [exact Hid|]. right. exists token. split; [exact Ht|].
    intros E. apply (f_equal (@List.length _)) in E.
    unfold sign, decodeHex in E.
    rewrite H32, decodeHex_go_length, length_chars in E.
    destruct Hlen as [Hlen|Hlen].
    + assert (Nat.div2 (S (String.length token)) <= Nat.div2 63)
        by (apply Nat.div2_le_mono; lia).
      change (Nat.div2 63) with 31 in H. lia.
    + assert (Nat.div2 66 <= Nat.div2 (S (String.length token)))
        by (apply Nat.div2_le_mono; lia).
      change (Nat.div2 66) with 33 in H. lia.
  - unfold refusal. destruct (is_reply m); [reflexivity|].
    rewrite Ht. reflexivity.
Qed.

(** X12.  Only the owner makes the worker send mail through [env.SEB]: a
    message of any other sender hands no message to that binding, neither
    an invitation nor a status report. *)
Theorem only_owner_invites (m : Message) (env : Env) (w : World) :
  msg_from m <> OWNER_EMAIL env ->
  mailed (trace (snd (email SEB REPLY randomUUID number_toString HMAC SLEEP
                        header_error m env w)))
  = mailed (trace w).
Proof.
  intros H. unfold email. apply String.eqb_neq in H. rewrite H.
  rewrite contact_request_run.
  destruct (is_reply m); [reflexivity|].
  destruct (message_id m) as [mid|]; [|reflexivity].
  destruct (tokenMatch m) as [token|].
  2:{ cbn [snd emit trace]. rewrite mailed_app. cbn [mailed]. apply app_nil_r. }
  destruct (verify HMAC env _ _).
  2:{ cbn [snd emit trace]. rewrite mailed_app. cbn [mailed]. apply app_nil_r. }
  destruct (SLEEP _ _ _ _); [reflexivity|].
  cbv zeta. cbn [snd trace]. rewrite mailed_app. cbn [mailed].
  destruct (REPLY _ _); cbn [mailed]; apply app_nil_r.
Qed.

End ContactFacts.

(** The token of the sample request is the signature of its invitation. *)
Lemma sample_signature_found :
  Worker.tokenMatch Sample.request
  = Some (Worker.invitation_signature Sample.mac Sample.env "owner@x.com" "a@b.c").
Proof.
  pose proof (match_token_signature
                (Worker.sign Sample.mac Sample.env
                   (Worker.invitation_data "a@b.c" "owner@x.com"))
                EmptyString) as H.
  rewrite append_empty in H. apply H.
  - unfold Worker.sign. rewrite mac_length. lia.
  - exact I.
Qed.

(** The sample request is accepted: one instance, one answer. *)
Lemma request_accepted_witness :
  Worker.handleContactEmail Sample.up Sample.uuid Sample.show Sample.mac
    Sample.spawn Sample.header_error Sample.request Sample.env Runtime.start
  = (Runtime.Ok tt,
     {| Runtime.sends := 0; Runtime.replies := 1; Runtime.uuids := 1;
        Runtime.trace :=
          [Runtime.Create (Sample.uuid 0) "a@b.c" (Some "x.com");
           Runtime.Reply
             (Observe.scheduled_answer Sample.show Sample.request "<1@b.c>"
                Sample.env (Sample.uuid 0)) None] |}).
Proof.
  apply (request_accepted Sample.up Sample.uuid Sample.show Sample.mac
           Sample.spawn Sample.header_error Sample.request Sample.env
           Runtime.start "<1@b.c>"
           (Worker.invitation_signature Sample.mac Sample.env "owner@x.com" "a@b.c")).
  - reflexivity.
  - reflexivity.
  - exact sample_signature_found.
  - apply decodeHex_hex.
Defined.

(** A request without a token is refused with one error line. *)
Lemma request_refused_silently_witness :
  fst (Worker.handleContactEmail Sample.up Sample.uuid Sample.show Sample.mac
         Sample.spawn Sample.header_error Cases.plain_request Sample.env
         Runtime.start) = Runtime.Ok tt
  /\ Runtime.trace
       (snd (Worker.handleContactEmail Sample.up Sample.uuid Sample.show Sample.mac
               Sample.spawn Sample.header_error Cases.plain_request Sample.env
               Runtime.start))
     = [Runtime.ConsoleError "No token found in the email body"].
Proof.
  destruct (request_refused_silently Sample.up Sample.uuid Sample.show Sample.mac
              Sample.spawn Sample.header_error Cases.plain_request Sample.env
              Runtime.start)
    as (H1 & H2 & _).
  - right. split; [discriminate|]. left. reflexivity.
  - split; [exact H1|exact H2].
Defined.

(** A token of twelve digits is refused. *)
Lemma short_signature_refused_witness :
  Runtime.trace
    (snd (Worker.handleContactEmail Sample.up Sample.uuid Sample.show Sample.mac
            Sample.spawn Sample.header_error Cases.short_request Sample.env
            Runtime.start))
  = [Runtime.ConsoleError "Invalid token signature"]
  /\ Worker.created (Observe.refusal Cases.short_request) = [].
Proof.
  apply (short_signature_refused Sample.up Sample.uuid Sample.show Sample.mac
           Sample.spawn Sample.header_error Cases.short_request Sample.env
           Runtime.start "0123456789ab").
  - exact mac_length.
  - discriminate.
  - reflexivity.
  - left. simpl. lia.
Defined.

(** The sample request, which is not the owner's, sends nothing through
    [env.SEB]. *)
Lemma only_owner_invites_witness :
  Worker.mailed
    (Runtime.trace
       (snd (Worker.email Sample.up Sample.up Sample.uuid Sample.show Sample.mac
               Sample.spawn Sample.header_error Sample.request Sample.env
               Runtime.start)))
  = [].
Proof.
  apply (only_owner_invites Sample.up Sample.up Sample.uuid Sample.show Sample.mac
           Sample.spawn Sample.header_error Sample.request Sample.env
           Runtime.start).
  discriminate.
Defined.

Section OwnerFacts.
Import JS Runtime Worker Observe.

Variable SEB : Binding.
Variable REPLY : Binding.
Variable HMAC : list Byte.byte -> list Byte.byte -> list Byte.byte.
Variable header_error : string.

(** X13.  A message of the owner that is a reply, or that carries its
    [Message-ID] and has no text or a subject that does not mention an
    invitation, has no effect beyond the console: nothing is sent or
    replied, the counters of the bindings are unchanged, and the handler
    returns normally; an error line is logged for a reply and for an
    invitation without a text only. *)
Theorem owner_message_ignored (m : Message) (env : Env) (w : World) :
  (is_reply m = true
   \/ (message_id m <> None
       /\ (email_text m = None
           \/ match email_subject m with
              | Some subj => invite_subject subj = false
              | None => True
              end))) ->
  handleOwnerEmail SEB REPLY HMAC header_error m env w
  = (Ok tt, {| sends := sends w; replies := replies w; uuids := uuids w;
               trace := (trace w ++ ignored m)%list |}).
Proof.
  unfold handleOwnerEmail, ignored, console_error, emit.
  destruct (is_reply m); [reflexivity|].
  intros [H|(Hid & H)]; [discriminate|].
  destruct (message_id m) as [mid|]; [|now elim Hid].
  unfold setHeader, bind, ret.
  destruct H as [H|H].
  - rewrite H. destruct (email_subject m) as [subj|];
      [destruct (invite_subject subj)|]; rewrite ?app_nil_r; destruct w; reflexivity.
  - destruct (email_subject m) as [subj|]; [rewrite H|];
      rewrite app_nil_r; destruct w; reflexivity.
Qed.

(** X14.  A message of the owner that is no reply, carries its
    [Message-ID], has a text, and whose subject mentions an invitation, is
    handled without an error: one invitation is sent to each address of the
    text, in the order of the text, then the status report, whose one text
    holds one result for each address, is handed to [env.SEB]; and then
    nothing when the binding accepts the report, an error line when it
    rejects it, except that for an error that mentions [verified] the same
    report is sent again through [message.reply]: the warning the handler
    adds for that case is a second text, which is not rendered. *)
Theorem owner_invite_answered (m : Message) (env : Env) (w : World)
  (mid subj body : string) :
  is_reply m = false ->
  message_id m = Some mid ->
  email_subject m = Some subj ->
  invite_subject subj = true ->
  email_text m = Some body ->
  exists results evs,
    fst (invite_all SEB HMAC m env (matchAll_addr 0 (chars body)) w) = Ok results
    /\ List.length results = List.length (matchAll_addr 0 (chars body))
    /\ mailed evs = matchAll_addr 0 (chars body)
    /\ List.length evs = List.length (matchAll_addr 0 (chars body))
    /\ parts (raw (status_report m mid subj (matchAll_addr 0 (chars body)) results))
       = ["We've tried to send out the invitation emails to the contacts you provided."
            ++ newline ++ "Email status:" ++ newline
            ++ report (matchAll_addr 0 (chars body)) results
            ++ newline ++ "Inactive Email Manager"]
    /\ fst (handleOwnerEmail SEB REPLY HMAC header_error m env w) = Ok tt
    /\ trace (snd (handleOwnerEmail SEB REPLY HMAC header_error m env w))
       = (trace w ++ evs
          ++ Mail (status_report m mid subj (matchAll_addr 0 (chars body)) results)
               (SEB (sends w + List.length (matchAll_addr 0 (chars body)))
                    (status_report m mid subj (matchAll_addr 0 (chars body))
                       results))
          :: follow_up REPLY w
               (status_report m mid subj (matchAll_addr 0 (chars body)) results)
               (SEB (sends w + List.length (matchAll_addr 0 (chars body)))
                    (status_report m mid subj (matchAll_addr 0 (chars body))
                       results)))%list.
Proof.
  intros Hr Hid Hs Hi Hb. unfold handleOwnerEmail. rewrite Hr, Hid, Hs, Hi, Hb.
  unfold setHeader, bind, ret.
  destruct (invite_all_spec SEB HMAC m env (matchAll_addr 0 (chars body)) w)
    as (results & evs & Hrun & Hlr & Hle & Hm & _ & _).
  exists results, evs. rewrite Hrun. cbn [fst].
  split; [reflexivity|]. split; [exact Hlr|]. split; [exact Hm|].
  split; [exact Hle|]. split; [reflexivity|].
  unfold try_catch. rewrite send_spec.
  cbn [fst snd sends replies uuids trace].
  change {| from := msg_to m; to := msg_from m;
            raw := asRaw
                     (addMessage
                        "Warning: The email address is not verified. You must verify the email first."
                        ?[x]) |}
    with (status_report m mid subj (matchAll_addr 0 (chars body)) results).
  fold (status_report m mid subj (matchAll_addr 0 (chars body)) results).
  unfold follow_up.
  destruct (SEB _ _) as [e|].
  - destruct (includes e "verified").
    + rewrite (reply_spec REPLY). cbn [fst snd sends replies uuids trace].
      destruct (REPLY _ _) as [e2|]; cbn [settled].
      * unfold console_error, emit. cbn [fst snd trace].
        rewrite <- !app_assoc. split; reflexivity.
      * cbn [fst snd trace]. rewrite <- !app_assoc. split; reflexivity.
    + unfold throw, console_error, emit. cbn [fst snd trace].
      rewrite <- !app_assoc. split; reflexivity.
  - cbn [fst snd trace]. rewrite <- !app_assoc. split; reflexivity.
Qed.

End OwnerFacts.

(** A greeting of the owner leaves the world as it was. *)
Lemma owner_message_ignored_witness :
  Worker.handleOwnerEmail Sample.up Sample.up Sample.mac Sample.header_error
    Cases.greeting Sample.env Runtime.start
  = (Runtime.Ok tt, Runtime.start).
Proof.
  apply (owner_message_ignored Sample.up Sample.up Sample.mac Sample.header_error
           Cases.greeting Sample.env Runtime.start).
  right. split; [discriminate|]. right. reflexivity.
Defined.

(** The owner invites two contacts: two invitations, then the report. *)
Lemma owner_invite_answered_witness :
  exists results evs,
    List.length results = 2
    /\ Worker.mailed evs = ["c1@y.com"; "c2@y.com"]
    /\ fst (Worker.handleOwnerEmail Sample.up Sample.up Sample.mac
              Sample.header_error Cases.invite Sample.env Runtime.start)
       = Runtime.Ok tt
    /\ Runtime.trace
         (snd (Worker.handleOwnerEmail Sample.up Sample.up Sample.mac
                 Sample.header_error Cases.invite Sample.env Runtime.start))
       = (evs ++ [Runtime.Mail
                    (Observe.status_report Cases.invite "<7@x.com>" "Invite"
                       ["c1@y.com"; "c2@y.com"] results)
                    None])%list.
Proof.
  destruct (owner_invite_answered Sample.up Sample.up Sample.mac
              Sample.header_error Cases.invite Sample.env Runtime.start
              "<7@x.com>" "Invite" "c1@y.com c2@y.com"
              eq_refl eq_refl eq_refl eq_refl eq_refl)
    as (results & evs & _ & Hl & Hm & _ & _ & Hf & Ht).
  exists results, evs. split; [exact Hl|]. split; [exact Hm|].
  split; [exact Hf|exact Ht].
Defined.

(* ===================================================================== *)
(** ** The token worker, message by message *)
(* ===================================================================== *)

Section DayFacts.
Import JS Runtime.

Lemma in_seconds_mono (x y : number) :
  le x y = true -> le (Vault.in_seconds x) (Vault.in_seconds y) = true.
Proof.
  intros H. unfold Vault.in_seconds, num.
  repeat (apply mul_mono; [reflexivity|]). exact H.
Qed.

(** Adding the literal [0.03] never makes a binary64 number smaller. *)
Lemma add_003_ge (x : number) :
  is_double x -> isNaN x = false -> le x (add x (round64 (3 # 100))) = true.
Proof.
  intros D N. destruct literal_003 as (c & -> & C1 & _).
  destruct x as [| | |q]; try discriminate; try reflexivity.
  cbn [add]. cbn [is_double] in D. rewrite <- D at 1.
  apply round64_mono. lra.
Qed.

(** X15.  Whatever the configuration holds, the waiting period
    [createToken] uses is at most 3650 days, and the expiration period is
    at least the binary64 sum of the waiting period and the literal [0.03]
    and at most the binary64 sum of 3650 and that literal; so, for an
    issuance time in the range of [Date], the [nbf] of the claims never
    exceeds their [exp], and [exp] lies at most 315362592 seconds after the
    second of the issuance. *)
Theorem day_parameters_bounded (now : Z) (identity : string) (env : Vault.Env) :
  (Z.abs now <= 8640000000000000)%Z ->
  le (Vault.notBeforeDays env) (num 3650) = true
  /\ le (add (Vault.notBeforeDays env) (round64 (3 # 100))) (Vault.expirationDays env)
     = true
  /\ le (Vault.expirationDays env) (add (num 3650) (round64 (3 # 100))) = true
  /\ le (Vault.nbf (Vault.claims now identity env))
        (Vault.exp (Vault.claims now identity env)) = true
  /\ le (Vault.exp (Vault.claims now identity env))
        (add (Vault.second now) (num 315362592)) = true.
Proof.
  intros Hnow.
  destruct (notBeforeDays_le env) as [DN LN].
  pose proof (proj1 (le_not_NaN _ _ LN)) as NN.
  destruct (vault_days (Vault.EXPIRATION_DAYS env)) as [_ LE0].
  assert (LE : le (or_else (Vault.parseDays (Vault.EXPIRATION_DAYS env)) (num 7))
                  (num 3650) = true)
    by (apply or_else_le; [exact LE0|reflexivity]).
  pose proof (proj1 (le_not_NaN _ _ LE)) as NE.
  pose proof (add_003_ge _ DN NN) as LA.
  pose proof (proj2 (le_not_NaN _ _ LA)) as NA.
  assert (L2 : le (add (Vault.notBeforeDays env) (round64 (3 # 100)))
                  (Vault.expirationDays env) = true)
    by (unfold Vault.expirationDays; apply le_max_r; assumption).
  assert (L3 : le (Vault.expirationDays env) (add (num 3650) (round64 (3 # 100)))
               = true).
  { unfold Vault.expirationDays. apply max_le.
    - apply le_trans with (num 3650); [exact LE|vm_compute; reflexivity].
    - destruct literal_003 as (c & -> & _). apply add_mono_l. exact LN. }
  destruct (second_range now Hnow) as (k & Hk & _).
  assert (V : Vault.in_seconds (add (num 3650) (round64 (3 # 100))) = num 315362592)
    by (vm_compute; reflexivity).
  split; [exact LN|]. split; [exact L2|]. split; [exact L3|].
  unfold Vault.claims. cbn [Vault.nbf Vault.exp]. rewrite Hk. split.
  - apply add_mono, in_seconds_mono.
    apply le_trans with (add (Vault.notBeforeDays env) (round64 (3 # 100)));
      assumption.
  - rewrite <- V. apply add_mono, in_seconds_mono. exact L3.
Qed.

End DayFacts.

(** The bounds, for the default configuration. *)
Lemma day_parameters_bounded_witness :
  JS.le (Vault.notBeforeDays Sample.vault_default) (JS.num 3650) = true
  /\ JS.le (Vault.nbf Sample.default_claims) (Vault.exp Sample.default_claims) = true
  /\ JS.le (Vault.exp Sample.default_claims)
        (JS.add (Vault.second Sample.now) (JS.num 315362592)) = true.
Proof.
  destruct (day_parameters_bounded Sample.now "a@x.com" Sample.vault_default)
    as (H1 & _ & _ & H4 & H5).
  - vm_compute. discriminate.
  - split; [exact H1|]. split; [exact H4|exact H5].
Defined.

Section BracketFacts.
Import JS Runtime Vault Observe.

(** X16.  The token the [email] handler reads from a text stands in it
    between [[ ] and [ ]], is not empty and holds only letters, digits,
    [_], [.] and [-]. *)
Theorem bracket_token_stands_in_text (l : list ascii) (t : string) :
  match_bracket l = Some t ->
  exists pre post,
    l = (pre ++ chars "[ " ++ chars t ++ chars " ]" ++ post)%list
    /\ t <> EmptyString
    /\ Forall (fun c => is_token_char c = true) (chars t).
Proof.
  induction l as [|c l IH]; intros H; [discriminate|].
  cbn [match_bracket] in H.
  assert (Rec : match_bracket l = Some t ->
                exists pre post,
                  (c :: l) = (pre ++ chars "[ " ++ chars t ++ chars " ]" ++ post)%list
                  /\ t <> EmptyString
                  /\ Forall (fun c => is_token_char c = true) (chars t)).
  { intros H'. destruct (IH H') as (pre & post & -> & H1 & H2).
    exists (c :: pre), post. repeat split; assumption. }
  destruct (starts_with (chars "[ ") (c :: l)) as [r|] eqn:E; [|now apply Rec].
  destruct (span_spec is_token_char r) as (S1 & S2 & _).
  destruct (span is_token_char r) as [run rest]. cbn [fst snd] in S1, S2.
  destruct run as [|x run]; [now apply Rec|].
  destruct (starts_with (chars " ]") rest) as [post|] eqn:E2; [|now apply Rec].
  assert (Ht : t = text (x :: run)) by congruence.
  apply starts_with_spec in E, E2.
  exists [], post. rewrite Ht, chars_text. cbn [app].
  split; [rewrite E, S1, E2; reflexivity|]. split; [discriminate|exact S2].
Qed.

(** The first bracketed token of a text is found when no [[] stands before
    it. *)
Lemma match_bracket_found (token : string) (post : list ascii) :
  token <> EmptyString ->
  Forall (fun c => is_token_char c = true) (chars token) ->
  forall pre,
    ~ In "["%char pre ->
    match_bracket (pre ++ chars "[ " ++ chars token ++ chars " ]" ++ post)
    = Some token.
Proof.
  intros Hne Hall. induction pre as [|c pre IH]; intros Hpre.
  - cbn [app chars match_bracket starts_with Ascii.eqb Bool.eqb].
    rewrite span_run; [| exact Hall | reflexivity].
    destruct (chars token) as [|x run] eqn:Et.
    + destruct token; [now elim Hne|discriminate].
    + cbn [chars app starts_with Ascii.eqb Bool.eqb].
      now rewrite <- Et, text_chars.
  - cbn [app match_bracket].
    replace (starts_with (chars "[ ") (c :: (pre ++ chars "[ " ++ chars token ++ chars " ]" ++ post)%list))
      with (@None (list ascii)).
    + apply IH. intros Hin. apply Hpre. now right.
    + cbn [chars starts_with]. destruct (Ascii.eqb "[" c) eqn:E; [|reflexivity].
      apply Ascii.eqb_eq in E. elim Hpre. now left.
Qed.

(** [replaceAll] leaves a text alone when the first character of the
    pattern does not occur in it. *)
Lemma replaceAll_go_absent (a : ascii) (p rep l : list ascii) :
  ~ In a l -> forall seen, replaceAll_go (a :: p) rep seen 0 l = l.
Proof.
  induction l as [|c l IH]; intros Hno seen; [reflexivity|].
  cbn [replaceAll_go starts_with].
  destruct (Ascii.eqb a c) eqn:E.
  - apply Ascii.eqb_eq in E. elim Hno. now left.
  - rewrite IH; [reflexivity|]. intros Hin. apply Hno. now right.
Qed.

Lemma token_chars_no_amp (l : list ascii) :
  Forall (fun c => is_token_char c = true) l -> ~ In "&"%char l.
Proof.
  intros H Hin. rewrite Forall_forall in H. apply H in Hin. discriminate Hin.
Qed.

(** X17.  A text that holds [[ token ]] is read as that token, provided the
    token is not empty and made of letters, digits, [_], [.] and [-], no
    [[] stands before it and no [&] around it: so is the answer to a token
    request, sent back as it is or quoted in a longer text. *)
Theorem issued_token_read_back (m : Message) (pre token post : string) :
  email_text m = Some (pre ++ "[ " ++ token ++ " ]" ++ post) ->
  token <> EmptyString ->
  Forall (fun c => is_token_char c = true) (chars token) ->
  ~ In "["%char (chars pre) ->
  ~ In "&"%char (chars pre) ->
  ~ In "&"%char (chars post) ->
  match_bracket (chars (searched m)) = Some token.
Proof.
  intros Ht Hne Hall Hb Hp Hq.
  assert (E : chars (pre ++ "[ " ++ token ++ " ]" ++ post)
              = (chars pre ++ chars "[ " ++ chars token ++ chars " ]"
                 ++ chars post)%list)
    by now rewrite !chars_app.
  assert (S : searched m = pre ++ "[ " ++ token ++ " ]" ++ post).
  { unfold searched, replaceAll. rewrite Ht.
    assert (O : or_string (Some (pre ++ "[ " ++ token ++ " ]" ++ post)) ""
                = pre ++ "[ " ++ token ++ " ]" ++ post).
    { unfold or_string.
      destruct (pre ++ "[ " ++ token ++ " ]" ++ post) eqn:D; [|reflexivity].
      destruct (chars pre); cbn in E; discriminate E. }
    rewrite O. change (chars "&nbsp;") with ("&"%char :: chars "nbsp;").
    rewrite replaceAll_go_absent; [apply text_chars|].
    rewrite E. intros Hin.
    apply in_app_or in Hin. destruct Hin as [Hin|Hin]; [now apply Hp|].
    apply in_app_or in Hin. destruct Hin as [Hin|Hin].
    { destruct Hin as [Hin|[Hin|[]]]; discriminate Hin. }
    apply in_app_or in Hin. destruct Hin as [Hin|Hin];
      [now apply (token_chars_no_amp _ Hall)|].
    apply in_app_or in Hin. destruct Hin as [Hin|Hin]; [|now apply Hq].
    destruct Hin as [Hin|[Hin|[]]]; discriminate Hin. }
  rewrite S, E. now apply match_bracket_found.
Qed.

End BracketFacts.

(** The token of the stale submission. *)
Lemma bracket_token_stands_in_text_witness :
  exists pre post,
    JS.chars "Here it is: [ abc.def.ghi ]"
    = (pre ++ JS.chars "[ " ++ JS.chars "abc.def.ghi" ++ JS.chars " ]" ++ post)%list
    /\ "abc.def.ghi" <> EmptyString
    /\ Forall (fun c => Vault.is_token_char c = true) (JS.chars "abc.def.ghi").
Proof.
  apply (bracket_token_stands_in_text (JS.chars "Here it is: [ abc.def.ghi ]")).
  reflexivity.
Defined.

(** The token of the sample library is read from its submission. *)
Lemma issued_token_read_back_witness :
  Vault.match_bracket (JS.chars (Observe.searched Cases.submission))
  = Some "eyJhbGciOiJIUzI1NiJ9.e30.c2ln".
Proof.
  apply (issued_token_read_back Cases.submission EmptyString
           "eyJhbGciOiJIUzI1NiJ9.e30.c2ln" EmptyString).
  - reflexivity.
  - discriminate.
  - repeat constructor.
  - intros [].
  - intros [].
  - intros [].
Defined.

Section MailFacts.
Import JS Runtime Vault Observe Http.

Variable OWNER : Binding.
Variable REPLY : Binding.
Variable number_toString : number -> string.
Variable toUTCString : number -> string.
Variable jwt : Jwt.
Variable header_error : string.

(** [createToken], as a whole: one send, and the token or the error
    response by its outcome. *)
Lemma createToken_run (now : Z) (identity : string) (domain : option string)
  (env : Env) (w : World) :
  createToken OWNER number_toString jwt now identity domain env w
  = (Ok (match OWNER (sends w) (notification number_toString identity domain env) with
         | None => Token (jwt_sign jwt (claims now identity env) (SECRET env))
         | Some e => Response e 500
         end),
     {| sends := S (sends w); replies := replies w; uuids := uuids w;
        trace := (trace w
                  ++ [Mail (notification number_toString identity domain env)
                        (OWNER (sends w)
                           (notification number_toString identity domain env))])%list |}).
Proof.
  unfold createToken, bind, try_catch, ret. rewrite send_spec.
  destruct (OWNER (sends w) _); reflexivity.
Qed.

Lemma whitelisted_false (env : Env) (sender : string) :
  whitelisted env sender = false
  <-> exists wl, CONTACT_WHITELIST env = Some wl /\ wl <> EmptyString
                 /\ ~ In sender (split "," wl).
Proof.
  unfold whitelisted. split.
  - destruct (CONTACT_WHITELIST env) as [[|c wl]|]; try discriminate.
    intros H. exists (String c wl). split; [reflexivity|]. split; [discriminate|].
    intros Hin. apply Bool.not_true_iff_false in H. apply H.
    apply existsb_exists. exists sender. split; [exact Hin|apply String.eqb_refl].
  - intros (wl & -> & Hne & Hin). destruct wl as [|c wl]; [now elim Hne|].
    apply Bool.not_true_iff_false. intros H. apply existsb_exists in H.
    destruct H as (x & Hx & E). apply String.eqb_eq in E. subst x. now elim Hin.
Qed.

(** X18.  A reply, and a message whose sender is not one of the pieces of a
    non-empty [CONTACT_WHITELIST] cut at its commas, is dropped: the
    handler returns normally and the world is as it was, nothing sent,
    replied or logged. *)
Theorem unlisted_sender_dropped (now : Z) (m : Message) (env : Env) (w : World) :
  (is_reply m = true
   \/ exists wl, CONTACT_WHITELIST env = Some wl /\ wl <> EmptyString
                 /\ ~ In (msg_from m) (split "," wl)) ->
  email OWNER REPLY number_toString toUTCString jwt header_error now m env w = (Ok tt, w).
Proof.
  intros H. unfold email.
  destruct (whitelisted env (msg_from m)) eqn:Ew; cbn [negb]; [|reflexivity].
  destruct H as [->|H]; [reflexivity|].
  apply whitelisted_false in H. congruence.
Qed.

(** X19.  A listed sender who submits, in a message that carries its
    [Message-ID], a token that verifies gets the vault content, and nothing
    else happens: the token is logged, the content is sent with
    [message.reply], once, the owner is not notified, and the handler ends
    as the reply does. *)
Theorem verified_token_releases (now : Z) (m : Message) (env : Env) (w : World)
  (mid token : string) :
  whitelisted env (msg_from m) = true ->
  is_reply m = false ->
  message_id m = Some mid ->
  match_bracket (chars (searched m)) = Some token ->
  jwt_verify jwt token (SECRET env) now = None ->
  email OWNER REPLY number_toString toUTCString jwt header_error now m env w
  = (settled (REPLY (replies w) (vault_reply m mid (VAULT_CONTENT env))),
     {| sends := sends w; replies := S (replies w); uuids := uuids w;
        trace := (trace w
                  ++ [ConsoleLog token;
                      Reply (vault_reply m mid (VAULT_CONTENT env))
                        (REPLY (replies w) (vault_reply m mid (VAULT_CONTENT env)))])%list |}).
Proof.
  intros Hw Hr Hid Hm Hv. unfold email, searched in *. rewrite Hw, Hr, Hid.
  cbn [negb]. rewrite Hm. unfold setHeader, bind, console_log, ret, emit.
  cbn [fst snd sends replies uuids trace].
  rewrite reply_spec. cbn [fst snd sends replies uuids trace].
  unfold answer. rewrite Hv. fold (vault_reply m mid (VAULT_CONTENT env)).
  now rewrite <- app_assoc.
Qed.

(** X20.  A listed sender whose message carries its [Message-ID] and whose
    text holds no bracketed token asks for one: the text is logged, the
    notification for that sender is handed to [env.OWNER], and the answer is
    sent with [message.reply] in every case;
    it holds [[ token ]] with the signed token when the notification was
    accepted, and [[ [object Response] ]] when it was rejected.  The handler
    ends as the reply does. *)
Theorem token_request_notifies_owner (now : Z) (m : Message) (env : Env) (w : World)
  (mid : string) :
  whitelisted env (msg_from m) = true ->
  is_reply m = false ->
  message_id m = Some mid ->
  match_bracket (chars (searched m)) = None ->
  let note := notification number_toString (msg_from m)
                (split_second "@" (msg_to m)) env in
  let text :=
    "[ " ++ match OWNER (sends w) note with
            | None => jwt_sign jwt (claims now (msg_from m) env) (SECRET env)
            | Some _ => "[object Response]"
            end ++ " ]" in
  email OWNER REPLY number_toString toUTCString jwt header_error now m env w
  = (settled (REPLY (replies w) (vault_reply m mid text)),
     {| sends := S (sends w); replies := S (replies w); uuids := uuids w;
        trace := (trace w
                  ++ [ConsoleLog (searched m);
                      Mail note (OWNER (sends w) note);
                      Reply (vault_reply m mid text)
                        (REPLY (replies w) (vault_reply m mid text))])%list |}).
Proof.
  intros Hw Hr Hid Hm. unfold email, searched in *. rewrite Hw, Hr, Hid.
  cbn [negb]. unfold setHeader. rewrite Hm. unfold bind at 1 2 3, ret at 1, console_log, emit.
  cbn [fst snd]. unfold bind. rewrite createToken_run.
  cbn [sends replies uuids trace]. unfold ret.
  rewrite reply_spec. cbn [fst snd sends replies uuids trace].
  rewrite <- !app_assoc. cbn [app].
  destruct (OWNER (sends w) _); reflexivity.
Qed.

(** X21.  [fetch] answers every request with the status 200.  Without the
    content type [application/json] the answer is the page and nothing is
    sent; with it the owner is notified for the identity [anonymous] and
    the body holds what [createToken] returned, which is the error
    response when the notification was rejected: the status 500 of that
    response is not the status of the answer. *)
Theorem fetch_answers_200 (now : Z) (request : Request) (env : Env) (w : World) :
  (content_type request <> Some "application/json" ->
   fetch OWNER number_toString jwt now request env w
   = (Ok {| status := 200; page := IndexHtml |}, w))
  /\ (content_type request = Some "application/json" ->
      let note := notification number_toString "anonymous"
                    (Some (hostname request)) env in
      fst (fetch OWNER number_toString jwt now request env w)
      = Ok {| status := 200;
              page := TokenJson
                        (match OWNER (sends w) note with
                         | None => Token (jwt_sign jwt (claims now "anonymous" env)
                                            (SECRET env))
                         | Some e => Response e 500
                         end) |}
      /\ trace (snd (fetch OWNER number_toString jwt now request env w))
         = (trace w ++ [Mail note (OWNER (sends w) note)])%list).
Proof.
  unfold fetch, fetch_token, is_json. split.
  - intros H. destruct (content_type request) as [s|]; [|reflexivity].
    destruct (String.eqb s "application/json") eqn:E; [|reflexivity].
    apply String.eqb_eq in E. subst s. now elim H.
  - intros ->. rewrite String.eqb_refl. cbn [negb].
    unfold bind. rewrite createToken_run. split; reflexivity.
Qed.

End MailFacts.

(** A message of somebody who is not listed leaves the world as it was. *)
Lemma unlisted_sender_dropped_witness :
  Vault.email Sample.up Sample.up Sample.show Sample.utc
    (Sample.jwt_of Sample.default_claims) Sample.header_error Sample.now
    Cases.stranger Cases.vault_listed Runtime.start
  = (Runtime.Ok tt, Runtime.start).
Proof.
  apply (unlisted_sender_dropped Sample.up Sample.up Sample.show Sample.utc
           (Sample.jwt_of Sample.default_claims) Sample.header_error Sample.now
           Cases.stranger Cases.vault_listed Runtime.start).
  right. exists "a@b.c,d@e.f". split; [reflexivity|]. split; [discriminate|].
  vm_compute. intros [H|[H|[]]]; discriminate H.
Defined.

(** Four days after the issuance under the default configuration the token
    verifies, and its submission is answered with the vault content. *)
Lemma verified_token_releases_witness :
  Vault.email Sample.up Sample.up Sample.show Sample.utc
    (Sample.jwt_of Sample.default_claims) Sample.header_error Cases.later
    Cases.submission Sample.vault_default Runtime.start
  = (Runtime.Ok tt,
     {| Runtime.sends := 0; Runtime.replies := 1; Runtime.uuids := 0;
        Runtime.trace :=
          [Runtime.ConsoleLog "eyJhbGciOiJIUzI1NiJ9.e30.c2ln";
           Runtime.Reply
             (Observe.vault_reply Cases.submission "<10@b.c>" "the vault") None] |}).
Proof.
  apply (verified_token_releases Sample.up Sample.up Sample.show Sample.utc
           (Sample.jwt_of Sample.default_claims) Sample.header_error Cases.later
           Cases.submission Sample.vault_default Runtime.start "<10@b.c>"
           "eyJhbGciOiJIUzI1NiJ9.e30.c2ln").
  - reflexivity.
  - reflexivity.
  - reflexivity.
  - reflexivity.
  - vm_compute. reflexivity.
Defined.

(** A request for a token: the owner is notified, the token is sent back. *)
Lemma token_request_notifies_owner_witness :
  Vault.email Sample.up Sample.up Sample.show Sample.utc
    (Sample.jwt_of Sample.default_claims) Sample.header_error Sample.now
    Cases.token_request Sample.vault_default Runtime.start
  = (Runtime.Ok tt,
     {| Runtime.sends := 1; Runtime.replies := 1; Runtime.uuids := 0;
        Runtime.trace :=
          [Runtime.ConsoleLog "I need access";
           Runtime.Mail (Vault.notification Sample.show "a@b.c" (Some "x.com")
                           Sample.vault_default) None;
           Runtime.Reply
             (Observe.vault_reply Cases.token_request "<9@b.c>"
                "[ eyJhbGciOiJIUzI1NiJ9.e30.c2ln ]") None] |}).
Proof.
  apply (token_request_notifies_owner Sample.up Sample.up Sample.show Sample.utc
           (Sample.jwt_of Sample.default_claims) Sample.header_error Sample.now
           Cases.token_request Sample.vault_default Runtime.start "<9@b.c>").
  - reflexivity.
  - reflexivity.
  - reflexivity.
  - reflexivity.
Defined.

Section HeaderFacts.
Import JS Runtime.

Variable SEB : Binding.
Variable OWNER : Binding.
Variable REPLY : Binding.
Variable randomUUID : nat -> string.
Variable number_toString : number -> string.
Variable toUTCString : number -> string.
Variable HMAC : list Byte.byte -> list Byte.byte -> list Byte.byte.
Variable SLEEP : Spawner.
Variable jwt : Vault.Jwt.
Variable header_error : string.

(** X22.  A message that is no reply and has no [Message-ID] header makes
    both [email] handlers throw the error of [setHeader] before anything
    else happens: whoever sent it and whatever it holds, nothing is sent,
    replied, created or logged; for the token worker, when its sender
    passes the whitelist. *)
Theorem missing_message_id_throws (now : Z) (m : Message) (env : Worker.Env)
  (venv : Vault.Env) (w : World) :
  is_reply m = false ->
  message_id m = None ->
  Worker.email SEB REPLY randomUUID number_toString HMAC SLEEP header_error m env w
  = (Throw header_error, w)
  /\ (Vault.whitelisted venv (msg_from m) = true ->
      Vault.email OWNER REPLY number_toString toUTCString jwt header_error now m
        venv w
      = (Throw header_error, w)).
Proof.
  intros Hr Hid. split.
  - unfold Worker.email, Worker.handleOwnerEmail, Worker.handleContactEmail.
    rewrite Hr, Hid. destruct (String.eqb _ _); reflexivity.
  - intros Hw. unfold Vault.email. rewrite Hw, Hr, Hid. reflexivity.
Qed.

End HeaderFacts.

(** The message without the header, sent to either worker. *)
Lemma missing_message_id_throws_witness :
  Worker.email Sample.up Sample.up Sample.uuid Sample.show Sample.mac Sample.spawn
    Sample.header_error Cases.headerless Sample.env Runtime.start
  = (Runtime.Throw Sample.header_error, Runtime.start)
  /\ Vault.email Sample.up Sample.up Sample.show Sample.utc
       (Sample.jwt_of Sample.default_claims) Sample.header_error Sample.now
       Cases.headerless Sample.vault_default Runtime.start
     = (Runtime.Throw Sample.header_error, Runtime.start).
Proof.
  destruct (missing_message_id_throws Sample.up Sample.up Sample.up Sample.uuid
              Sample.show Sample.utc Sample.mac Sample.spawn
              (Sample.jwt_of Sample.default_claims) Sample.header_error
              Sample.now Cases.headerless Sample.env Sample.vault_default
              Runtime.start eq_refl eq_refl)
    as [H1 H2].
  split; [exact H1|exact (H2 eq_refl)].
Defined.
